(** * Stack Overflow MCP server: rate limiting, aggregation, write gates and formatting

    A shallow embedding of [src/index.ts] (class [StackOverflowServer]) and of
    [src/types/index.ts].  Asynchronous methods become computations in a
    state-and-exception monad over an explicit [World] (clock, the private field
    [requestTimestamps], and the log of outbound HTTP requests); the remote API
    and the passage of time are parameters of the development. *)

From Stdlib Require Import String Ascii.
From Stdlib Require Import ZArith NArith List Bool Lia Arith Sorted.
From Stdlib Require Import DecimalString.
From Stdlib Require DecimalZ DecimalPos DecimalFacts.
Import ListNotations.

Set Implicit Arguments.
Set Warnings "-register-all".

Local Open Scope Z_scope.

(** ** Constants of [index.ts] *)

Definition MAX_REQUESTS_PER_WINDOW : nat := 30.
Definition RATE_LIMIT_WINDOW_MS : Z := 60000.
Definition RETRY_AFTER_MS : Z := 2000.

(** ** The rate limiter

    [checkRateLimit] reads [Date.now()], filters [this.requestTimestamps] and
    either refuses or pushes the current instant.  The pure core takes the
    instant and the field and returns the answer with the new field. *)

Definition in_window (now timestamp : Z) : bool :=
  now - timestamp <? RATE_LIMIT_WINDOW_MS.

Definition checkRateLimit_at (now : Z) (requestTimestamps : list Z)
  : bool * list Z :=
  let kept := filter (in_window now) requestTimestamps in
  if (MAX_REQUESTS_PER_WINDOW <=? length kept)%nat
  then (false, kept)
  else (true, kept ++ [now]).

(** A run of successive [checkRateLimit] calls at the given instants: the
    answers, in order, and the final field. *)
Fixpoint checkRateLimit_run (instants : list Z) (requestTimestamps : list Z)
  : list bool * list Z :=
  match instants with
  | [] => ([], requestTimestamps)
  | now :: later =>
      let '(answer, ts1) := checkRateLimit_at now requestTimestamps in
      let '(answers, ts2) := checkRateLimit_run later ts1 in
      (answer :: answers, ts2)
  end.

Definition permitted (answers : list bool) : nat :=
  length (filter (fun b => b) answers).

(** The instants all lie in one window of [RATE_LIMIT_WINDOW_MS] starting at [t0]. *)
Definition within_window (t0 : Z) (instants : list Z) : Prop :=
  Forall (fun t => t0 <= t < t0 + RATE_LIMIT_WINDOW_MS) instants.

(** ** Thrown values

    What a [throw] or a rejected promise can carry: an [McpError] of the MCP
    SDK (an [Error] subclass without a [status] property), another [Error]
    instance (the [TypeError] of a failed [fetch], a [SyntaxError] of
    [response.json()]), a plain object, or a primitive.  An [McpError] holds
    the message its constructor was given; the prefix the SDK puts before it
    names the numeric error code and never contains "429". *)

Inductive ErrorCode : Set :=
| InvalidParams
| InvalidRequest
| InternalError
| MethodNotFound.

Inductive Thrown : Set :=
| McpError (code : ErrorCode) (message : string)
| JsError (message : string) (status : option Z)
| JsObject (status : option Z)
| JsPrimitive (text : string).

(** [error instanceof McpError] *)
Definition instanceof_McpError (error : Thrown) : bool :=
  match error with McpError _ _ => true | _ => false end.

(** [error instanceof Error ? error.message : String(error)] *)
Definition error_text (error : Thrown) : string :=
  match error with
  | McpError _ message => message
  | JsError message _ => message
  | JsObject _ => "[object Object]"
  | JsPrimitive text => text
  end.

(** [haystack.includes(needle)] *)
Fixpoint includes (needle haystack : string) : bool :=
  String.prefix needle haystack
  || match haystack with
     | EmptyString => false
     | String _ rest => includes needle rest
     end.

Definition status_is_429 (status : option Z) : bool :=
  match status with Some s => s =? 429 | None => false end.

(** The test of the [catch] block of [withRateLimit]:
    [(error instanceof Error && error.message.includes("429")) ||
     (typeof error === "object" && error !== null && "status" in error &&
      error.status === 429)]. *)
Definition is_rate_limited (error : Thrown) : bool :=
  match error with
  | McpError _ message => includes "429" message
  | JsError message status => includes "429" message || status_is_429 status
  | JsObject status => status_is_429 status
  | JsPrimitive _ => false
  end.

(** ** Truthiness of optional, typed properties *)

Definition truthy_string (v : option string) : bool :=
  match v with Some s => negb (String.eqb s "") | None => false end.

Definition truthy_number (v : option Z) : bool :=
  match v with Some n => negb (n =? 0) | None => false end.

Definition truthy_boolean (v : option bool) : bool :=
  match v with Some b => b | None => false end.

(** Arrays are objects: every array is truthy, also the empty one. *)
Definition truthy_array {A : Type} (v : option (list A)) : bool :=
  match v with Some _ => true | None => false end.

(** ** The data model of [types/index.ts] *)

Module Question.
Record StackOverflowQuestion : Set := {
  question_id : Z;
  title : string;
  body : string;
  score : Z;
  answer_count : Z;
  is_answered : bool;
  accepted_answer_id : option Z;
  creation_date : Z;
  tags : list string;
  link : string
}.
End Question.
Definition StackOverflowQuestion : Set := Question.StackOverflowQuestion.

(** [answer_id] is declared a [number]; the aggregator nevertheless guards
    [answer.answer_id !== undefined], so the property is optional here. *)
Module Answer.
Record StackOverflowAnswer : Set := {
  answer_id : option Z;
  question_id : Z;
  score : Z;
  is_accepted : bool;
  body : string;
  creation_date : Z;
  link : string
}.
End Answer.
Definition StackOverflowAnswer : Set := Answer.StackOverflowAnswer.

Module Comment.
Record StackOverflowComment : Set := {
  comment_id : Z;
  post_id : Z;
  score : Z;
  body : string;
  creation_date : Z
}.
End Comment.
Definition StackOverflowComment : Set := Comment.StackOverflowComment.

(** [{ [answerId: number]: StackOverflowComment[] }]: an object used as a map,
    modelled as the list of its properties in enumeration order.  An ordinary
    object lists its array-index keys (the integers from 0 to 2^32 - 2) first,
    in ascending order, and then its other keys in the order they were
    created; assigning to an existing key replaces its value in place. *)
Definition AnswerComments : Set := list (Z * list StackOverflowComment).

Definition is_array_index (key : Z) : bool :=
  (0 <=? key) && (key <=? 4294967294).

(** [key in object] *)
Definition has_key (key : Z) (object : AnswerComments) : bool :=
  existsb (fun entry => key =? fst entry) object.

(** Assignment to a property the object has. *)
Fixpoint replace_value (key : Z) (value : list StackOverflowComment)
  (object : AnswerComments) : AnswerComments :=
  match object with
  | [] => []
  | (k, v) :: rest =>
      if key =? k then (k, value) :: rest
      else (k, v) :: replace_value key value rest
  end.

(** Assignment to a property the object does not have: an array index takes
    its place among the array indices, any other key goes last. *)
Fixpoint create_property (key : Z) (value : list StackOverflowComment)
  (object : AnswerComments) : AnswerComments :=
  match object with
  | [] => [(key, value)]
  | (k, v) :: rest =>
      if is_array_index key && (negb (is_array_index k) || (key <? k))
      then (key, value) :: (k, v) :: rest
      else (k, v) :: create_property key value rest
  end.

(** [object[key] = value] *)
Definition answers_set (key : Z) (value : list StackOverflowComment)
  (object : AnswerComments) : AnswerComments :=
  if has_key key object then replace_value key value object
  else create_property key value object.

Fixpoint answers_get (key : Z) (object : AnswerComments)
  : option (list StackOverflowComment) :=
  match object with
  | [] => None
  | (k, v) :: rest => if key =? k then Some v else answers_get key rest
  end.

Module Comments.
Record SearchResultComments : Set := {
  question : list StackOverflowComment;
  answers : AnswerComments
}.
End Comments.
Definition SearchResultComments : Set := Comments.SearchResultComments.

Module Result.
Record SearchResult : Set := {
  question : StackOverflowQuestion;
  answers : list StackOverflowAnswer;
  comments : option SearchResultComments
}.
End Result.
Definition SearchResult : Set := Result.SearchResult.

Record ApiErrorResponse : Set := {
  error_id : option Z;
  error_name : option string;
  error_message : option string
}.

(** ** Outbound HTTP requests

    A request is the method, the endpoint under [STACKOVERFLOW_API] and the
    [URLSearchParams] (the query string of a GET, the form body of a POST), in
    insertion order. *)

Inductive Method : Set := GET | POST.

Inductive Endpoint : Set :=
| SearchAdvanced                  (* /search/advanced *)
| QuestionsList                   (* /questions *)
| QuestionAnswers (questionId : Z) (* /questions/{id}/answers *)
| PostComments (postId : Z)        (* /posts/{id}/comments *)
| QuestionById (questionId : Z)    (* /questions/{id} *)
| QuestionsAdd                    (* /questions/add *)
| AnswersAdd (questionId : Z)      (* /questions/{id}/answers/add *)
| PostUpvote (postId : Z)          (* /posts/{id}/upvote *)
| CommentsAdd (postId : Z).        (* /posts/{id}/comments/add *)

Definition URLSearchParams : Set := list (string * string).

Record Request : Set := {
  method : Method;
  endpoint : Endpoint;
  params : URLSearchParams
}.

Definition is_read (request : Request) : bool :=
  match method request with GET => true | POST => false end.

Definition is_search (request : Request) : bool :=
  match endpoint request with SearchAdvanced => true | _ => false end.

Definition is_answers_fetch (request : Request) : bool :=
  match endpoint request with QuestionAnswers _ => true | _ => false end.

Definition is_comments_fetch (request : Request) : bool :=
  match endpoint request with PostComments _ => true | _ => false end.

(** ** Responses

    [response.json()] either rejects or yields the API wrapper object, of which
    the program reads [items] (on success) and [error_message], [error_id] (on
    failure); [T] is the type the call site gives the items. *)

Record Payload (T : Set) : Set := {
  items : option (list T);
  api_error : ApiErrorResponse
}.

Record Response (T : Set) : Set := {
  ok : bool;
  status : Z;
  json : Thrown + Payload T
}.

(** The item a write endpoint returns; the handlers read [question_id],
    [answer_id], [comment_id] and [link] through [created?.]. *)
Record Created : Set := {
  created_question_id : option Z;
  created_answer_id : option Z;
  created_comment_id : option Z;
  created_link : option string
}.

(** ** The world outside the program

    [apiKey] and [accessToken] are the two environment variables read by the
    constructor.  The remote service answers the [k]-th outbound request
    (counting every request since start-up) by rejecting the [fetch] promise or
    by resolving it with a response; [elapse] is the time, in milliseconds, that
    passes at the [k]-th suspension point on top of any timer. *)

Record Environment : Type := {
  apiKey : option string;
  accessToken : option string;
  questions_api : nat -> Request -> Thrown + Response StackOverflowQuestion;
  answers_api : nat -> Request -> Thrown + Response StackOverflowAnswer;
  comments_api : nat -> Request -> Thrown + Response StackOverflowComment;
  write_api : nat -> Request -> Thrown + Response Created;
  elapse : nat -> N
}.

(** The mutable state: the clock read by [Date.now()], the number of
    suspension points passed, the private field [requestTimestamps], and the
    log of the requests handed to [fetch]. *)
Record World : Set := {
  now : Z;
  ticks : nat;
  requestTimestamps : list Z;
  calls : list Request
}.

(** The state of a freshly constructed server at instant [t]. *)
Definition initial_world (t : Z) : World :=
  {| now := t; ticks := 0; requestTimestamps := []; calls := [] |}.

(** ** Computations: state, exceptions, and a bound on recursion depth *)

Inductive Outcome (A : Type) : Type :=
| Return (value : A) (w : World)
| Throw (error : Thrown) (w : World)
| OutOfFuel.
Arguments Return {A} value w.
Arguments Throw {A} error w.
Arguments OutOfFuel {A}.

Definition M (A : Type) : Type := World -> Outcome A.

Definition ret {A : Type} (a : A) : M A := fun w => Return a w.

Definition throw {A : Type} (error : Thrown) : M A := fun w => Throw error w.

Definition bind {A B : Type} (m : M A) (k : A -> M B) : M B :=
  fun w =>
    match m w with
    | Return a w' => k a w'
    | Throw error w' => Throw error w'
    | OutOfFuel => OutOfFuel
    end.

(** [try { m } catch (error) { handler }] *)
Definition try_catch {A : Type} (m : M A) (handler : Thrown -> M A) : M A :=
  fun w =>
    match m w with
    | Return a w' => Return a w'
    | Throw error w' => handler error w'
    | OutOfFuel => OutOfFuel
    end.

Declare Scope monad_scope.
Delimit Scope monad_scope with monad.
Notation "x <- m ;; k" := (bind m (fun x => k))
  (at level 61, m at next level, right associativity) : monad_scope.
Notation "m ;;; k" := (bind m (fun _ => k))
  (at level 61, right associativity) : monad_scope.
Local Open Scope monad_scope.

(** [await new Promise((resolve) => setTimeout(resolve, ms))]: the timer fires
    no earlier than [ms] milliseconds from now. *)
Definition sleep (E : Environment) (ms : Z) : M unit :=
  fun w =>
    Return tt {| now := now w + ms + Z.of_N (elapse E (ticks w));
                 ticks := S (ticks w);
                 requestTimestamps := requestTimestamps w;
                 calls := calls w |}.

(** [checkRateLimit()] on the state. *)
Definition checkRateLimit : M bool :=
  fun w =>
    let '(answer, timestamps) := checkRateLimit_at (now w) (requestTimestamps w) in
    Return answer {| now := now w;
                     ticks := ticks w;
                     requestTimestamps := timestamps;
                     calls := calls w |}.

(** An operation handed to [withRateLimit]: it is logged under [request], takes
    some time, and settles as [behaviour] says for the number of operations
    started before it. *)
Definition invoke {T : Type} (E : Environment) (request : Request)
  (behaviour : nat -> Thrown + T) : M T :=
  fun w =>
    let w' := {| now := now w + Z.of_N (elapse E (ticks w));
                 ticks := S (ticks w);
                 requestTimestamps := requestTimestamps w;
                 calls := (calls w ++ [request])%list |} in
    match behaviour (length (calls w)) with
    | inl error => Throw error w'
    | inr value => Return value w'
    end.

(** [withRateLimit(fn, retries)].  Both recursive calls of the source are
    counted by [fuel]. *)
Fixpoint withRateLimit {T : Type} (E : Environment) (fuel : nat) (fn : M T)
  (retries : Z) : M T :=
  match fuel with
  | O => fun _ => OutOfFuel
  | S fuel' =>
      permit <- checkRateLimit ;;
      if negb permit
      then sleep E RETRY_AFTER_MS ;;; withRateLimit E fuel' fn retries
      else try_catch fn (fun error =>
             if (0 <? retries) && is_rate_limited error
             then sleep E RETRY_AFTER_MS ;;;
                  withRateLimit E fuel' fn (retries - 1)
             else throw error)
  end.

(** The default of the parameter [retries]. *)
Definition default_retries : Z := 3.

(** ** JSON values, [JSON.stringify(value, null, 2)] and [JSON.parse]

    Strings are sequences of 8-bit code units and numbers are integers (every
    number of the data model is one; [Number::toString] prints an integer below
    10^21 in plain decimal).  An object is the list of its properties in
    enumeration order. *)

Local Open Scope string_scope.

Inductive JSValue : Set :=
| JNull
| JBool (b : bool)
| JNum (n : Z)
| JStr (s : string)
| JArr (elements : list JSValue)
| JObj (members : list (string * JSValue)).

Definition dquote : ascii := "034"%char.
Definition backslash : ascii := "092"%char.
Definition newline : ascii := "010"%char.
Definition nl : string := String newline "".

(** [Number::toString] on an integer. *)
Definition Number_toString (n : Z) : string :=
  match Z.to_int n with
  | Decimal.Pos d => NilEmpty.string_of_uint d
  | Decimal.Neg d => "-" ++ NilEmpty.string_of_uint d
  end.

Definition hex_digit (n : N) : ascii :=
  ascii_of_N (if (n <? 10)%N then 48 + n else 87 + n).

(** [\uXXXX] with lower-case digits, for a code unit below 256. *)
Definition unicode_escape (c : ascii) : string :=
  let n := N_of_ascii c in
  String backslash
    (String "u" (String "0" (String "0"
      (String (hex_digit (n / 16)) (String (hex_digit (n mod 16)) ""))))).

(** One code unit under [QuoteJSONString]. *)
Definition quote_char (c : ascii) : string :=
  if (c =? "008")%char then String backslash "b"
  else if (c =? "009")%char then String backslash "t"
  else if (c =? "010")%char then String backslash "n"
  else if (c =? "012")%char then String backslash "f"
  else if (c =? "013")%char then String backslash "r"
  else if (c =? dquote)%char then String backslash (String dquote "")
  else if (c =? backslash)%char then String backslash (String backslash "")
  else if (N_of_ascii c <? 32)%N then unicode_escape c
  else String c "".

Fixpoint quote_chars (s : string) : string :=
  match s with
  | EmptyString => ""
  | String c rest => quote_char c ++ quote_chars rest
  end.

Definition QuoteJSONString (s : string) : string :=
  String dquote (quote_chars s ++ String dquote "").

Definition gap : string := "  ".

(** [SerializeJSONProperty] with [indent] the current indentation: arrays and
    objects put every element on a line of its own, one [gap] deeper, and the
    closing bracket back at [indent]; the empty ones are ["[]"] and ["{}"]. *)
Fixpoint SerializeJSON (indent : string) (value : JSValue) : string :=
  match value with
  | JNull => "null"
  | JBool true => "true"
  | JBool false => "false"
  | JNum n => Number_toString n
  | JStr s => QuoteJSONString s
  | JArr [] => "[]"
  | JArr (first :: others) =>
      let deeper := indent ++ gap in
      "[" ++ nl ++ deeper ++ SerializeJSON deeper first
      ++ (fix more (l : list JSValue) : string :=
            match l with
            | [] => ""
            | element :: l' =>
                "," ++ nl ++ deeper ++ SerializeJSON deeper element ++ more l'
            end) others
      ++ nl ++ indent ++ "]"
  | JObj [] => "{}"
  | JObj ((key, first) :: others) =>
      let deeper := indent ++ gap in
      "{" ++ nl ++ deeper ++ QuoteJSONString key ++ ": "
      ++ SerializeJSON deeper first
      ++ (fix more (l : list (string * JSValue)) : string :=
            match l with
            | [] => ""
            | (k, v) :: l' =>
                "," ++ nl ++ deeper ++ QuoteJSONString k ++ ": "
                ++ SerializeJSON deeper v ++ more l'
            end) others
      ++ nl ++ indent ++ "}"
  end.

(** [JSON.stringify(value, null, 2)] *)
Definition JSON_stringify (value : JSValue) : string := SerializeJSON "" value.

(** *** Parsing *)

Definition is_whitespace (c : ascii) : bool :=
  (c =? " ")%char || (c =? "009")%char || (c =? "010")%char || (c =? "013")%char.

Fixpoint skip_whitespace (s : string) : string :=
  match s with
  | String c rest => if is_whitespace c then skip_whitespace rest else s
  | EmptyString => ""
  end.

Definition hex_value (c : ascii) : option N :=
  let n := N_of_ascii c in
  if (48 <=? n)%N && (n <=? 57)%N then Some (n - 48)%N
  else if (97 <=? n)%N && (n <=? 102)%N then Some (n - 87)%N
  else if (65 <=? n)%N && (n <=? 70)%N then Some (n - 55)%N
  else None.

(** The code unit of [\uXXXX]; one above 255 has no counterpart here. *)
Definition unescape_unicode (h1 h2 h3 h4 : ascii) : option ascii :=
  match hex_value h1, hex_value h2, hex_value h3, hex_value h4 with
  | Some a, Some b, Some c, Some d =>
      if (a =? 0)%N && (b =? 0)%N then Some (ascii_of_N (c * 16 + d)) else None
  | _, _, _, _ => None
  end.

Definition prepend (c : ascii) (r : option (string * string))
  : option (string * string) :=
  match r with
  | Some (s, rest) => Some (String c s, rest)
  | None => None
  end.

(** The characters of a string literal after its opening quote: the decoded
    string and the text after the closing quote. *)
Fixpoint parse_string_body (s : string) : option (string * string) :=
  match s with
  | EmptyString => None
  | String c rest =>
      if (c =? dquote)%char then Some ("", rest)
      else if (c =? backslash)%char then
        match rest with
        | String e rest' =>
            if (e =? dquote)%char then prepend dquote (parse_string_body rest')
            else if (e =? backslash)%char then prepend backslash (parse_string_body rest')
            else if (e =? "/")%char then prepend "/"%char (parse_string_body rest')
            else if (e =? "b")%char then prepend "008"%char (parse_string_body rest')
            else if (e =? "f")%char then prepend "012"%char (parse_string_body rest')
            else if (e =? "n")%char then prepend "010"%char (parse_string_body rest')
            else if (e =? "r")%char then prepend "013"%char (parse_string_body rest')
            else if (e =? "t")%char then prepend "009"%char (parse_string_body rest')
            else if (e =? "u")%char then
              match rest' with
              | String h1 (String h2 (String h3 (String h4 rest''))) =>
                  match unescape_unicode h1 h2 h3 h4 with
                  | Some u => prepend u (parse_string_body rest'')
                  | None => None
                  end
              | _ => None
              end
            else None
        | EmptyString => None
        end
      else if (N_of_ascii c <? 32)%N then None
      else prepend c (parse_string_body rest)
  end.

Definition digit_of (c : ascii) : option (Decimal.uint -> Decimal.uint) :=
  if (c =? "0")%char then Some Decimal.D0
  else if (c =? "1")%char then Some Decimal.D1
  else if (c =? "2")%char then Some Decimal.D2
  else if (c =? "3")%char then Some Decimal.D3
  else if (c =? "4")%char then Some Decimal.D4
  else if (c =? "5")%char then Some Decimal.D5
  else if (c =? "6")%char then Some Decimal.D6
  else if (c =? "7")%char then Some Decimal.D7
  else if (c =? "8")%char then Some Decimal.D8
  else if (c =? "9")%char then Some Decimal.D9
  else None.

(** The longest run of decimal digits at the head of [s]. *)
Fixpoint read_digits (s : string) : Decimal.uint * string :=
  match s with
  | EmptyString => (Decimal.Nil, "")
  | String c rest =>
      match digit_of c with
      | Some d => let '(u, rest') := read_digits rest in (d u, rest')
      | None => (Decimal.Nil, s)
      end
  end.

(** An integer literal without leading zeros ([0] itself apart). *)
Definition read_natural (s : string) : option (Z * string) :=
  let '(u, rest) := read_digits s in
  match u with
  | Decimal.Nil => None
  | _ => if Decimal.uint_beq (Decimal.unorm u) u
         then Some (Z.of_uint u, rest) else None
  end.

(** A number; a fraction or an exponent is left in the text, where the caller
    rejects it. *)
Definition parse_number (s : string) : option (JSValue * string) :=
  match s with
  | String c rest =>
      if (c =? "-")%char
      then option_map (fun nr => (JNum (- fst nr), snd nr)) (read_natural rest)
      else option_map (fun nr => (JNum (fst nr), snd nr)) (read_natural s)
  | EmptyString => None
  end.

Fixpoint expect (word s : string) : option string :=
  match word, s with
  | EmptyString, _ => Some s
  | String a word', String b s' => if (a =? b)%char then expect word' s' else None
  | String _ _, EmptyString => None
  end.

(** Assigning property [key] of an object under construction: a repeated key
    keeps its place and takes the later value. *)
Fixpoint object_set (key : string) (value : JSValue) (members : list (string * JSValue))
  : list (string * JSValue) :=
  match members with
  | [] => [(key, value)]
  | (k, v) :: rest =>
      if String.eqb k key then (k, value) :: rest
      else (k, v) :: object_set key value rest
  end.

Definition build_object (members : list (string * JSValue)) : JSValue :=
  JObj (fold_left (fun object m => object_set (fst m) (snd m) object) members []).

Fixpoint parse_value (fuel : nat) (s : string) : option (JSValue * string) :=
  match fuel with
  | O => None
  | S fuel' =>
      match skip_whitespace s with
      | EmptyString => None
      | String c rest =>
          if (c =? "n")%char then
            option_map (fun r => (JNull, r)) (expect "ull" rest)
          else if (c =? "t")%char then
            option_map (fun r => (JBool true, r)) (expect "rue" rest)
          else if (c =? "f")%char then
            option_map (fun r => (JBool false, r)) (expect "alse" rest)
          else if (c =? dquote)%char then
            option_map (fun sr => (JStr (fst sr), snd sr)) (parse_string_body rest)
          else if (c =? "[")%char then
            match skip_whitespace rest with
            | String c' rest' =>
                if (c' =? "]")%char then Some (JArr [], rest')
                else option_map (fun er => (JArr (fst er), snd er))
                       (parse_elements fuel' rest)
            | EmptyString => None
            end
          else if (c =? "{")%char then
            match skip_whitespace rest with
            | String c' rest' =>
                if (c' =? "}")%char then Some (JObj [], rest')
                else option_map (fun mr => (build_object (fst mr), snd mr))
                       (parse_members fuel' rest)
            | EmptyString => None
            end
          else parse_number (String c rest)
      end
  end
with parse_elements (fuel : nat) (s : string) : option (list JSValue * string) :=
  match fuel with
  | O => None
  | S fuel' =>
      match parse_value fuel' s with
      | None => None
      | Some (value, rest) =>
          match skip_whitespace rest with
          | String c rest' =>
              if (c =? ",")%char then
                option_map (fun er => (value :: fst er, snd er))
                  (parse_elements fuel' rest')
              else if (c =? "]")%char then Some ([value], rest')
              else None
          | EmptyString => None
          end
      end
  end
with parse_members (fuel : nat) (s : string)
  : option (list (string * JSValue) * string) :=
  match fuel with
  | O => None
  | S fuel' =>
      match skip_whitespace s with
      | String c rest =>
          match (if (c =? dquote)%char then parse_string_body rest else None) with
          | None => None
          | Some (key, rest1) =>
              match skip_whitespace rest1 with
              | String c1 rest2 =>
                  match (if (c1 =? ":")%char then parse_value fuel' rest2
                         else None) with
                  | None => None
                  | Some (value, rest3) =>
                      match skip_whitespace rest3 with
                      | String c3 rest4 =>
                          if (c3 =? ",")%char then
                            option_map
                              (fun mr => ((key, value) :: fst mr, snd mr))
                              (parse_members fuel' rest4)
                          else if (c3 =? "}")%char
                          then Some ([(key, value)], rest4)
                          else None
                      | EmptyString => None
                      end
                  end
              | EmptyString => None
              end
          end
      | _ => None
      end
  end.

(** [JSON.parse(text)]: one value, surrounded by optional white space. *)
Definition JSON_parse (text : string) : option JSValue :=
  match parse_value (S (String.length text)) text with
  | Some (value, rest) =>
      match skip_whitespace rest with
      | EmptyString => Some value
      | _ => None
      end
  | None => None
  end.

(** ** Tool inputs ([types/index.ts])

    The raw [arguments] object of a tool call may lack any property; the
    dispatcher checks the required ones and hands the handler its input, in
    which only the properties the handler itself tests stay optional. *)

Inductive ResponseFormat : Set := Json | Markdown.

Record Arguments : Set := {
  arg_errorMessage : option string;
  arg_language : option string;
  arg_technologies : option (list string);
  arg_minScore : option Z;
  arg_includeComments : option bool;
  arg_responseFormat : option ResponseFormat;
  arg_limit : option Z;
  arg_tags : option (list string);
  arg_stackTrace : option string;
  arg_title : option string;
  arg_body : option string;
  arg_errorSignature : option string;
  arg_triedApproaches : option (list string);
  arg_questionId : option Z;
  arg_confirmedResolved : option bool;
  arg_evidence : option (list string);
  arg_postId : option Z;
  arg_confirmedFixed : option bool
}.

Module SearchByError.
Record SearchByErrorInput : Set := {
  errorMessage : string;
  language : option string;
  technologies : option (list string);
  minScore : option Z;
  includeComments : option bool;
  responseFormat : option ResponseFormat;
  limit : option Z
}.
End SearchByError.
Definition SearchByErrorInput : Set := SearchByError.SearchByErrorInput.

Module SearchByTags.
Record SearchByTagsInput : Set := {
  tags : list string;
  minScore : option Z;
  includeComments : option bool;
  responseFormat : option ResponseFormat;
  limit : option Z
}.
End SearchByTags.
Definition SearchByTagsInput : Set := SearchByTags.SearchByTagsInput.

Module StackTrace.
Record StackTraceInput : Set := {
  stackTrace : string;
  language : string;
  includeComments : option bool;
  responseFormat : option ResponseFormat;
  limit : option Z
}.
End StackTrace.
Definition StackTraceInput : Set := StackTrace.StackTraceInput.

Module PostQuestion.
Record PostQuestionInput : Set := {
  title : string;
  body : string;
  tags : list string;
  errorSignature : string;
  triedApproaches : list string
}.
End PostQuestion.
Definition PostQuestionInput : Set := PostQuestion.PostQuestionInput.

Module PostSolution.
Record PostSolutionInput : Set := {
  questionId : Z;
  body : string;
  confirmedResolved : option bool;
  evidence : option (list string)
}.
End PostSolution.
Definition PostSolutionInput : Set := PostSolution.PostSolutionInput.

Module ThumbsUp.
Record ThumbsUpInput : Set := {
  postId : Z;
  confirmedFixed : option bool
}.
End ThumbsUp.
Definition ThumbsUpInput : Set := ThumbsUp.ThumbsUpInput.

Module CommentSolution.
Record CommentSolutionInput : Set := {
  questionId : Z;
  body : string
}.
End CommentSolution.
Definition CommentSolutionInput : Set := CommentSolution.CommentSolutionInput.

(** The [options] parameter of [searchStackOverflow]. *)
Module Options.
Record SearchOptions : Set := {
  minScore : option Z;
  limit : option Z;
  includeComments : option bool
}.
End Options.
Definition SearchOptions : Set := Options.SearchOptions.

(** The result of a tool call: [{ content: [{ type: "text", text }] }]. *)
Record ToolResult : Set := { content_text : string }.

(** ** The API client *)

Definition DEFAULT_FILTER : string := "!*MZqiDl8Y0c)yVzXS".
Definition ANSWER_FILTER : string := "!*MZqiDl8Y0c)yVzXS".
Definition COMMENT_FILTER : string := "!*Mg-gxeRLu".

Definition join (separator : string) (l : list string) : string :=
  String.concat separator l.

(** A template-literal hole holding a possibly missing property. *)
Definition show_string (v : option string) : string :=
  match v with Some s => s | None => "undefined" end.

Definition show_number (v : option Z) : string :=
  match v with Some n => Number_toString n | None => "undefined" end.

(** [if (this.apiKey) params.append("key", ...)] and the same for the token. *)
Definition append_credentials (E : Environment) (params : URLSearchParams)
  : URLSearchParams :=
  (params
   ++ (if truthy_string (apiKey E)
       then [("key", show_string (apiKey E))] else [])
   ++ (if truthy_string (accessToken E)
       then [("access_token", show_string (accessToken E))] else []))%list.

(** [fetch(url, init)] under [withRateLimit], with the default retry budget. *)
Definition rate_limited_fetch {T : Set} (E : Environment) (fuel : nat)
  (api : nat -> Request -> Thrown + Response T) (request : Request)
  : M (Response T) :=
  withRateLimit E fuel (invoke E request (fun k => api k request))
    default_retries.

(** [await response.json()] *)
Definition response_json {T : Set} (response : Response T) : M (Payload T) :=
  match json response with
  | inl error => throw error
  | inr data => ret data
  end.

(** [throw new McpError(InvalidRequest, `${what}: ${error_message} (${error_id})`)]
    after reading the error payload of a response that is not [ok]. *)
Definition throw_api_error {T : Set} {A : Type} (what : string)
  (response : Response T) : M A :=
  errorData <- response_json response ;;
  throw (McpError InvalidRequest
           (what ++ ": " ++ show_string (error_message (api_error errorData))
            ++ " (" ++ show_number (error_id (api_error errorData)) ++ ")")).

(** The [catch] block shared by the read operations: an [McpError] is
    rethrown, anything else is wrapped. *)
Definition rethrow_or_wrap {A : Type} (what : string) (error : Thrown) : M A :=
  if instanceof_McpError error then throw error
  else throw (McpError InternalError (what ++ ": " ++ error_text error)).

(** [fetch(`${STACKOVERFLOW_API}/questions/${questionId}/answers?${params}`)] *)
Definition answers_request (E : Environment) (questionId : Z) : Request :=
  {| method := GET; endpoint := QuestionAnswers questionId;
     params := append_credentials E
       [("site", "stackoverflow"); ("filter", ANSWER_FILTER);
        ("sort", "votes"); ("order", "desc")] |}.

Definition fetchAnswers (E : Environment) (fuel : nat) (questionId : Z)
  : M (list StackOverflowAnswer) :=
  try_catch
    (response <- rate_limited_fetch E fuel (answers_api E)
       (answers_request E questionId) ;;
     if negb (ok response)
     then throw_api_error "Stack Overflow API error" response
     else
       data <- response_json response ;;
       ret (match items data with Some l => l | None => [] end))
    (rethrow_or_wrap "Failed to fetch answers").

(** [fetch(`${STACKOVERFLOW_API}/posts/${postId}/comments?${params}`)] *)
Definition comments_request (E : Environment) (postId : Z) : Request :=
  {| method := GET; endpoint := PostComments postId;
     params := append_credentials E
       [("site", "stackoverflow"); ("filter", COMMENT_FILTER);
        ("sort", "votes"); ("order", "desc")] |}.

Definition fetchComments (E : Environment) (fuel : nat) (postId : Z)
  : M (list StackOverflowComment) :=
  try_catch
    (response <- rate_limited_fetch E fuel (comments_api E)
       (comments_request E postId) ;;
     if negb (ok response)
     then throw_api_error "Stack Overflow API error" response
     else
       data <- response_json response ;;
       ret (match items data with Some l => l | None => [] end))
    (rethrow_or_wrap "Failed to fetch comments").

(** [(data.items && data.items[0]) || undefined]; no [catch] here. *)
Definition question_request (E : Environment) (questionId : Z) : Request :=
  {| method := GET; endpoint := QuestionById questionId;
     params := append_credentials E
       [("site", "stackoverflow"); ("filter", DEFAULT_FILTER)] |}.

Definition fetchQuestion (E : Environment) (fuel : nat) (questionId : Z)
  : M (option StackOverflowQuestion) :=
  response <- rate_limited_fetch E fuel (questions_api E)
    (question_request E questionId) ;;
  if negb (ok response)
  then throw_api_error "Stack Overflow API error" response
  else
    data <- response_json response ;;
    ret (match items data with
         | Some (first :: _) => Some first
         | _ => None
         end).

(** ** The aggregator *)

(** The inner loop [for (const answer of answers)] filling [comments.answers]. *)
Fixpoint fetchAnswerComments (E : Environment) (fuel : nat)
  (answers : list StackOverflowAnswer) (answersMap : AnswerComments)
  : M AnswerComments :=
  match answers with
  | [] => ret answersMap
  | answer :: others =>
      match Answer.answer_id answer with
      | Some id =>
          fetched <- fetchComments E fuel id ;;
          fetchAnswerComments E fuel others (answers_set id fetched answersMap)
      | None => fetchAnswerComments E fuel others answersMap
      end
  end.

(** [options.minScore && question.score < options.minScore] *)
Definition below_minScore (minScore : option Z) (question : StackOverflowQuestion)
  : bool :=
  truthy_number minScore
  && match minScore with
     | Some m => (Question.score question <? m)%Z
     | None => false
     end.

(** The loop [for (const question of data.items)], shared word for word by
    [searchStackOverflow] and [handleSearchByTags]; [results] is the array
    built so far. *)
Fixpoint composeResults (E : Environment) (fuel : nat) (minScore : option Z)
  (includeComments : option bool) (questions : list StackOverflowQuestion)
  (results : list SearchResult) : M (list SearchResult) :=
  match questions with
  | [] => ret results
  | question :: others =>
      if below_minScore minScore question
      then composeResults E fuel minScore includeComments others results
      else
        answers <- fetchAnswers E fuel (Question.question_id question) ;;
        comments <-
          (if truthy_boolean includeComments
           then
             ofQuestion <- fetchComments E fuel (Question.question_id question) ;;
             ofAnswers <- fetchAnswerComments E fuel answers [] ;;
             ret (Some {| Comments.question := ofQuestion;
                          Comments.answers := ofAnswers |})
           else ret None) ;;
        composeResults E fuel minScore includeComments others
          (results ++ [{| Result.question := question;
                          Result.answers := answers;
                          Result.comments := comments |}])%list
  end.

(** [for (const question of data.items)] on a payload: a missing [items] is
    not iterable. *)
Definition iterate_items {T : Set} (data : Payload T) : M (list T) :=
  match items data with
  | Some l => ret l
  | None => throw (JsError "data.items is not iterable" None)
  end.

(** [fetch(`${STACKOVERFLOW_API}/search/advanced?${params}`)]: [tagged] is
    sent when [tags] is given and [pagesize] when [limit] is truthy. *)
Definition search_request (E : Environment) (query : string)
  (tags : option (list string)) (limit : option Z) : Request :=
  {| method := GET; endpoint := SearchAdvanced;
     params := append_credentials E
       ([("site", "stackoverflow"); ("sort", "votes"); ("order", "desc");
         ("filter", DEFAULT_FILTER); ("q", query)]
        ++ (match tags with Some t => [("tagged", join ";" t)] | None => [] end)
        ++ (if truthy_number limit
            then [("pagesize", show_number limit)] else []))%list |}.

Definition searchStackOverflow (E : Environment) (fuel : nat) (query : string)
  (tags : option (list string)) (options : SearchOptions)
  : M (list SearchResult) :=
  try_catch
    (response <- rate_limited_fetch E fuel (questions_api E)
       (search_request E query tags (Options.limit options)) ;;
     if negb (ok response)
     then throw_api_error "Stack Overflow API error" response
     else
       data <- response_json response ;;
       questions <- iterate_items data ;;
       composeResults E fuel (Options.minScore options)
         (Options.includeComments options) questions [])
    (rethrow_or_wrap "Failed to search Stack Overflow").

(** ** The write handlers *)

Definition credentials_required : Thrown :=
  McpError InvalidRequest
    "Write operations require STACKOVERFLOW_API_KEY and STACKOVERFLOW_ACCESS_TOKEN".

(** [if (!this.apiKey || !this.accessToken) throw ...] *)
Definition ensureWriteAccess (E : Environment) : M unit :=
  if negb (truthy_string (apiKey E)) || negb (truthy_string (accessToken E))
  then throw credentials_required
  else ret tt.

(** [data.items && data.items[0]] *)
Definition first_item {T : Set} (data : Payload T) : option T :=
  match items data with
  | Some (first :: _) => Some first
  | _ => None
  end.

(** A property whose value may be [undefined]: [JSON.stringify] leaves it out. *)
Definition property {A : Type} (key : string) (toJS : A -> JSValue)
  (value : option A) : list (string * JSValue) :=
  match value with
  | Some a => [(key, toJS a)]
  | None => []
  end.

(** [created?.field] *)
Definition optional_chain {A B : Type} (object : option A)
  (field : A -> option B) : option B :=
  match object with
  | Some o => field o
  | None => None
  end.

Definition similar_exist : Thrown :=
  McpError InvalidRequest
    "Refusing to post: similar questions already exist for the provided errorSignature".

Definition handlePostQuestion (E : Environment) (fuel : nat)
  (input : PostQuestionInput) : M ToolResult :=
  similar <- searchStackOverflow E fuel (PostQuestion.errorSignature input)
    (Some (PostQuestion.tags input))
    {| Options.minScore := Some 0; Options.limit := Some 3;
       Options.includeComments := Some false |} ;;
  if (0 <? length similar)%nat then throw similar_exist
  else
    ensureWriteAccess E ;;;
    let params :=
      [("site", "stackoverflow"); ("title", PostQuestion.title input);
       ("body", PostQuestion.body input);
       ("tags", join ";" (PostQuestion.tags input));
       ("key", show_string (apiKey E));
       ("access_token", show_string (accessToken E))] in
    response <- rate_limited_fetch E fuel (write_api E)
      {| method := POST; endpoint := QuestionsAdd; params := params |} ;;
    if negb (ok response)
    then throw_api_error "Failed to post question" response
    else
      data <- response_json response ;;
      let created := first_item data in
      ret {| content_text :=
               JSON_stringify
                 (JObj ([("message", JStr "Question posted successfully")]
                        ++ property "id" JNum
                             (optional_chain created created_question_id)
                        ++ property "link" JStr
                             (optional_chain created created_link)
                        ++ [("triedApproaches",
                             JArr (map JStr (PostQuestion.triedApproaches input)))])%list)
          |}.

Definition not_confirmed_resolved : Thrown :=
  McpError InvalidRequest "Refusing to post: confirmedResolved must be true".

Definition evidence_required : Thrown :=
  McpError InvalidParams "Refusing to post: evidence is required".

Definition question_not_found : Thrown :=
  McpError InvalidRequest "Question not found".

Definition already_answered : Thrown :=
  McpError InvalidRequest
    "Refusing to post: the question already has answers (or an accepted one)".

(** [!Array.isArray(input.evidence) || input.evidence.length === 0] *)
Definition no_evidence (evidence : option (list string)) : bool :=
  match evidence with
  | Some (_ :: _) => false
  | _ => true
  end.

(** [question.accepted_answer_id || question.answer_count > 0] *)
Definition has_answers (question : StackOverflowQuestion) : bool :=
  truthy_number (Question.accepted_answer_id question)
  || (0 <? Question.answer_count question)%Z.

Definition handlePostSolution (E : Environment) (fuel : nat)
  (input : PostSolutionInput) : M ToolResult :=
  if negb (truthy_boolean (PostSolution.confirmedResolved input))
  then throw not_confirmed_resolved
  else if no_evidence (PostSolution.evidence input)
  then throw evidence_required
  else
    question <- fetchQuestion E fuel (PostSolution.questionId input) ;;
    match question with
    | None => throw question_not_found
    | Some question =>
        if has_answers question then throw already_answered
        else
          ensureWriteAccess E ;;;
          let params :=
            [("site", "stackoverflow"); ("body", PostSolution.body input);
             ("key", show_string (apiKey E));
             ("access_token", show_string (accessToken E))] in
          response <- rate_limited_fetch E fuel (write_api E)
            {| method := POST;
               endpoint := AnswersAdd (PostSolution.questionId input);
               params := params |} ;;
          if negb (ok response)
          then throw_api_error "Failed to post answer" response
          else
            data <- response_json response ;;
            let created := first_item data in
            ret {| content_text :=
                     JSON_stringify
                       (JObj ([("message", JStr "Answer posted successfully")]
                              ++ property "id" JNum
                                   (optional_chain created created_answer_id)
                              ++ property "link" JStr
                                   (optional_chain created created_link)
                              ++ property "evidence"
                                   (fun l => JArr (map JStr l))
                                   (PostSolution.evidence input))%list)
                |}
    end.

Definition not_confirmed_fixed : Thrown :=
  McpError InvalidRequest "Refusing to upvote: confirmedFixed must be true".

Definition handleThumbsUp (E : Environment) (fuel : nat) (input : ThumbsUpInput)
  : M ToolResult :=
  if negb (truthy_boolean (ThumbsUp.confirmedFixed input))
  then throw not_confirmed_fixed
  else
    ensureWriteAccess E ;;;
    let params :=
      [("site", "stackoverflow"); ("key", show_string (apiKey E));
       ("access_token", show_string (accessToken E))] in
    response <- rate_limited_fetch E fuel (write_api E)
      {| method := POST; endpoint := PostUpvote (ThumbsUp.postId input);
         params := params |} ;;
    if negb (ok response)
    then throw_api_error "Failed to upvote" response
    else ret {| content_text := "Upvote submitted successfully" |}.

Definition already_accepted : Thrown :=
  McpError InvalidRequest
    "Refusing to comment: question already has an accepted answer".

Definition handleCommentSolution (E : Environment) (fuel : nat)
  (input : CommentSolutionInput) : M ToolResult :=
  question <- fetchQuestion E fuel (CommentSolution.questionId input) ;;
  match question with
  | None => throw question_not_found
  | Some question =>
      if truthy_number (Question.accepted_answer_id question)
      then throw already_accepted
      else
        ensureWriteAccess E ;;;
        let params :=
          [("site", "stackoverflow"); ("body", CommentSolution.body input);
           ("key", show_string (apiKey E));
           ("access_token", show_string (accessToken E))] in
        response <- rate_limited_fetch E fuel (write_api E)
          {| method := POST;
             endpoint := CommentsAdd (CommentSolution.questionId input);
             params := params |} ;;
        if negb (ok response)
        then throw_api_error "Failed to post comment" response
        else
          data <- response_json response ;;
          let created := first_item data in
          ret {| content_text :=
                   JSON_stringify
                     (JObj ([("message", JStr "Comment posted successfully")]
                            ++ property "id" JNum
                                 (optional_chain created created_comment_id))%list)
              |}
  end.

(** ** The response formatter *)

Definition comment_toJS (c : StackOverflowComment) : JSValue :=
  JObj [("comment_id", JNum (Comment.comment_id c));
        ("post_id", JNum (Comment.post_id c));
        ("score", JNum (Comment.score c));
        ("body", JStr (Comment.body c));
        ("creation_date", JNum (Comment.creation_date c))].

Definition answer_toJS (a : StackOverflowAnswer) : JSValue :=
  JObj (property "answer_id" JNum (Answer.answer_id a)
        ++ [("question_id", JNum (Answer.question_id a));
            ("score", JNum (Answer.score a));
            ("is_accepted", JBool (Answer.is_accepted a));
            ("body", JStr (Answer.body a));
            ("creation_date", JNum (Answer.creation_date a));
            ("link", JStr (Answer.link a))])%list.

Definition question_toJS (q : StackOverflowQuestion) : JSValue :=
  JObj ([("question_id", JNum (Question.question_id q));
         ("title", JStr (Question.title q));
         ("body", JStr (Question.body q));
         ("score", JNum (Question.score q));
         ("answer_count", JNum (Question.answer_count q));
         ("is_answered", JBool (Question.is_answered q))]
        ++ property "accepted_answer_id" JNum (Question.accepted_answer_id q)
        ++ [("creation_date", JNum (Question.creation_date q));
            ("tags", JArr (map JStr (Question.tags q)));
            ("link", JStr (Question.link q))])%list.

Definition answer_comments_toJS (object : AnswerComments) : JSValue :=
  JObj (map (fun entry => (Number_toString (fst entry),
                           JArr (map comment_toJS (snd entry)))) object).

Definition comments_toJS (c : SearchResultComments) : JSValue :=
  JObj [("question", JArr (map comment_toJS (Comments.question c)));
        ("answers", answer_comments_toJS (Comments.answers c))].

Definition result_toJS (r : SearchResult) : JSValue :=
  JObj ([("question", question_toJS (Result.question r));
         ("answers", JArr (map answer_toJS (Result.answers r)))]
        ++ property "comments" comments_toJS (Result.comments r))%list.

(** The value [JSON.stringify] walks when given the array [results]. *)
Definition results_toJS (results : list SearchResult) : JSValue :=
  JArr (map result_toJS results).

(** [- ${comment.body} *(Score: ${comment.score})*\n] for every comment. *)
Definition comment_lines (l : list StackOverflowComment) : string :=
  fold_left (fun markdown comment =>
               markdown ++ "- " ++ Comment.body comment ++ " *(Score: "
               ++ Number_toString (Comment.score comment) ++ ")*" ++ nl)
            l "".

(** [result.comments?.answers[answer.answer_id]] *)
Definition comments_of_answer (r : SearchResult) (a : StackOverflowAnswer)
  : option (list StackOverflowComment) :=
  match Result.comments r, Answer.answer_id a with
  | Some c, Some id => answers_get id (Comments.answers c)
  | _, _ => None
  end.

(** The string literal that marks an accepted answer, as [index.ts] has it:
    the seven bytes c3 a2 c5 93 e2 80 9c (the characters U+00E2, U+0153 and
    U+201C in UTF-8) and a space. *)
Definition accepted_mark : string :=
  String "195" (String "162" (String "197" (String "147"
    (String "226" (String "128" (String "156" " ")))))).

Definition answer_markdown (r : SearchResult) (a : StackOverflowAnswer) : string :=
  "### " ++ (if Answer.is_accepted a then accepted_mark else "") ++ "Answer (Score: "
  ++ Number_toString (Answer.score a) ++ ")" ++ nl ++ nl
  ++ Answer.body a ++ nl ++ nl
  ++ match comments_of_answer r a with
     | Some l => "#### Answer Comments" ++ nl ++ nl ++ comment_lines l ++ nl
     | None => ""
     end.

Definition result_markdown (r : SearchResult) : string :=
  let q := Result.question r in
  "# " ++ Question.title q ++ nl ++ nl
  ++ "**Score:** " ++ Number_toString (Question.score q)
  ++ " | **Answers:** " ++ Number_toString (Question.answer_count q) ++ nl ++ nl
  ++ "## Question" ++ nl ++ nl ++ Question.body q ++ nl ++ nl
  ++ match Result.comments r with
     | Some c => "### Question Comments" ++ nl ++ nl
                 ++ comment_lines (Comments.question c) ++ nl
     | None => ""
     end
  ++ "## Answers" ++ nl ++ nl
  ++ fold_left (fun markdown a => markdown ++ answer_markdown r a)
       (Result.answers r) ""
  ++ "---" ++ nl ++ nl ++ "[View on Stack Overflow](" ++ Question.link q ++ ")"
  ++ nl ++ nl.

(** [formatResponse(results, format = "json")] *)
Definition formatResponse (results : list SearchResult)
  (format : option ResponseFormat) : string :=
  match format with
  | None | Some Json => JSON_stringify (results_toJS results)
  | Some Markdown => join (nl ++ nl) (map result_markdown results)
  end.

(** ** The read handlers *)

(** [String.prototype.toLowerCase] on the ASCII letters. *)
Definition lower_char (c : ascii) : ascii :=
  let n := N_of_ascii c in
  if (65 <=? n)%N && (n <=? 90)%N then ascii_of_N (n + 32) else c.

Fixpoint toLowerCase (s : string) : string :=
  match s with
  | EmptyString => ""
  | String c rest => String (lower_char c) (toLowerCase rest)
  end.

(** [s.split("\n")[0]] *)
Fixpoint first_line (s : string) : string :=
  match s with
  | EmptyString => ""
  | String c rest => if (c =? newline)%char then "" else String c (first_line rest)
  end.

Definition handleSearchByError (E : Environment) (fuel : nat)
  (args : SearchByErrorInput) : M ToolResult :=
  let tags :=
    ((if truthy_string (SearchByError.language args)
      then [toLowerCase (show_string (SearchByError.language args))] else [])
     ++ (match SearchByError.technologies args with
         | Some l => l
         | None => []
         end))%list in
  results <- searchStackOverflow E fuel (SearchByError.errorMessage args)
    (if (0 <? length tags)%nat then Some tags else None)
    {| Options.minScore := SearchByError.minScore args;
       Options.limit := SearchByError.limit args;
       Options.includeComments := SearchByError.includeComments args |} ;;
  ret {| content_text :=
           formatResponse results (SearchByError.responseFormat args) |}.

Definition handleSearchByTags (E : Environment) (fuel : nat)
  (args : SearchByTagsInput) : M ToolResult :=
  let params := append_credentials E
    ([("site", "stackoverflow"); ("sort", "votes"); ("order", "desc");
      ("filter", "!nKzQUR30W7"); ("tagged", join ";" (SearchByTags.tags args))]
     ++ (if truthy_number (SearchByTags.limit args)
         then [("pagesize", show_number (SearchByTags.limit args))]
         else []))%list in
  try_catch
    (response <- rate_limited_fetch E fuel (questions_api E)
       {| method := GET; endpoint := QuestionsList; params := params |} ;;
     if negb (ok response)
     then throw_api_error "Stack Overflow API error" response
     else
       data <- response_json response ;;
       questions <- iterate_items data ;;
       results <- composeResults E fuel (SearchByTags.minScore args)
                    (SearchByTags.includeComments args) questions [] ;;
       ret {| content_text :=
                formatResponse results (SearchByTags.responseFormat args) |})
    (rethrow_or_wrap "Failed to search Stack Overflow").

Definition handleAnalyzeStackTrace (E : Environment) (fuel : nat)
  (args : StackTraceInput) : M ToolResult :=
  let errorMessage := first_line (StackTrace.stackTrace args) in
  results <- searchStackOverflow E fuel errorMessage
    (Some [toLowerCase (StackTrace.language args)])
    {| Options.minScore := Some 0;
       Options.limit := StackTrace.limit args;
       Options.includeComments := StackTrace.includeComments args |} ;;
  ret {| content_text :=
           formatResponse results (StackTrace.responseFormat args) |}.

(** ** The tool dispatcher ([CallToolRequestSchema] handler) *)

(** A property that passes [if (!input.property) throw]: present and truthy. *)
Definition required_string (v : option string) : option string :=
  if truthy_string v then v else None.

Definition required_number (v : option Z) : option Z :=
  if truthy_number v then v else None.

Definition invalid_params {A : Type} (message : string) : M A :=
  throw (McpError InvalidParams message).

Definition callTool (E : Environment) (fuel : nat) (name : string)
  (arguments : option Arguments) : M ToolResult :=
  match arguments with
  | None => invalid_params "Arguments are required"
  | Some args =>
      if String.eqb name "search_by_error" then
        match required_string (arg_errorMessage args) with
        | Some errorMessage =>
            handleSearchByError E fuel
              {| SearchByError.errorMessage := errorMessage;
                 SearchByError.language := arg_language args;
                 SearchByError.technologies := arg_technologies args;
                 SearchByError.minScore := arg_minScore args;
                 SearchByError.includeComments := arg_includeComments args;
                 SearchByError.responseFormat := arg_responseFormat args;
                 SearchByError.limit := arg_limit args |}
        | None => invalid_params "errorMessage is required"
        end
      else if String.eqb name "search_by_tags" then
        match arg_tags args with
        | Some tags =>
            handleSearchByTags E fuel
              {| SearchByTags.tags := tags;
                 SearchByTags.minScore := arg_minScore args;
                 SearchByTags.includeComments := arg_includeComments args;
                 SearchByTags.responseFormat := arg_responseFormat args;
                 SearchByTags.limit := arg_limit args |}
        | None => invalid_params "tags are required"
        end
      else if String.eqb name "analyze_stack_trace" then
        match required_string (arg_stackTrace args),
              required_string (arg_language args) with
        | Some stackTrace, Some language =>
            handleAnalyzeStackTrace E fuel
              {| StackTrace.stackTrace := stackTrace;
                 StackTrace.language := language;
                 StackTrace.includeComments := arg_includeComments args;
                 StackTrace.responseFormat := arg_responseFormat args;
                 StackTrace.limit := arg_limit args |}
        | _, _ => invalid_params "stackTrace and language are required"
        end
      else if String.eqb name "post_question" then
        match required_string (arg_title args),
              required_string (arg_body args),
              required_string (arg_errorSignature args),
              arg_tags args,
              arg_triedApproaches args with
        | Some title, Some body, Some errorSignature, Some tags,
          Some triedApproaches =>
            if (length triedApproaches <? 3)%nat
            then invalid_params "At least 3 triedApproaches are required"
            else
              handlePostQuestion E fuel
                {| PostQuestion.title := title;
                   PostQuestion.body := body;
                   PostQuestion.tags := tags;
                   PostQuestion.errorSignature := errorSignature;
                   PostQuestion.triedApproaches := triedApproaches |}
        | _, _, _, _, _ =>
            invalid_params
              "title, body, tags, errorSignature, triedApproaches are required"
        end
      else if String.eqb name "post_solution" then
        match required_number (arg_questionId args),
              required_string (arg_body args) with
        | Some questionId, Some body =>
            handlePostSolution E fuel
              {| PostSolution.questionId := questionId;
                 PostSolution.body := body;
                 PostSolution.confirmedResolved := arg_confirmedResolved args;
                 PostSolution.evidence := arg_evidence args |}
        | _, _ => invalid_params "questionId and body are required"
        end
      else if String.eqb name "thumbs_up" then
        match required_number (arg_postId args) with
        | Some postId =>
            handleThumbsUp E fuel
              {| ThumbsUp.postId := postId;
                 ThumbsUp.confirmedFixed := arg_confirmedFixed args |}
        | None => invalid_params "postId is required"
        end
      else if String.eqb name "comment_solution" then
        match required_number (arg_questionId args),
              required_string (arg_body args) with
        | Some questionId, Some body =>
            handleCommentSolution E fuel
              {| CommentSolution.questionId := questionId;
                 CommentSolution.body := body |}
        | _, _ => invalid_params "questionId and body are required"
        end
      else throw (McpError MethodNotFound ("Unknown tool: " ++ name))
  end.

(** ** Predicates used by the statements *)

(** Every recorded instant lies in the past: true at start-up and kept by
    every operation, since the clock never runs backwards. *)
Definition timestamps_in_past (w : World) : Prop :=
  Forall (fun t => (t <= now w)%Z) (requestTimestamps w).

(** Recursion depth that [withRateLimit] cannot exceed from a state with
    [timestamps_in_past]: at most 30 waits of two seconds empty the window,
    before each of at most [default_retries + 1] attempts. *)
Definition enough_fuel : nat := 124.

(** The requests issued between two states. *)
Definition issued (w w' : World) (requests : list Request) : Prop :=
  calls w' = (calls w ++ requests)%list.

(** From [w] the run reached [w'] issuing only requests that satisfy [allowed],
    and [w'] still has its timestamps in the past. *)
Definition reached_issuing (allowed : Request -> bool) (w w' : World) : Prop :=
  timestamps_in_past w'
  /\ exists requests, issued w w' requests /\ forallb allowed requests = true.

(** The computation fails, having issued only [allowed] requests. *)
Definition fails_issuing {A : Type} (allowed : Request -> bool) (w : World)
  (outcome : Outcome A) : Prop :=
  match outcome with
  | Throw _ w' => reached_issuing allowed w w'
  | _ => False
  end.

Definition no_request (request : Request) : bool := false.

(** The state after the timer of [sleep] has fired. *)
Definition slept (E : Environment) (ms : Z) (w : World) : World :=
  {| now := now w + ms + Z.of_N (elapse E (ticks w));
     ticks := S (ticks w);
     requestTimestamps := requestTimestamps w;
     calls := calls w |}.

(** The state after [checkRateLimit] has run. *)
Definition checked (w : World) : World :=
  {| now := now w;
     ticks := ticks w;
     requestTimestamps := snd (checkRateLimit_at (now w) (requestTimestamps w));
     calls := calls w |}.

(** The state after an operation logged under [request] has settled. *)
Definition invoked (E : Environment) (request : Request) (w : World) : World :=
  {| now := now w + Z.of_N (elapse E (ticks w));
     ticks := S (ticks w);
     requestTimestamps := requestTimestamps w;
     calls := (calls w ++ [request])%list |}.

(** The [try]/[catch] of [withRateLimit], entered once the limiter permits. *)
Definition attempt {T : Type} (E : Environment) (fuel : nat) (fn : M T)
  (retries : Z) : M T :=
  try_catch fn (fun error =>
    if (0 <? retries)%Z && is_rate_limited error
    then sleep E RETRY_AFTER_MS ;;; withRateLimit E fuel fn (retries - 1)
    else throw error).

(** After [k] further waits every recorded instant has left the window. *)
Definition aged (k : nat) (w : World) : Prop :=
  Forall (fun t => (t + RATE_LIMIT_WINDOW_MS <= now w + RETRY_AFTER_MS * Z.of_nat k)%Z)
    (requestTimestamps w).

(** From a state with its timestamps in the past, [m] ends (it does not run
    out of fuel), by returning or by throwing, having issued only [allowed]
    requests. *)
Definition total {A : Type} (allowed : Request -> bool) (m : M A) : Prop :=
  forall w, timestamps_in_past w ->
    match m w with
    | Return _ w' | Throw _ w' => reached_issuing allowed w w'
    | OutOfFuel => False
    end.

(** From such a state [m] ends by throwing, having issued only [allowed]
    requests. *)
Definition failing {A : Type} (allowed : Request -> bool) (m : M A) : Prop :=
  forall w, timestamps_in_past w -> fails_issuing allowed w (m w).

(** The payload of a resolved, [ok] response whose body is JSON. *)
Definition payload_of {T : Set} (r : Thrown + Response T) : option (Payload T) :=
  match r with
  | inr response =>
      if ok response
      then match json response with inr data => Some data | inl _ => None end
      else None
  | inl _ => None
  end.

(** [data.items || []] *)
Definition items_or_empty {T : Set} (data : Payload T) : list T :=
  match items data with Some l => l | None => [] end.

Definition count_requests (p : Request -> bool) (l : list Request) : nat :=
  length (filter p l).

(** The entries recorded at or after [t0]: none of them is discarded by a
    check made before [t0 + RATE_LIMIT_WINDOW_MS]. *)
Definition recent (t0 : Z) (ts : list Z) : nat :=
  length (filter (fun t => (t0 <=? t)%Z) ts).

(** The requests a search may issue: the search itself, the answers of a
    question and, when comments are asked for, the comments of a post; all of
    them reads. *)
Definition search_traffic (withComments : bool) (request : Request) : bool :=
  is_read request
  && (is_search request || is_answers_fetch request
      || (withComments && is_comments_fetch request)).

Definition question_lookup (request : Request) : bool :=
  is_read request
  && match endpoint request with QuestionById _ => true | _ => false end.

(** [!this.apiKey || !this.accessToken]: a credential is missing when its
    variable is unset or empty. *)
Definition credentials_missing (E : Environment) : Prop :=
  truthy_string (apiKey E) = false \/ truthy_string (accessToken E) = false.

(** The computation ended, by returning or by throwing; [request] was the
    first request it issued and every later one is [allowed]. *)
Definition began_with {A : Type} (request : Request) (allowed : Request -> bool)
  (w : World) (outcome : Outcome A) : Prop :=
  match outcome with
  | Return _ w' | Throw _ w' =>
      timestamps_in_past w'
      /\ exists others,
           issued w w' (request :: others) /\ forallb allowed others = true
  | OutOfFuel => False
  end.

(** The options of the duplicate search of [handlePostQuestion]. *)
Definition duplicate_search_options : SearchOptions :=
  {| Options.minScore := Some 0%Z; Options.limit := Some 3%Z;
     Options.includeComments := Some false |}.

(** The remote resolves every request to this endpoint with an [ok] response
    carrying a JSON payload. *)
Definition healthy {T : Set} (api : nat -> Request -> Thrown + Response T) : Prop :=
  forall k request, payload_of (api k request) <> None.

(** The ids of the answers that carry one, in order. *)
Definition answer_ids (answers : list StackOverflowAnswer) : list Z :=
  flat_map (fun a => match Answer.answer_id a with Some id => [id] | None => [] end)
    answers.

(** The requests the aggregator sends for one composed result. *)
Definition result_requests (E : Environment) (withComments : bool) (r : SearchResult)
  : list Request :=
  answers_request E (Question.question_id (Result.question r))
  :: (if withComments
      then comments_request E (Question.question_id (Result.question r))
           :: map (comments_request E) (answer_ids (Result.answers r))
      else []).

(** The comments bundle of a result holds an entry for the id of each of its
    answers and for nothing else; without comments there is no bundle. *)
Definition bundle_matches (withComments : bool) (r : SearchResult) : Prop :=
  match Result.comments r with
  | Some c =>
      withComments = true
      /\ (forall id, In id (map fst (Comments.answers c))
                     <-> In id (answer_ids (Result.answers r)))
      /\ (NoDup (answer_ids (Result.answers r)) ->
          length (Comments.answers c) = length (answer_ids (Result.answers r)))
  | None => withComments = false
  end.

(** The answers of a result are what some response of the answers endpoint
    carried. *)
Definition answers_from_remote (E : Environment) (r : SearchResult) : Prop :=
  exists k request data,
    payload_of (answers_api E k request) = Some data
    /\ Result.answers r = items_or_empty data.

(** Every answer the remote returns has an id, and the ids within one
    response are pairwise distinct. *)
Definition answers_identified (E : Environment) : Prop :=
  forall k request data,
    payload_of (answers_api E k request) = Some data ->
    Forall (fun a => Answer.answer_id a <> None) (items_or_empty data)
    /\ NoDup (answer_ids (items_or_empty data)).

Definition total_answers (results : list SearchResult) : nat :=
  list_sum (map (fun r => length (Result.answers r)) results).

(** ** Sample data for the examples *)

Definition sample_question (id score answer_count : Z) (accepted : option Z)
  : StackOverflowQuestion :=
  {| Question.question_id := id;
     Question.title := "How to test?";
     Question.body := "<p>It fails.</p>";
     Question.score := score;
     Question.answer_count := answer_count;
     Question.is_answered := false;
     Question.accepted_answer_id := accepted;
     Question.creation_date := 1700000000;
     Question.tags := ["jest"; "typescript"];
     Question.link := "https://stackoverflow.com/q/1" |}.

Definition sample_answer (id questionId : Z) : StackOverflowAnswer :=
  {| Answer.answer_id := Some id;
     Answer.question_id := questionId;
     Answer.score := 5;
     Answer.is_accepted := true;
     Answer.body := "<p>Mock it.</p>";
     Answer.creation_date := 1700000100;
     Answer.link := "https://stackoverflow.com/a/11" |}.

Definition sample_comment (id postId : Z) : StackOverflowComment :=
  {| Comment.comment_id := id;
     Comment.post_id := postId;
     Comment.score := 1;
     Comment.body := "Thanks";
     Comment.creation_date := 1700000200 |}.

Definition no_api_error : ApiErrorResponse :=
  {| error_id := None; error_name := None; error_message := None |}.

(** A resolved [ok] response whose payload carries [items]. *)
Definition resolved {T : Set} (items : option (list T)) : Thrown + Response T :=
  inr {| ok := true; status := 200;
         json := inr {| items := items; api_error := no_api_error |} |}.

(** A remote where question 1 has the answers 11 and 10, any other question
    has a payload without [items], every post has one comment, every search
    and question fetch returns [found], and every write succeeds. *)
Definition sample_environment (key token : option string)
  (found : list StackOverflowQuestion) : Environment :=
  {| apiKey := key;
     accessToken := token;
     questions_api := fun _ _ => resolved (Some found);
     answers_api := fun _ request =>
       match endpoint request with
       | QuestionAnswers questionId =>
           if (questionId =? 1)%Z
           then resolved (Some [sample_answer 11 1; sample_answer 10 1])
           else resolved None
       | _ => resolved None
       end;
     comments_api := fun _ request =>
       match endpoint request with
       | PostComments postId => resolved (Some [sample_comment 7 postId])
       | _ => resolved None
       end;
     write_api := fun _ _ =>
       resolved (Some [{| created_question_id := Some 99%Z;
                          created_answer_id := Some 98%Z;
                          created_comment_id := Some 97%Z;
                          created_link := Some "https://stackoverflow.com/q/99" |}]);
     elapse := fun _ => 0%N |}.

Definition no_arguments : Arguments :=
  {| arg_errorMessage := None; arg_language := None; arg_technologies := None;
     arg_minScore := None; arg_includeComments := None;
     arg_responseFormat := None; arg_limit := None; arg_tags := None;
     arg_stackTrace := None; arg_title := None; arg_body := None;
     arg_errorSignature := None; arg_triedApproaches := None;
     arg_questionId := None; arg_confirmedResolved := None;
     arg_evidence := None; arg_postId := None; arg_confirmedFixed := None |}.

(** A [post_question] call whose three tried approaches are one string. *)
Definition repeated_approaches : Arguments :=
  {| arg_errorMessage := None; arg_language := None; arg_technologies := None;
     arg_minScore := None; arg_includeComments := None;
     arg_responseFormat := None; arg_limit := None;
     arg_tags := Some ["jest"];
     arg_stackTrace := None;
     arg_title := Some "Mock fails";
     arg_body := Some "The mock is never called.";
     arg_errorSignature := Some "TypeError: mock is not a function";
     arg_triedApproaches := Some ["restart"; "restart"; "restart"];
     arg_questionId := None; arg_confirmedResolved := None;
     arg_evidence := None; arg_postId := None; arg_confirmedFixed := None |}.

(** The same call with two tried approaches only. *)
Definition two_approaches : Arguments :=
  {| arg_errorMessage := None; arg_language := None; arg_technologies := None;
     arg_minScore := None; arg_includeComments := None;
     arg_responseFormat := None; arg_limit := None;
     arg_tags := Some ["jest"];
     arg_stackTrace := None;
     arg_title := Some "Mock fails";
     arg_body := Some "The mock is never called.";
     arg_errorSignature := Some "TypeError: mock is not a function";
     arg_triedApproaches := Some ["restart"; "reinstall"];
     arg_questionId := None; arg_confirmedResolved := None;
     arg_evidence := None; arg_postId := None; arg_confirmedFixed := None |}.

(** A write call whose ids are 0. *)
Definition zero_ids : Arguments :=
  {| arg_errorMessage := None; arg_language := None; arg_technologies := None;
     arg_minScore := None; arg_includeComments := None;
     arg_responseFormat := None; arg_limit := None; arg_tags := None;
     arg_stackTrace := None; arg_title := None;
     arg_body := Some "It works now.";
     arg_errorSignature := None; arg_triedApproaches := None;
     arg_questionId := Some 0%Z; arg_confirmedResolved := Some true;
     arg_evidence := Some ["test log"]; arg_postId := Some 0%Z;
     arg_confirmedFixed := Some true |}.

Definition sample_post_question : PostQuestionInput :=
  {| PostQuestion.title := "Mock fails";
     PostQuestion.body := "The mock is never called.";
     PostQuestion.tags := ["jest"];
     PostQuestion.errorSignature := "TypeError: mock is not a function";
     PostQuestion.triedApproaches := ["restart"; "reinstall"; "downgrade"] |}.

Definition sample_post_solution (confirmed : option bool)
  (evidence : option (list string)) : PostSolutionInput :=
  {| PostSolution.questionId := 1;
     PostSolution.body := "Use jest.fn().";
     PostSolution.confirmedResolved := confirmed;
     PostSolution.evidence := evidence |}.

(** An operation that is rate limited twice and then succeeds. *)
Definition twice_rate_limited (k : nat) : Thrown + string :=
  if (k <? 2)%nat then inl (JsError "HTTP 429 Too Many Requests" None)
  else inr "success".

Definition with_comments (minScore : option Z) : SearchOptions :=
  {| Options.minScore := minScore; Options.limit := Some 5%Z;
     Options.includeComments := Some true |}.

(** A remote whose every payload lacks [items]. *)
Definition itemless_environment : Environment :=
  {| apiKey := None;
     accessToken := None;
     questions_api := fun _ _ => resolved None;
     answers_api := fun _ _ => resolved None;
     comments_api := fun _ _ => resolved None;
     write_api := fun _ _ => resolved None;
     elapse := fun _ => 0%N |}.

Definition sample_request : Request :=
  {| method := GET; endpoint := QuestionsList; params := [("site", "stackoverflow")] |}.

(** The keys of a comments mapping stand in ascending order, each once: the
    enumeration order of an object whose keys are all array indices. *)
Definition keys_ascending (object : AnswerComments) : Prop :=
  StronglySorted Z.lt (map fst object).

(** A composed result with comments, as the aggregator builds it. *)
Definition sample_result : SearchResult :=
  {| Result.question := sample_question 1 3 2 None;
     Result.answers := [sample_answer 11 1; sample_answer 10 1];
     Result.comments :=
       Some {| Comments.question := [sample_comment 7 1];
               Comments.answers := [(10, [sample_comment 8 10]);
                                    (11, [sample_comment 9 11])] |} |}.

(** ** Notions for the round trip through JSON *)

Local Open Scope nat_scope.
Local Open Scope string_scope.

(** The elements of a non-empty array after the first, as [SerializeJSON]
    prints them. *)
Fixpoint serialize_more_elements (deeper : string) (l : list JSValue) : string :=
  match l with
  | [] => ""
  | element :: l' =>
      "," ++ nl ++ deeper ++ SerializeJSON deeper element
      ++ serialize_more_elements deeper l'
  end.

Fixpoint serialize_more_members (deeper : string) (l : list (string * JSValue))
  : string :=
  match l with
  | [] => ""
  | (k, v) :: l' =>
      "," ++ nl ++ deeper ++ QuoteJSONString k ++ ": "
      ++ SerializeJSON deeper v ++ serialize_more_members deeper l'
  end.

(** No object of the value has the same key twice. *)
Fixpoint keys_distinct (value : JSValue) : Prop :=
  match value with
  | JArr elements =>
      (fix all (l : list JSValue) : Prop :=
         match l with
         | [] => True
         | element :: l' => keys_distinct element /\ all l'
         end) elements
  | JObj members =>
      NoDup (map fst members)
      /\ (fix all (l : list (string * JSValue)) : Prop :=
            match l with
            | [] => True
            | (_, v) :: l' => keys_distinct v /\ all l'
            end) members
  | _ => True
  end.

(** A bound on the recursion depth [parse_value] needs for the value. *)
Fixpoint nodes (value : JSValue) : nat :=
  match value with
  | JArr elements =>
      S ((fix sum (l : list JSValue) : nat :=
            match l with
            | [] => 0
            | element :: l' => S (nodes element) + sum l'
            end) elements)
  | JObj members =>
      S ((fix sum (l : list (string * JSValue)) : nat :=
            match l with
            | [] => 0
            | (_, v) :: l' => S (nodes v) + sum l'
            end) members)
  | _ => 1
  end.

(** The text begins with white space only up to where [s] begins. *)
Definition blank (indent : string) : Prop :=
  forall s, skip_whitespace (indent ++ s) = skip_whitespace s.

(** The text does not go on with a digit. *)
Definition ends_number (rest : string) : Prop :=
  match rest with
  | EmptyString => True
  | String c _ => digit_of c = None
  end.

(** Every comments mapping is an object: no answer id is a key twice. *)
Definition mappings_are_objects (results : list SearchResult) : Prop :=
  Forall (fun r => match Result.comments r with
                   | Some c => NoDup (map fst (Comments.answers c))
                   | None => True
                   end) results.

(** The first character of a printed number: a digit or the minus sign. *)
Definition starts_number (c : ascii) : Prop :=
  (c = "-"%char \/ digit_of c <> None).

Definition starts_value (c : ascii) : bool :=
  (c =? "n")%char || (c =? "t")%char || (c =? "f")%char || (c =? dquote)%char
  || (c =? "[")%char || (c =? "{")%char || (c =? "-")%char
  || match digit_of c with Some _ => true | None => false end.

Definition elements_nodes (l : list JSValue) : nat :=
  list_sum (map (fun e => S (nodes e)) l).

Definition members_nodes (l : list (string * JSValue)) : nat :=
  list_sum (map (fun m => S (nodes (snd m))) l).

(** What the value printer is shown to satisfy, for one value. *)
Definition parses_back (value : JSValue) : Prop :=
  keys_distinct value ->
  forall indent rest fuel,
    blank indent -> ends_number rest -> (nodes value <= fuel)%nat ->
    parse_value fuel (SerializeJSON indent value ++ rest) = Some (value, rest).

Local Open Scope Z_scope.

(** ** Notions for the properties of whole tool calls *)

(** The tools the [ListToolsRequestSchema] handler announces. *)
Definition tool_names : list string :=
  ["search_by_error"; "search_by_tags"; "analyze_stack_trace"; "post_question";
   "post_solution"; "thumbs_up"; "comment_solution"].

(** The private field [requestTimestamps] holds at most
    [MAX_REQUESTS_PER_WINDOW] instants. *)
Definition record_bounded (w : World) : Prop :=
  (length (requestTimestamps w) <= MAX_REQUESTS_PER_WINDOW)%nat.

(** Whenever [m] ends, by returning or by throwing, it has kept [P]. *)
Definition preserves {A : Type} (P : World -> Prop) (m : M A) : Prop :=
  forall w, P w ->
    match m w with
    | Return _ w' | Throw _ w' => P w'
    | OutOfFuel => True
    end.

(** [params] holds the pair [name=value]. *)
Definition carries (name value : string) (params : URLSearchParams) : bool :=
  existsb (fun p => String.eqb (fst p) name && String.eqb (snd p) value) params.

(** A request the server may send with the credentials it has: any read, and
    a write only when both credentials are set and travel in its form body. *)
Definition authorized (E : Environment) (request : Request) : bool :=
  match method request with
  | GET => true
  | POST =>
      truthy_string (apiKey E) && truthy_string (accessToken E)
      && carries "key" (show_string (apiKey E)) (params request)
      && carries "access_token" (show_string (accessToken E)) (params request)
  end.

(** The requests a read tool may issue: the search or the tagged listing, the
    answers of a question and, when comments are asked for, the comments of a
    post. *)
Definition read_traffic (withComments : bool) (request : Request) : bool :=
  is_read request
  && (is_search request
      || match endpoint request with QuestionsList => true | _ => false end
      || is_answers_fetch request
      || (withComments && is_comments_fetch request)).

(** Both credentials are set and not empty. *)
Definition credentials_present (E : Environment) : Prop :=
  truthy_string (apiKey E) = true /\ truthy_string (accessToken E) = true.

(** The message of the error thrown for a response that is not [ok]. *)
Definition api_error_message {T : Set} (what : string) (data : Payload T) : string :=
  what ++ ": " ++ show_string (error_message (api_error data))
  ++ " (" ++ show_number (error_id (api_error data)) ++ ")".

(** The request [handleSearchByTags] sends first. *)
Definition tags_request (E : Environment) (tags : list string) (limit : option Z)
  : Request :=
  {| method := GET; endpoint := QuestionsList;
     params := append_credentials E
       ([("site", "stackoverflow"); ("sort", "votes"); ("order", "desc");
         ("filter", "!nKzQUR30W7"); ("tagged", join ";" tags)]
        ++ (if truthy_number limit then [("pagesize", show_number limit)] else []))%list |}.

(** The form body of a write: [site], the fields of the call, and the two
    credentials. *)
Definition write_request (E : Environment) (endpoint : Endpoint)
  (fields : URLSearchParams) : Request :=
  {| method := POST; endpoint := endpoint;
     params := ([("site", "stackoverflow")] ++ fields
                ++ [("key", show_string (apiKey E));
                    ("access_token", show_string (accessToken E))])%list |}.

(** The value a successful [post_question] prints. *)
Definition posted_question (created : option Created) (approaches : list string)
  : JSValue :=
  JObj ([("message", JStr "Question posted successfully")]
        ++ property "id" JNum (optional_chain created created_question_id)
        ++ property "link" JStr (optional_chain created created_link)
        ++ [("triedApproaches", JArr (map JStr approaches))])%list.

(** The value a successful [post_solution] prints. *)
Definition posted_answer (created : option Created) (evidence : option (list string))
  : JSValue :=
  JObj ([("message", JStr "Answer posted successfully")]
        ++ property "id" JNum (optional_chain created created_answer_id)
        ++ property "link" JStr (optional_chain created created_link)
        ++ property "evidence" (fun l => JArr (map JStr l)) evidence)%list.

(** The value a successful [comment_solution] prints. *)
Definition posted_comment (created : option Created) : JSValue :=
  JObj ([("message", JStr "Comment posted successfully")]
        ++ property "id" JNum (optional_chain created created_comment_id))%list.

(** The heading [formatResponse] gives an answer in markdown. *)
Definition answer_heading (a : StackOverflowAnswer) : string :=
  "### " ++ (if Answer.is_accepted a then accepted_mark else "") ++ "Answer (Score: "
  ++ Number_toString (Answer.score a) ++ ")".

(** ** Remotes for the examples *)

(** A remote that rejects every [fetch] as rate limited. *)
Definition throttled_environment : Environment :=
  {| apiKey := Some "key";
     accessToken := Some "token";
     questions_api := fun _ _ => inl (JsError "HTTP 429 Too Many Requests" None);
     answers_api := fun _ _ => inl (JsError "HTTP 429 Too Many Requests" None);
     comments_api := fun _ _ => inl (JsError "HTTP 429 Too Many Requests" None);
     write_api := fun _ _ => inl (JsError "HTTP 429 Too Many Requests" None);
     elapse := fun _ => 0%N |}.

Definition throttle_violation : ApiErrorResponse :=
  {| error_id := Some 502; error_name := Some "throttle_violation";
     error_message := Some "too many requests from this IP" |}.

(** A response with status 429 and the error payload of the API. *)
Definition refused {T : Set} : Response T :=
  {| ok := false; status := 429;
     json := inr {| items := None; api_error := throttle_violation |} |}.

(** A remote that resolves every [fetch] with such a response. *)
Definition refusing_environment : Environment :=
  {| apiKey := Some "key";
     accessToken := Some "token";
     questions_api := fun _ _ => inr refused;
     answers_api := fun _ _ => inr refused;
     comments_api := fun _ _ => inr refused;
     write_api := fun _ _ => inr refused;
     elapse := fun _ => 0%N |}.

(** No network: every [fetch] rejects with the [TypeError] of the runtime. *)
Definition fetch_failed : Thrown := JsError "fetch failed" None.

Definition offline_environment : Environment :=
  {| apiKey := Some "key";
     accessToken := Some "token";
     questions_api := fun _ _ => inl fetch_failed;
     answers_api := fun _ _ => inl fetch_failed;
     comments_api := fun _ _ => inl fetch_failed;
     write_api := fun _ _ => inl fetch_failed;
     elapse := fun _ => 0%N |}.

(** A state whose record is full: 30 calls were permitted at instant [t]. *)
Definition busy_world (t : Z) : World :=
  {| now := t; ticks := 0; requestTimestamps := repeat t 30%nat; calls := [] |}.

Definition sample_created : Created :=
  {| created_question_id := Some 99%Z;
     created_answer_id := Some 98%Z;
     created_comment_id := Some 97%Z;
     created_link := Some "https://stackoverflow.com/q/99" |}.

(** The first occurrence of every element, in order. *)
Fixpoint first_occurrences (l : list Z) : list Z :=
  match l with
  | [] => []
  | x :: l' => x :: filter (fun y => negb (y =? x)) (first_occurrences l')
  end.

(** [keys] is the enumeration order of an object whose properties were
    created by assigning to the keys [ids] one after the other: the array
    indices among them in ascending order, each once, and then the other ids
    in the order of their first assignment. *)
Definition enumerates (ids keys : list Z) : Prop :=
  exists indices,
    keys = (indices
            ++ first_occurrences (filter (fun id => negb (is_array_index id)) ids))%list
    /\ StronglySorted Z.lt indices
    /\ (forall id, In id indices <-> In id ids /\ is_array_index id = true).

(** What the aggregator guarantees of one result: its comments bundle matches
    its answers, and the keys of the bundle are the ids of the answers in the
    enumeration order of the object. *)
Definition result_well_formed (withComments : bool) (r : SearchResult) : Prop :=
  bundle_matches withComments r
  /\ match Result.comments r with
     | Some c =>
         enumerates (answer_ids (Result.answers r)) (map fst (Comments.answers c))
     | None => True
     end.

(** The requests [search_by_tags] may issue: the tagged listing, the answers
    of a question and, when comments are asked for, the comments of a post. *)
Definition listing_traffic (withComments : bool) (request : Request) : bool :=
  is_read request
  && (match endpoint request with QuestionsList => true | _ => false end
      || is_answers_fetch request
      || (withComments && is_comments_fetch request)).

(** ** Calls for the examples *)

Definition sample_stack_trace : string :=
  "TypeError: mock is not a function" ++ nl ++ "    at Object.<anonymous> (a.test.ts:3:5)".

(** The arguments of a read tool call that asks for comments and markdown. *)
Definition read_arguments : Arguments :=
  {| arg_errorMessage := Some "TypeError: mock is not a function";
     arg_language := Some "TypeScript";
     arg_technologies := Some ["jest"];
     arg_minScore := Some 2%Z;
     arg_includeComments := Some true;
     arg_responseFormat := Some Markdown;
     arg_limit := Some 5%Z;
     arg_tags := Some [];
     arg_stackTrace := Some sample_stack_trace;
     arg_title := None; arg_body := None;
     arg_errorSignature := None; arg_triedApproaches := None;
     arg_questionId := None; arg_confirmedResolved := None;
     arg_evidence := None; arg_postId := None; arg_confirmedFixed := None |}.

Definition sample_error_search : SearchByErrorInput :=
  {| SearchByError.errorMessage := "TypeError: mock is not a function";
     SearchByError.language := Some "TypeScript";
     SearchByError.technologies := Some ["jest"];
     SearchByError.minScore := None;
     SearchByError.includeComments := None;
     SearchByError.responseFormat := None;
     SearchByError.limit := None |}.

Definition sample_trace_input : StackTraceInput :=
  {| StackTrace.stackTrace := sample_stack_trace;
     StackTrace.language := "TypeScript";
     StackTrace.includeComments := None;
     StackTrace.responseFormat := None;
     StackTrace.limit := Some 5%Z |}.

Definition sample_thumbs_up : ThumbsUpInput :=
  {| ThumbsUp.postId := 11; ThumbsUp.confirmedFixed := Some true |}.

Definition sample_comment_solution : CommentSolutionInput :=
  {| CommentSolution.questionId := 1;
     CommentSolution.body := "Mocking the module fixed it for me." |}.

Definition plain_options : SearchOptions :=
  {| Options.minScore := None; Options.limit := None;
     Options.includeComments := None |}.

(** The response of the sample remote to a write. *)
Definition created_response : Response Created :=
  {| ok := true; status := 200;
     json := inr {| items := Some [sample_created]; api_error := no_api_error |} |}.

(** The state after one request sent at start-up. *)
Definition after_request (request : Request) : World :=
  {| now := 0; ticks := 1; requestTimestamps := [0%Z]; calls := [request] |}.

(** * Properties *)

Unset Implicit Arguments.

Local Open Scope Z_scope.

(** ** The rate limiter *)

Section RateLimiter.

Lemma in_window_spec (now t : Z) :
  in_window now t = true <-> now - t < RATE_LIMIT_WINDOW_MS.
Proof. unfold in_window. apply Z.ltb_lt. Qed.

Lemma checkRateLimit_at_denied (now : Z) (ts : list Z) :
  (MAX_REQUESTS_PER_WINDOW <= length (filter (in_window now) ts))%nat ->
  checkRateLimit_at now ts = (false, filter (in_window now) ts).
Proof.
  intros H. unfold checkRateLimit_at.
  apply Nat.leb_le in H. now rewrite H.
Qed.

Lemma checkRateLimit_at_permitted (now : Z) (ts : list Z) :
  (length (filter (in_window now) ts) < MAX_REQUESTS_PER_WINDOW)%nat ->
  checkRateLimit_at now ts = (true, (filter (in_window now) ts ++ [now])%list).
Proof.
  intros H. unfold checkRateLimit_at.
  apply Nat.leb_gt in H. now rewrite H.
Qed.

(** Nothing recorded inside the window is discarded while the clock stays in it. *)
Lemma filter_keeps_all (now : Z) (ts : list Z) :
  Forall (fun t => now - t < RATE_LIMIT_WINDOW_MS) ts ->
  filter (in_window now) ts = ts.
Proof.
  induction 1 as [|t ts Ht _ IH]; simpl; [reflexivity|].
  apply in_window_spec in Ht. now rewrite Ht, IH.
Qed.

Lemma recent_le_length (t0 : Z) (ts : list Z) : (recent t0 ts <= length ts)%nat.
Proof. apply filter_length_le. Qed.

Lemma recent_filter (t0 now : Z) (ts : list Z) :
  now < t0 + RATE_LIMIT_WINDOW_MS ->
  recent t0 (filter (in_window now) ts) = recent t0 ts.
Proof.
  intros Hnow. unfold recent. induction ts as [|t ts IH]; simpl; [reflexivity|].
  destruct (in_window now t) eqn:Hin; simpl.
  - destruct (t0 <=? t); simpl; now rewrite IH.
  - destruct (t0 <=? t) eqn:Hle; [|exact IH].
    apply Z.leb_le in Hle. unfold in_window in Hin. apply Z.ltb_ge in Hin. lia.
Qed.

Lemma recent_snoc (t0 now : Z) (ts : list Z) :
  t0 <= now -> recent t0 (ts ++ [now]) = S (recent t0 ts).
Proof.
  intros Hle. unfold recent. rewrite filter_app, length_app. simpl.
  apply Z.leb_le in Hle. rewrite Hle. simpl. lia.
Qed.

Lemma permitted_cons (b : bool) (answers : list bool) :
  permitted (b :: answers) = ((if b then 1 else 0) + permitted answers)%nat.
Proof. unfold permitted. now destruct b. Qed.

Lemma permitted_in_window (t0 : Z) (instants : list Z) :
  within_window t0 instants ->
  forall ts,
    (permitted (fst (checkRateLimit_run instants ts)) + recent t0 ts
     <= Nat.max MAX_REQUESTS_PER_WINDOW (recent t0 ts))%nat.
Proof.
  induction 1 as [|now later Hnow _ IH]; intros ts; cbn [checkRateLimit_run].
  - unfold permitted. cbn [fst filter length]. lia.
  - pose proof (recent_filter t0 now ts (proj2 Hnow)) as Hrec.
    pose proof (recent_le_length t0 (filter (in_window now) ts)) as Hlen.
    destruct (Nat.le_gt_cases MAX_REQUESTS_PER_WINDOW
                (length (filter (in_window now) ts))) as [Hfull|Hroom].
    + rewrite (checkRateLimit_at_denied _ _ Hfull).
      specialize (IH (filter (in_window now) ts)).
      destruct (checkRateLimit_run later _) as [answers ts2].
      cbn [fst] in *. rewrite permitted_cons. lia.
    + rewrite (checkRateLimit_at_permitted _ _ Hroom).
      specialize (IH (filter (in_window now) ts ++ [now])%list).
      rewrite (recent_snoc _ _ _ (proj1 Hnow)) in IH.
      destruct (checkRateLimit_run later _) as [answers ts2].
      cbn [fst] in *. rewrite permitted_cons. lia.
Qed.

(** From a state whose entries all lie in the window, a run inside the window
    grants exactly the free places, first come first served. *)
Lemma run_in_window (t0 : Z) (instants : list Z) :
  within_window t0 instants ->
  forall ts,
    within_window t0 ts ->
    checkRateLimit_run instants ts
    = (map (fun i => (length ts + i <? MAX_REQUESTS_PER_WINDOW)%nat)
         (seq 0 (length instants)),
       (ts ++ firstn (MAX_REQUESTS_PER_WINDOW - length ts) instants)%list).
Proof.
  induction 1 as [|now later Hnow Hlater IH]; intros ts Hts;
    cbn [checkRateLimit_run length seq map].
  - now rewrite firstn_nil, List.app_nil_r.
  - assert (Hkeep : filter (in_window now) ts = ts).
    { apply filter_keeps_all. eapply Forall_impl; [|exact Hts].
      cbv beta. intros t Ht. lia. }
    unfold checkRateLimit_at. rewrite Hkeep, Nat.add_0_r.
    rewrite <- seq_shift, map_map.
    destruct (MAX_REQUESTS_PER_WINDOW <=? length ts)%nat eqn:Hfull.
    + apply Nat.leb_le in Hfull. rewrite (IH ts Hts).
      replace (MAX_REQUESTS_PER_WINDOW - length ts)%nat with 0%nat by lia.
      replace (length ts <? MAX_REQUESTS_PER_WINDOW)%nat with false
        by (symmetry; apply Nat.ltb_ge; exact Hfull).
      f_equal. f_equal. apply map_ext. intros i.
      transitivity false; [|symmetry]; apply Nat.ltb_ge; lia.
    + apply Nat.leb_gt in Hfull.
      assert (Hts' : within_window t0 (ts ++ [now])).
      { apply Forall_app. split; [exact Hts|].
        constructor; [exact Hnow|constructor]. }
      rewrite (IH _ Hts'). rewrite length_app. cbn [length].
      replace (length ts <? MAX_REQUESTS_PER_WINDOW)%nat with true
        by (symmetry; apply Nat.ltb_lt; exact Hfull).
      replace (MAX_REQUESTS_PER_WINDOW - length ts)%nat
        with (S (MAX_REQUESTS_PER_WINDOW - (length ts + 1))) by lia.
      cbn [firstn]. rewrite <- List.app_assoc. cbn [app].
      f_equal. f_equal. apply map_ext. intros i. f_equal. lia.
Qed.

Lemma aged_entry_frees_a_place (now t : Z) (ts : list Z) :
  In t ts -> RATE_LIMIT_WINDOW_MS <= now - t ->
  (length (filter (in_window now) ts) < length ts)%nat.
Proof.
  intros Hin Hold. induction ts as [|x ts IH]; [destruct Hin|].
  simpl. destruct Hin as [->|Hin].
  - assert (Hout : in_window now t = false)
      by (unfold in_window; apply Z.ltb_ge; exact Hold).
    rewrite Hout. pose proof (filter_length_le (in_window now) ts). lia.
  - specialize (IH Hin). destruct (in_window now x); simpl; lia.
Qed.

End RateLimiter.

(** C2.  A call of [checkRateLimit] at instant [now] keeps the recorded
    instants younger than 60 seconds, refuses when 30 or more of them remain,
    and otherwise records [now] and permits.  From any state, calls whose
    instants lie in one 60-second window are permitted at most 30 times; from
    the empty record exactly the first 30 of them are permitted and every later
    one is refused, and a call made once the first recorded instant is 60
    seconds old is permitted again. *)
Theorem checkRateLimit_rolling_window :
  (forall now ts,
      let kept := filter (fun t => now - t <? 60000) ts in
      checkRateLimit_at now ts
      = if (30 <=? length kept)%nat then (false, kept)
        else (true, (kept ++ [now])%list))
  /\ (forall t0 instants ts,
         within_window t0 instants ->
         (permitted (fst (checkRateLimit_run instants ts)) <= 30)%nat)
  /\ (forall t0 instants,
         within_window t0 instants ->
         fst (checkRateLimit_run instants [])
         = map (fun i => (i <? 30)%nat) (seq 0 (length instants)))
  /\ (forall t0 first later instant,
         within_window t0 (first :: later) ->
         60000 <= instant - first ->
         fst (checkRateLimit_at instant
                (snd (checkRateLimit_run (first :: later) []))) = true).
Proof.
  split; [reflexivity|]. split; [|split].
  - intros t0 instants ts Hwin.
    pose proof (permitted_in_window t0 instants Hwin ts) as H.
    pose proof (recent_le_length t0 ts).
    unfold MAX_REQUESTS_PER_WINDOW in H. lia.
  - intros t0 instants Hwin.
    rewrite (run_in_window t0 instants Hwin [] (Forall_nil _)). reflexivity.
  - intros t0 first later instant Hwin Hold.
    rewrite (run_in_window t0 _ Hwin [] (Forall_nil _)).
    cbn [snd app length]. rewrite Nat.sub_0_r.
    set (ts := firstn MAX_REQUESTS_PER_WINDOW (first :: later)).
    assert (Hin : In first ts) by (left; reflexivity).
    assert (Hlen : (length ts <= MAX_REQUESTS_PER_WINDOW)%nat)
      by apply firstn_le_length.
    pose proof (aged_entry_frees_a_place instant first ts Hin Hold) as Hfree.
    rewrite checkRateLimit_at_permitted by lia. reflexivity.
Qed.

(** C2 at a burst of 31 calls made at instant 1500, inside the window that
    starts at 1000: 30 are permitted, the 31st is refused, and a call at 61500
    is permitted again. *)
Lemma checkRateLimit_rolling_window_witness :
  within_window 1000 (repeat 1500 31%nat)
  /\ (permitted (fst (checkRateLimit_run (repeat 1500%Z 31%nat) [900%Z; 1200%Z])) <= 30)%nat
  /\ fst (checkRateLimit_run (repeat 1500 31%nat) [])
     = (repeat true 30%nat ++ [false])%list
  /\ fst (checkRateLimit_at 61500 (snd (checkRateLimit_run (repeat 1500 31%nat) [])))
     = true.
Proof.
  assert (Hwin : within_window 1000 (repeat 1500 31%nat)).
  { apply Forall_forall. intros t Ht. apply repeat_spec in Ht. subst t.
    unfold RATE_LIMIT_WINDOW_MS. lia. }
  destruct checkRateLimit_rolling_window as (_ & Hbound & Hfirst & Haged).
  split; [exact Hwin|]. split; [|split].
  - exact (Hbound 1000 (repeat 1500 31%nat) [900; 1200] Hwin).
  - exact (Hfirst 1000 (repeat 1500 31%nat) Hwin).
  - apply (Haged 1000 1500 (repeat 1500 30%nat) 61500 Hwin). lia.
Defined.

(** ** Elementary steps on the world *)

Section Steps.

Variable E : Environment.

Lemma checkRateLimit_run_step (w : World) :
  checkRateLimit w
  = Return (fst (checkRateLimit_at (now w) (requestTimestamps w))) (checked w).
Proof.
  unfold checkRateLimit, checked.
  now destruct (checkRateLimit_at (now w) (requestTimestamps w)).
Qed.

Lemma sleep_run_step (ms : Z) (w : World) : sleep E ms w = Return tt (slept E ms w).
Proof. reflexivity. Qed.

Lemma invoke_run_step {T : Type} (request : Request) (behaviour : nat -> Thrown + T)
  (w : World) :
  invoke E request behaviour w
  = match behaviour (length (calls w)) with
    | inl error => Throw error (invoked E request w)
    | inr value => Return value (invoked E request w)
    end.
Proof. reflexivity. Qed.

Lemma filter_Forall {A : Type} (P : A -> Prop) (f : A -> bool) (l : list A) :
  Forall P l -> Forall P (filter f l).
Proof.
  induction 1 as [|x l Hx _ IH]; simpl; [constructor|].
  destruct (f x); [constructor|]; assumption.
Qed.

Lemma checked_in_past (w : World) :
  timestamps_in_past w -> timestamps_in_past (checked w).
Proof.
  unfold timestamps_in_past, checked, checkRateLimit_at. cbn [now requestTimestamps].
  intros H.
  destruct (MAX_REQUESTS_PER_WINDOW <=? _)%nat; cbn [snd].
  - now apply filter_Forall.
  - apply Forall_app. split; [now apply filter_Forall|].
    constructor; [lia|constructor].
Qed.

Lemma slept_in_past (ms : Z) (w : World) :
  0 <= ms -> timestamps_in_past w -> timestamps_in_past (slept E ms w).
Proof.
  unfold timestamps_in_past, slept. cbn [now requestTimestamps].
  intros Hms H. eapply Forall_impl; [|exact H]. cbv beta. intros t Ht. lia.
Qed.

Lemma invoked_in_past (request : Request) (w : World) :
  timestamps_in_past w -> timestamps_in_past (invoked E request w).
Proof.
  unfold timestamps_in_past, invoked. cbn [now requestTimestamps].
  intros H. eapply Forall_impl; [|exact H]. cbv beta. intros t Ht. lia.
Qed.

Lemma in_past_aged (w : World) :
  timestamps_in_past w -> aged MAX_REQUESTS_PER_WINDOW w.
Proof.
  unfold timestamps_in_past, aged. intros H.
  eapply Forall_impl; [|exact H]. cbv beta. intros t Ht.
  unfold RATE_LIMIT_WINDOW_MS, RETRY_AFTER_MS, MAX_REQUESTS_PER_WINDOW. lia.
Qed.

(** One unfolding of [withRateLimit]: a refusal leads, after the wait, to the
    same call with the same budget; a permission leads to the attempt. *)
Lemma withRateLimit_unfold {T : Type} (fuel : nat) (fn : M T) (retries : Z)
  (w : World) :
  withRateLimit E (S fuel) fn retries w
  = if fst (checkRateLimit_at (now w) (requestTimestamps w))
    then attempt E fuel fn retries (checked w)
    else withRateLimit E fuel fn retries (slept E RETRY_AFTER_MS (checked w)).
Proof.
  cbn [withRateLimit]. unfold bind at 1. rewrite checkRateLimit_run_step.
  destruct (fst (checkRateLimit_at (now w) (requestTimestamps w))); reflexivity.
Qed.

(** A state all of whose instants have left the window is permitted at once. *)
Lemma aged_0_permitted (w : World) :
  aged 0 w -> fst (checkRateLimit_at (now w) (requestTimestamps w)) = true.
Proof.
  unfold aged. intros H.
  assert (Hnil : filter (in_window (now w)) (requestTimestamps w) = []).
  { induction H as [|t ts Ht _ IH]; [reflexivity|]. simpl.
    replace (in_window (now w) t) with false; [exact IH|].
    symmetry. unfold in_window. apply Z.ltb_ge.
    unfold RETRY_AFTER_MS in Ht. lia. }
  unfold checkRateLimit_at. rewrite Hnil. reflexivity.
Qed.

Lemma refused_aged (k : nat) (w : World) :
  fst (checkRateLimit_at (now w) (requestTimestamps w)) = false ->
  aged (S k) w -> aged k (slept E RETRY_AFTER_MS (checked w)).
Proof.
  unfold aged, slept, checked, checkRateLimit_at.
  cbn [now requestTimestamps ticks]. intros Hrefused H.
  destruct (MAX_REQUESTS_PER_WINDOW <=? _)%nat; [|discriminate Hrefused].
  cbn [snd]. apply filter_Forall.
  eapply Forall_impl; [|exact H]. cbv beta. intros t Ht.
  unfold RETRY_AFTER_MS in *. lia.
Qed.

(** The waiting loop ends: from a state that is [aged k], after at most [k]
    refusals the limiter permits and the attempt is entered. *)
Lemma waits_end {T : Type} (fn : M T) (retries : Z) (k : nat) :
  forall fuel w,
    aged k w -> (k < fuel)%nat ->
    exists j w1,
      (j <= k)%nat
      /\ withRateLimit E fuel fn retries w
         = attempt E (fuel - S j) fn retries w1
      /\ calls w1 = calls w
      /\ (timestamps_in_past w -> timestamps_in_past w1).
Proof.
  induction k as [|k IH]; intros fuel w Haged Hfuel;
    (destruct fuel as [|fuel]; [lia|]); rewrite withRateLimit_unfold.
  - rewrite (aged_0_permitted w Haged).
    exists 0%nat, (checked w).
    replace (S fuel - 1)%nat with fuel by lia.
    repeat split; [lia|apply checked_in_past].
  - destruct (fst (checkRateLimit_at (now w) (requestTimestamps w))) eqn:Hp.
    + exists 0%nat, (checked w).
      replace (S fuel - 1)%nat with fuel by lia.
      repeat split; [lia|apply checked_in_past].
    + destruct (IH fuel _ (refused_aged k w Hp Haged)) as (j & w1 & Hj & Heq & Hc & Hpast);
        [lia|].
      exists (S j), w1. repeat split; [lia|exact Heq|exact Hc|].
      intros Hw. apply Hpast. apply slept_in_past; [unfold RETRY_AFTER_MS; lia|].
      now apply checked_in_past.
Qed.

Lemma attempt_invoke {T : Type} (fuel : nat) (request : Request)
  (behaviour : nat -> Thrown + T) (retries : Z) (w : World) :
  attempt E fuel (invoke E request behaviour) retries w
  = match behaviour (length (calls w)) with
    | inr value => Return value (invoked E request w)
    | inl error =>
        if (0 <? retries) && is_rate_limited error
        then withRateLimit E fuel (invoke E request behaviour) (retries - 1)
               (slept E RETRY_AFTER_MS (invoked E request w))
        else Throw error (invoked E request w)
    end.
Proof.
  unfold attempt, try_catch. rewrite invoke_run_step.
  destruct (behaviour (length (calls w))) as [error|value]; [|reflexivity].
  destruct ((0 <? retries) && is_rate_limited error); reflexivity.
Qed.

(** One attempt from a state with its timestamps in the past: the limiter
    permits after at most 30 waits. *)
Lemma withRateLimit_attempt {T : Type} (fn : M T) (retries : Z) (fuel : nat)
  (w : World) :
  timestamps_in_past w -> (MAX_REQUESTS_PER_WINDOW < fuel)%nat ->
  exists fuel' w1,
    (fuel - S MAX_REQUESTS_PER_WINDOW <= fuel')%nat
    /\ withRateLimit E fuel fn retries w = attempt E fuel' fn retries w1
    /\ calls w1 = calls w
    /\ timestamps_in_past w1.
Proof.
  intros Hpast Hfuel.
  destruct (waits_end fn retries MAX_REQUESTS_PER_WINDOW fuel w
              (in_past_aged w Hpast) Hfuel) as (j & w1 & Hj & Heq & Hc & Hp).
  exists (fuel - S j)%nat, w1. repeat split; [lia|exact Heq|exact Hc|now apply Hp].
Qed.

(** A logged operation under [withRateLimit] ends, whatever it does, having
    been started at least once and never as anything but [request]. *)
Lemma withRateLimit_invoke_ends {T : Type} (request : Request)
  (behaviour : nat -> Thrown + T) (n : nat) :
  forall retries fuel w,
    retries <= Z.of_nat n ->
    timestamps_in_past w ->
    (S MAX_REQUESTS_PER_WINDOW * S n <= fuel)%nat ->
    exists m w',
      timestamps_in_past w'
      /\ calls w' = (calls w ++ repeat request (S m))%list
      /\ ((exists value,
              withRateLimit E fuel (invoke E request behaviour) retries w
              = Return value w')
          \/ (exists error,
                 withRateLimit E fuel (invoke E request behaviour) retries w
                 = Throw error w')).
Proof.
  induction n as [|n IH]; intros retries fuel w Hretries Hpast Hfuel.
  - destruct (withRateLimit_attempt (invoke E request behaviour) retries fuel w Hpast)
      as (fuel' & w1 & Hf & Heq & Hc & Hp); [lia|].
    rewrite Heq, attempt_invoke.
    exists 0%nat, (invoked E request w1).
    split; [now apply invoked_in_past|].
    split; [cbn [invoked calls repeat]; now rewrite Hc|].
    destruct (behaviour (length (calls w1))) as [error|value].
    + replace (0 <? retries) with false by (symmetry; apply Z.ltb_ge; lia).
      right. now exists error.
    + left. now exists value.
  - destruct (withRateLimit_attempt (invoke E request behaviour) retries fuel w Hpast)
      as (fuel' & w1 & Hf & Heq & Hc & Hp); [lia|].
    rewrite Heq, attempt_invoke.
    destruct (behaviour (length (calls w1))) as [error|value].
    + destruct ((0 <? retries) && is_rate_limited error).
      * destruct (IH (retries - 1) fuel'
                    (slept E RETRY_AFTER_MS (invoked E request w1)))
          as (m & w' & Hp' & Hc' & Hout); [lia| |lia|].
        { apply slept_in_past; [unfold RETRY_AFTER_MS; lia|].
          now apply invoked_in_past. }
        exists (S m), w'. split; [exact Hp'|]. split; [|exact Hout].
        rewrite Hc'. cbn [slept invoked calls]. rewrite Hc.
        rewrite <- List.app_assoc. reflexivity.
      * exists 0%nat, (invoked E request w1).
        split; [now apply invoked_in_past|].
        split; [cbn [invoked calls repeat]; now rewrite Hc|].
        right. now exists error.
    + exists 0%nat, (invoked E request w1).
      split; [now apply invoked_in_past|].
      split; [cbn [invoked calls repeat]; now rewrite Hc|].
      left. now exists value.
Qed.

(** C3.  An operation that fails with a rate-limited (429) error on its first
    two attempts and succeeds on the third, run under [withRateLimit] with
    retry budget 3, yields its success value after exactly three attempts.  A
    refusal by the local limiter leads, after a wait of at least two seconds,
    to the same call with the same budget.  A failure that is not rate-limited,
    or one met with the budget used up, is thrown on unchanged. *)
Theorem withRateLimit_retries_on_429 :
  (forall (T : Type) (request : Request) (behaviour : nat -> Thrown + T)
          (fuel : nat) (w : World) (e1 e2 : Thrown) (value : T),
      timestamps_in_past w ->
      (enough_fuel <= fuel)%nat ->
      behaviour (length (calls w)) = inl e1 -> is_rate_limited e1 = true ->
      behaviour (S (length (calls w))) = inl e2 -> is_rate_limited e2 = true ->
      behaviour (S (S (length (calls w)))) = inr value ->
      exists w',
        withRateLimit E fuel (invoke E request behaviour) 3 w = Return value w'
        /\ calls w' = (calls w ++ [request; request; request])%list)
  /\ (forall (T : Type) (fuel : nat) (fn : M T) (retries : Z) (w : World),
         fst (checkRateLimit_at (now w) (requestTimestamps w)) = false ->
         withRateLimit E (S fuel) fn retries w
         = withRateLimit E fuel fn retries (slept E RETRY_AFTER_MS (checked w))
         /\ now w + 2000 <= now (slept E RETRY_AFTER_MS (checked w)))
  /\ (forall (T : Type) (fuel : nat) (fn : M T) (retries : Z) (w w' : World)
             (error : Thrown),
         fst (checkRateLimit_at (now w) (requestTimestamps w)) = true ->
         fn (checked w) = Throw error w' ->
         is_rate_limited error = false \/ retries <= 0 ->
         withRateLimit E (S fuel) fn retries w = Throw error w').
Proof.
  split; [|split].
  - intros T request behaviour fuel w e1 e2 value Hpast Hfuel H1 L1 H2 L2 H3.
    unfold enough_fuel in Hfuel.
    set (fn := invoke E request behaviour).
    destruct (withRateLimit_attempt fn 3 fuel w Hpast)
      as (f1 & w1 & Hf1 & Heq1 & Hc1 & Hp1);
      [unfold MAX_REQUESTS_PER_WINDOW; lia|].
    rewrite Heq1. unfold fn. rewrite attempt_invoke, Hc1, H1, L1.
    change (0 <? 3) with true. cbn [andb]. change (3 - 1) with 2.
    set (w2 := slept E RETRY_AFTER_MS (invoked E request w1)).
    assert (Hp2 : timestamps_in_past w2).
    { apply slept_in_past; [unfold RETRY_AFTER_MS; lia|].
      now apply invoked_in_past. }
    assert (Hc2 : calls w2 = (calls w ++ [request])%list)
      by (unfold w2; cbn [slept invoked calls]; now rewrite Hc1).
    destruct (withRateLimit_attempt fn 2 f1 w2 Hp2)
      as (f2 & w3 & Hf2 & Heq2 & Hc3 & Hp3);
      [unfold MAX_REQUESTS_PER_WINDOW in *; lia|].
    fold fn. rewrite Heq2. unfold fn. rewrite attempt_invoke, Hc3, Hc2.
    rewrite length_app, Nat.add_1_r, H2, L2.
    change (0 <? 2) with true. cbn [andb]. change (2 - 1) with 1.
    set (w4 := slept E RETRY_AFTER_MS (invoked E request w3)).
    assert (Hp4 : timestamps_in_past w4).
    { apply slept_in_past; [unfold RETRY_AFTER_MS; lia|].
      now apply invoked_in_past. }
    assert (Hc4 : calls w4 = (calls w ++ [request; request])%list).
    { unfold w4. cbn [slept invoked calls]. rewrite Hc3, Hc2.
      now rewrite <- List.app_assoc. }
    destruct (withRateLimit_attempt fn 1 f2 w4 Hp4)
      as (f3 & w5 & Hf3 & Heq3 & Hc5 & Hp5);
      [unfold MAX_REQUESTS_PER_WINDOW in *; lia|].
    fold fn. rewrite Heq3. unfold fn. rewrite attempt_invoke, Hc5, Hc4.
    rewrite length_app. cbn [length]. rewrite Nat.add_comm. cbn [Nat.add].
    rewrite H3.
    exists (invoked E request w5). split; [reflexivity|].
    cbn [invoked calls]. rewrite Hc5, Hc4. now rewrite <- List.app_assoc.
  - intros T fuel fn retries w Hrefused. split.
    + rewrite withRateLimit_unfold, Hrefused. reflexivity.
    + unfold slept, checked, RETRY_AFTER_MS. cbn [now]. lia.
  - intros T fuel fn retries w w' error Hpermit Hfn Hwhy.
    rewrite withRateLimit_unfold, Hpermit. unfold attempt, try_catch.
    rewrite Hfn.
    replace ((0 <? retries) && is_rate_limited error) with false; [reflexivity|].
    symmetry. destruct Hwhy as [Hnot|Hspent].
    + rewrite Hnot. apply andb_false_r.
    + replace (0 <? retries) with false by (symmetry; apply Z.ltb_ge; lia).
      reflexivity.
Qed.

End Steps.

(** ** Termination and traffic of computations *)

Section Traffic.

Variable E : Environment.

Lemma reached_refl (allowed : Request -> bool) (w : World) :
  timestamps_in_past w -> reached_issuing allowed w w.
Proof.
  intros H. split; [exact H|]. exists []. split; [|reflexivity].
  unfold issued. now rewrite List.app_nil_r.
Qed.

Lemma reached_trans (allowed : Request -> bool) (w w1 w2 : World) :
  reached_issuing allowed w w1 -> reached_issuing allowed w1 w2 ->
  reached_issuing allowed w w2.
Proof.
  intros (_ & l1 & H1 & A1) (Hp & l2 & H2 & A2). split; [exact Hp|].
  exists (l1 ++ l2)%list. split.
  - unfold issued in *. now rewrite H2, H1, List.app_assoc.
  - rewrite forallb_app, A1, A2. reflexivity.
Qed.

Lemma reached_weaken (allowed allowed' : Request -> bool) (w w' : World) :
  (forall r, allowed r = true -> allowed' r = true) ->
  reached_issuing allowed w w' -> reached_issuing allowed' w w'.
Proof.
  intros Himp (Hp & l & Hl & Hall). split; [exact Hp|]. exists l.
  split; [exact Hl|]. rewrite forallb_forall in *. auto.
Qed.

Lemma total_weaken {A : Type} (allowed allowed' : Request -> bool) (m : M A) :
  (forall r, allowed r = true -> allowed' r = true) ->
  total allowed m -> total allowed' m.
Proof.
  intros Himp Hm w Hw. specialize (Hm w Hw).
  destruct (m w); try exact Hm; eapply reached_weaken; eauto.
Qed.

Lemma total_ret {A : Type} (allowed : Request -> bool) (a : A) :
  total allowed (ret a).
Proof. intros w Hw. now apply reached_refl. Qed.

Lemma total_throw {A : Type} (allowed : Request -> bool) (error : Thrown) :
  total allowed (@throw A error).
Proof. intros w Hw. now apply reached_refl. Qed.

Lemma total_bind {A B : Type} (allowed : Request -> bool) (m : M A) (k : A -> M B) :
  total allowed m -> (forall a, total allowed (k a)) -> total allowed (bind m k).
Proof.
  intros Hm Hk w Hw. unfold bind. specialize (Hm w Hw).
  destruct (m w) as [a w1|error w1|]; [|exact Hm|exact Hm].
  specialize (Hk a w1 (proj1 Hm)).
  destruct (k a w1); try exact Hk; eapply reached_trans; eauto.
Qed.

Lemma total_try_catch {A : Type} (allowed : Request -> bool) (m : M A)
  (handler : Thrown -> M A) :
  total allowed m -> (forall error, total allowed (handler error)) ->
  total allowed (try_catch m handler).
Proof.
  intros Hm Hh w Hw. unfold try_catch. specialize (Hm w Hw).
  destruct (m w) as [a w1|error w1|]; [exact Hm| |exact Hm].
  specialize (Hh error w1 (proj1 Hm)).
  destruct (handler error w1); try exact Hh; eapply reached_trans; eauto.
Qed.

Lemma failing_throw {A : Type} (allowed : Request -> bool) (error : Thrown) :
  failing allowed (@throw A error).
Proof. intros w Hw. now apply reached_refl. Qed.

Lemma failing_total {A : Type} (allowed : Request -> bool) (m : M A) :
  failing allowed m -> total allowed m.
Proof.
  intros Hm w Hw. specialize (Hm w Hw). unfold fails_issuing in Hm.
  destruct (m w); [destruct Hm|exact Hm|exact Hm].
Qed.

Lemma failing_bind {A B : Type} (allowed : Request -> bool) (m : M A)
  (k : A -> M B) :
  total allowed m -> (forall a, failing allowed (k a)) ->
  failing allowed (bind m k).
Proof.
  intros Hm Hk w Hw. unfold bind. specialize (Hm w Hw).
  destruct (m w) as [a w1|error w1|]; [|exact Hm|exact Hm].
  specialize (Hk a w1 (proj1 Hm)). unfold fails_issuing in *.
  destruct (k a w1); try exact Hk. eapply reached_trans; eauto.
Qed.

Lemma failing_weaken {A : Type} (allowed allowed' : Request -> bool) (m : M A) :
  (forall r, allowed r = true -> allowed' r = true) ->
  failing allowed m -> failing allowed' m.
Proof.
  intros Himp Hm w Hw. specialize (Hm w Hw). unfold fails_issuing in *.
  destruct (m w); try exact Hm. eapply reached_weaken; eauto.
Qed.

Lemma forallb_repeat (allowed : Request -> bool) (request : Request) (n : nat) :
  allowed request = true -> forallb allowed (repeat request n) = true.
Proof. intros H. induction n; simpl; [reflexivity|]. now rewrite H, IHn. Qed.

(** What every rate-limited [fetch] of the program does from a state with its
    timestamps in the past: it ends, and the log grows by [request], once per
    attempt. *)
Lemma rate_limited_fetch_ends {T : Set} (fuel : nat)
  (api : nat -> Request -> Thrown + Response T) (request : Request) (w : World) :
  timestamps_in_past w -> (enough_fuel <= fuel)%nat ->
  exists m w',
    timestamps_in_past w'
    /\ calls w' = (calls w ++ request :: repeat request m)%list
    /\ ((exists response, rate_limited_fetch E fuel api request w = Return response w')
        \/ (exists error, rate_limited_fetch E fuel api request w = Throw error w')).
Proof.
  intros Hw Hfuel. unfold rate_limited_fetch.
  apply (withRateLimit_invoke_ends E request (fun k => api k request) 3);
    [unfold default_retries; lia|exact Hw|].
  unfold enough_fuel, MAX_REQUESTS_PER_WINDOW in *. lia.
Qed.

Lemma total_rate_limited_fetch {T : Set} (allowed : Request -> bool) (fuel : nat)
  (api : nat -> Request -> Thrown + Response T) (request : Request) :
  allowed request = true -> (enough_fuel <= fuel)%nat ->
  total allowed (rate_limited_fetch E fuel api request).
Proof.
  intros Hallowed Hfuel w Hw.
  destruct (rate_limited_fetch_ends fuel api request w Hw Hfuel)
    as (m & w' & Hp & Hc & [(response & ->)|(error & ->)]);
    (split; [exact Hp|]; exists (request :: repeat request m);
     split; [exact Hc|]; apply (forallb_repeat allowed request (S m) Hallowed)).
Qed.

(** A [fetch] that the remote resolves on the first attempt. *)
Lemma rate_limited_fetch_resolved {T : Set} (fuel : nat)
  (api : nat -> Request -> Thrown + Response T) (request : Request) (w : World)
  (response : Response T) :
  timestamps_in_past w -> (enough_fuel <= fuel)%nat ->
  api (length (calls w)) request = inr response ->
  exists w',
    rate_limited_fetch E fuel api request w = Return response w'
    /\ timestamps_in_past w'
    /\ calls w' = (calls w ++ [request])%list.
Proof.
  intros Hw Hfuel Hapi. unfold rate_limited_fetch.
  destruct (withRateLimit_attempt E (invoke E request (fun k => api k request))
              default_retries fuel w Hw) as (fuel' & w1 & _ & Heq & Hc & Hp);
    [unfold enough_fuel, MAX_REQUESTS_PER_WINDOW in *; lia|].
  rewrite Heq, attempt_invoke, Hc, Hapi.
  exists (invoked E request w1). split; [reflexivity|].
  split; [now apply invoked_in_past|]. cbn [invoked calls]. now rewrite Hc.
Qed.

Lemma total_response_json {T : Set} (allowed : Request -> bool)
  (response : Response T) :
  total allowed (response_json response).
Proof.
  unfold response_json. destruct (json response);
    [apply total_throw|apply total_ret].
Qed.

Lemma failing_throw_api_error {T : Set} {A : Type} (allowed : Request -> bool)
  (what : string) (response : Response T) :
  failing allowed (@throw_api_error T A what response).
Proof.
  unfold throw_api_error, response_json. intros w Hw. unfold bind.
  destruct (json response); apply (failing_throw allowed _ w Hw).
Qed.

Lemma failing_rethrow_or_wrap {A : Type} (allowed : Request -> bool)
  (what : string) (error : Thrown) :
  failing allowed (@rethrow_or_wrap A what error).
Proof.
  unfold rethrow_or_wrap. destruct (instanceof_McpError error);
    apply failing_throw.
Qed.

End Traffic.

(** ** The API client *)

Section Client.

Variable E : Environment.
Variable fuel : nat.
Hypothesis fuel_enough : (enough_fuel <= fuel)%nat.

Lemma payload_of_resolved {T : Set} (r : Thrown + Response T) (data : Payload T) :
  payload_of r = Some data ->
  exists response, r = inr response /\ ok response = true /\ json response = inr data.
Proof.
  unfold payload_of. destruct r as [error|response]; [discriminate|].
  destruct (ok response) eqn:Hok; [|discriminate].
  destruct (json response) as [error|d] eqn:Hjson; [discriminate|].
  intros [= ->]. now exists response.
Qed.

Lemma fetchAnswers_ok (questionId : Z) (w : World) (data : Payload StackOverflowAnswer) :
  timestamps_in_past w ->
  payload_of (answers_api E (length (calls w)) (answers_request E questionId))
  = Some data ->
  exists w',
    fetchAnswers E fuel questionId w = Return (items_or_empty data) w'
    /\ timestamps_in_past w'
    /\ calls w' = (calls w ++ [answers_request E questionId])%list.
Proof.
  intros Hw Hdata.
  destruct (payload_of_resolved _ data Hdata) as (response & Hapi & Hok & Hjson).
  destruct (rate_limited_fetch_resolved E fuel (answers_api E) _ w response Hw
              fuel_enough Hapi) as (w' & Hrun & Hp & Hc).
  exists w'. split; [|now split].
  unfold fetchAnswers, try_catch, bind. rewrite Hrun, Hok. cbn [negb].
  unfold response_json. rewrite Hjson. reflexivity.
Qed.

Lemma fetchComments_ok (postId : Z) (w : World) (data : Payload StackOverflowComment) :
  timestamps_in_past w ->
  payload_of (comments_api E (length (calls w)) (comments_request E postId))
  = Some data ->
  exists w',
    fetchComments E fuel postId w = Return (items_or_empty data) w'
    /\ timestamps_in_past w'
    /\ calls w' = (calls w ++ [comments_request E postId])%list.
Proof.
  intros Hw Hdata.
  destruct (payload_of_resolved _ data Hdata) as (response & Hapi & Hok & Hjson).
  destruct (rate_limited_fetch_resolved E fuel (comments_api E) _ w response Hw
              fuel_enough Hapi) as (w' & Hrun & Hp & Hc).
  exists w'. split; [|now split].
  unfold fetchComments, try_catch, bind. rewrite Hrun, Hok. cbn [negb].
  unfold response_json. rewrite Hjson. reflexivity.
Qed.

(** C9.  When the remote answers a [fetchAnswers] or [fetchComments] request
    with an [ok] response whose JSON payload has no [items], the function
    returns the empty array. *)
Theorem missing_items_give_empty_array :
  (forall (questionId : Z) (w : World) (response : Response StackOverflowAnswer)
          (data : Payload StackOverflowAnswer),
      timestamps_in_past w ->
      answers_api E (length (calls w)) (answers_request E questionId) = inr response ->
      ok response = true -> json response = inr data -> items data = None ->
      exists w', fetchAnswers E fuel questionId w = Return [] w')
  /\ (forall (postId : Z) (w : World) (response : Response StackOverflowComment)
             (data : Payload StackOverflowComment),
         timestamps_in_past w ->
         comments_api E (length (calls w)) (comments_request E postId) = inr response ->
         ok response = true -> json response = inr data -> items data = None ->
         exists w', fetchComments E fuel postId w = Return [] w').
Proof.
  split.
  - intros questionId w response data Hw Hapi Hok Hjson Hitems.
    destruct (fetchAnswers_ok questionId w data Hw) as (w' & Hrun & _).
    { rewrite Hapi. unfold payload_of. now rewrite Hok, Hjson. }
    exists w'. rewrite Hrun. unfold items_or_empty. now rewrite Hitems.
  - intros postId w response data Hw Hapi Hok Hjson Hitems.
    destruct (fetchComments_ok postId w data Hw) as (w' & Hrun & _).
    { rewrite Hapi. unfold payload_of. now rewrite Hok, Hjson. }
    exists w'. rewrite Hrun. unfold items_or_empty. now rewrite Hitems.
Qed.

(** *** Every read operation ends and issues only its own kind of request *)

Lemma total_fetchAnswers (allowed : Request -> bool) (questionId : Z) :
  allowed (answers_request E questionId) = true ->
  total allowed (fetchAnswers E fuel questionId).
Proof.
  intros Hallowed. unfold fetchAnswers.
  apply total_try_catch.
  - apply total_bind; [now apply total_rate_limited_fetch|].
    intros response. destruct (negb (ok response)).
    + apply failing_total, failing_throw_api_error.
    + apply total_bind; [apply total_response_json|]. intros data. apply total_ret.
  - intros error. apply failing_total, failing_rethrow_or_wrap.
Qed.

Lemma total_fetchComments (allowed : Request -> bool) (postId : Z) :
  allowed (comments_request E postId) = true ->
  total allowed (fetchComments E fuel postId).
Proof.
  intros Hallowed. unfold fetchComments.
  apply total_try_catch.
  - apply total_bind; [now apply total_rate_limited_fetch|].
    intros response. destruct (negb (ok response)).
    + apply failing_total, failing_throw_api_error.
    + apply total_bind; [apply total_response_json|]. intros data. apply total_ret.
  - intros error. apply failing_total, failing_rethrow_or_wrap.
Qed.

Lemma total_fetchQuestion (questionId : Z) :
  total question_lookup (fetchQuestion E fuel questionId).
Proof.
  unfold fetchQuestion.
  apply total_bind; [now apply total_rate_limited_fetch|].
  intros response. destruct (negb (ok response)).
  - apply failing_total, failing_throw_api_error.
  - apply total_bind; [apply total_response_json|]. intros data. apply total_ret.
Qed.

Lemma total_fetchAnswerComments (allowed : Request -> bool)
  (answers : list StackOverflowAnswer) :
  (forall postId, allowed (comments_request E postId) = true) ->
  forall answersMap, total allowed (fetchAnswerComments E fuel answers answersMap).
Proof.
  intros Hallowed. induction answers as [|answer others IH]; intros answersMap;
    cbn [fetchAnswerComments].
  - apply total_ret.
  - destruct (Answer.answer_id answer) as [id|]; [|apply IH].
    apply total_bind; [now apply total_fetchComments|]. intros fetched. apply IH.
Qed.

Lemma total_composeResults (minScore : option Z) (includeComments : option bool)
  (questions : list StackOverflowQuestion) :
  forall results,
    total (search_traffic (truthy_boolean includeComments))
      (composeResults E fuel minScore includeComments questions results).
Proof.
  induction questions as [|question others IH]; intros results;
    cbn [composeResults].
  - apply total_ret.
  - destruct (below_minScore minScore question); [apply IH|].
    apply total_bind; [now apply total_fetchAnswers|]. intros answers.
    apply total_bind; [|intros comments; apply IH].
    destruct (truthy_boolean includeComments) eqn:Hc; [|apply total_ret].
    apply total_bind; [now apply total_fetchComments|]. intros ofQuestion.
    apply total_bind; [|intros ofAnswers; apply total_ret].
    now apply total_fetchAnswerComments.
Qed.

Lemma total_searchStackOverflow (query : string) (tags : option (list string))
  (options : SearchOptions) :
  total (search_traffic (truthy_boolean (Options.includeComments options)))
    (searchStackOverflow E fuel query tags options).
Proof.
  unfold searchStackOverflow. apply total_try_catch.
  - apply total_bind; [now apply total_rate_limited_fetch|].
    intros response. destruct (negb (ok response)).
    + apply failing_total, failing_throw_api_error.
    + apply total_bind; [apply total_response_json|]. intros data.
      apply total_bind; [|intros questions; apply total_composeResults].
      unfold iterate_items. destruct (items data); [apply total_ret|apply total_throw].
  - intros error. apply failing_total, failing_rethrow_or_wrap.
Qed.

Lemma search_traffic_is_read (withComments : bool) (request : Request) :
  search_traffic withComments request = true -> is_read request = true.
Proof. unfold search_traffic. intros H. now apply andb_prop in H. Qed.

Lemma question_lookup_is_read (request : Request) :
  question_lookup request = true -> is_read request = true.
Proof. unfold question_lookup. intros H. now apply andb_prop in H. Qed.

End Client.

(** ** The write gate *)

Section Writes.

Variable E : Environment.
Variable fuel : nat.
Hypothesis fuel_enough : (enough_fuel <= fuel)%nat.

Lemma ensureWriteAccess_missing :
  credentials_missing E -> ensureWriteAccess E = throw credentials_required.
Proof.
  unfold credentials_missing, ensureWriteAccess. intros [H|H]; rewrite H.
  - reflexivity.
  - now rewrite orb_true_r.
Qed.

Lemma failing_without_credentials {A : Type} (allowed : Request -> bool)
  (k : unit -> M A) :
  credentials_missing E -> failing allowed (bind (ensureWriteAccess E) k).
Proof.
  intros Hmissing. rewrite (ensureWriteAccess_missing Hmissing).
  intros w Hw. now apply reached_refl.
Qed.

Lemma handlePostQuestion_fails (input : PostQuestionInput) :
  credentials_missing E -> failing is_read (handlePostQuestion E fuel input).
Proof.
  intros Hmissing. unfold handlePostQuestion. apply failing_bind.
  - eapply total_weaken; [apply search_traffic_is_read|].
    now apply total_searchStackOverflow.
  - intros similar. destruct (0 <? length similar)%nat.
    + apply failing_throw.
    + now apply failing_without_credentials.
Qed.

Lemma handlePostSolution_fails (input : PostSolutionInput) :
  credentials_missing E -> failing is_read (handlePostSolution E fuel input).
Proof.
  intros Hmissing. unfold handlePostSolution.
  destruct (negb (truthy_boolean (PostSolution.confirmedResolved input)));
    [apply failing_throw|].
  destruct (no_evidence (PostSolution.evidence input)); [apply failing_throw|].
  apply failing_bind.
  - eapply total_weaken; [apply question_lookup_is_read|].
    now apply total_fetchQuestion.
  - intros [question|]; [|apply failing_throw].
    destruct (has_answers question); [apply failing_throw|].
    now apply failing_without_credentials.
Qed.

Lemma handleCommentSolution_fails (input : CommentSolutionInput) :
  credentials_missing E -> failing is_read (handleCommentSolution E fuel input).
Proof.
  intros Hmissing. unfold handleCommentSolution. apply failing_bind.
  - eapply total_weaken; [apply question_lookup_is_read|].
    now apply total_fetchQuestion.
  - intros [question|]; [|apply failing_throw].
    destruct (truthy_number (Question.accepted_answer_id question));
      [apply failing_throw|].
    now apply failing_without_credentials.
Qed.

(** C1, as the code has it.  With the API key or the access token missing, no
    write operation issues a post request and none succeeds: [thumbs_up] fails
    before any network call, while [post_question], [post_solution] and
    [comment_solution] first run their precondition read (the duplicate search,
    the question fetch) and fail having issued reads only; once that
    precondition passes, the failure is the configuration error. *)
Theorem writes_without_credentials_never_post :
  credentials_missing E ->
  (forall input w, timestamps_in_past w ->
      fails_issuing is_read w (handlePostQuestion E fuel input w))
  /\ (forall input w, timestamps_in_past w ->
         fails_issuing is_read w (handlePostSolution E fuel input w))
  /\ (forall input w, timestamps_in_past w ->
         fails_issuing is_read w (handleCommentSolution E fuel input w))
  /\ (forall input w,
         exists error, handleThumbsUp E fuel input w = Throw error w
           /\ (ThumbsUp.confirmedFixed input = Some true ->
               error = credentials_required))
  /\ (forall input w w1,
         searchStackOverflow E fuel (PostQuestion.errorSignature input)
           (Some (PostQuestion.tags input))
           duplicate_search_options w = Return [] w1 ->
         handlePostQuestion E fuel input w = Throw credentials_required w1)
  /\ (forall input w w1 question,
         PostSolution.confirmedResolved input = Some true ->
         no_evidence (PostSolution.evidence input) = false ->
         fetchQuestion E fuel (PostSolution.questionId input) w
         = Return (Some question) w1 ->
         has_answers question = false ->
         handlePostSolution E fuel input w = Throw credentials_required w1)
  /\ (forall input w w1 question,
         fetchQuestion E fuel (CommentSolution.questionId input) w
         = Return (Some question) w1 ->
         truthy_number (Question.accepted_answer_id question) = false ->
         handleCommentSolution E fuel input w = Throw credentials_required w1).
Proof.
  intros Hmissing.
  pose proof (ensureWriteAccess_missing Hmissing) as Hensure.
  repeat split.
  - intros input. now apply handlePostQuestion_fails.
  - intros input. now apply handlePostSolution_fails.
  - intros input. now apply handleCommentSolution_fails.
  - intros input w. unfold handleThumbsUp.
    destruct (ThumbsUp.confirmedFixed input) as [[|]|]; cbn [truthy_boolean negb].
    + exists credentials_required. rewrite Hensure. now split.
    + exists not_confirmed_fixed. split; [reflexivity|discriminate].
    + exists not_confirmed_fixed. split; [reflexivity|discriminate].
  - intros input w w1 Hsearch. unfold duplicate_search_options in Hsearch.
    unfold handlePostQuestion, bind at 1.
    rewrite Hsearch. cbn [length Nat.ltb Nat.leb]. now rewrite Hensure.
  - intros input w w1 question Hconfirmed Hevidence Hfetch Hnone.
    unfold handlePostSolution. rewrite Hconfirmed, Hevidence. cbn [truthy_boolean negb].
    unfold bind at 1. rewrite Hfetch, Hnone. now rewrite Hensure.
  - intros input w w1 question Hfetch Hnone.
    unfold handleCommentSolution, bind at 1. rewrite Hfetch, Hnone.
    now rewrite Hensure.
Qed.

(** C10.  A write tool called with its numeric id argument equal to 0
    ([postId] of [thumbs_up], [questionId] of [post_solution] and of
    [comment_solution]) is refused by the dispatcher with an [InvalidParams]
    error, in the state it was called in: the handler does not run. *)
Theorem zero_id_is_refused (args : Arguments) (w : World) :
  (arg_postId args = Some 0 ->
   callTool E fuel "thumbs_up" (Some args) w
   = Throw (McpError InvalidParams "postId is required") w)
  /\ (arg_questionId args = Some 0 ->
      callTool E fuel "post_solution" (Some args) w
      = Throw (McpError InvalidParams "questionId and body are required") w)
  /\ (arg_questionId args = Some 0 ->
      callTool E fuel "comment_solution" (Some args) w
      = Throw (McpError InvalidParams "questionId and body are required") w).
Proof.
  repeat split; intros Hzero; unfold callTool; cbn [String.eqb Ascii.eqb Bool.eqb];
    rewrite Hzero; reflexivity.
Qed.

Lemma has_answers_spec (question : StackOverflowQuestion) :
  has_answers question = true
  <-> (exists id, Question.accepted_answer_id question = Some id /\ id <> 0)
      \/ 0 < Question.answer_count question.
Proof.
  unfold has_answers, truthy_number. rewrite orb_true_iff, Z.ltb_lt.
  split; (intros [H|H]; [left|right; exact H]).
  - destruct (Question.accepted_answer_id question) as [id|]; [|discriminate].
    exists id. split; [reflexivity|]. apply negb_true_iff, Z.eqb_neq in H. exact H.
  - destruct H as (id & -> & Hid). now apply negb_true_iff, Z.eqb_neq.
Qed.

(** C6.  [post_solution] is rejected when [confirmedResolved] is not true
    (whatever the evidence), when the evidence list is missing or empty, when
    the question fetch fails or finds nothing, and when the fetched question
    has an accepted answer or a positive [answer_count].  The first two
    rejections happen before any request; the others after the question fetch
    alone, so no answer is ever posted. *)
Theorem post_solution_gate (input : PostSolutionInput) (w : World) :
  timestamps_in_past w ->
  (PostSolution.confirmedResolved input <> Some true ->
   handlePostSolution E fuel input w = Throw not_confirmed_resolved w)
  /\ (PostSolution.confirmedResolved input = Some true ->
      PostSolution.evidence input = None \/ PostSolution.evidence input = Some [] ->
      handlePostSolution E fuel input w = Throw evidence_required w)
  /\ (PostSolution.confirmedResolved input <> Some true
      \/ PostSolution.evidence input = None
      \/ PostSolution.evidence input = Some []
      \/ (forall question w1,
             fetchQuestion E fuel (PostSolution.questionId input) w
             = Return (Some question) w1 ->
             (exists id, Question.accepted_answer_id question = Some id /\ id <> 0)
             \/ 0 < Question.answer_count question) ->
      fails_issuing question_lookup w (handlePostSolution E fuel input w))
  /\ (forall error w1,
         PostSolution.confirmedResolved input = Some true ->
         no_evidence (PostSolution.evidence input) = false ->
         fetchQuestion E fuel (PostSolution.questionId input) w = Throw error w1 ->
         handlePostSolution E fuel input w = Throw error w1)
  /\ (forall w1,
         PostSolution.confirmedResolved input = Some true ->
         no_evidence (PostSolution.evidence input) = false ->
         fetchQuestion E fuel (PostSolution.questionId input) w = Return None w1 ->
         handlePostSolution E fuel input w = Throw question_not_found w1)
  /\ (forall question w1,
         PostSolution.confirmedResolved input = Some true ->
         no_evidence (PostSolution.evidence input) = false ->
         fetchQuestion E fuel (PostSolution.questionId input) w
         = Return (Some question) w1 ->
         (exists id, Question.accepted_answer_id question = Some id /\ id <> 0)
         \/ 0 < Question.answer_count question ->
         handlePostSolution E fuel input w = Throw already_answered w1).
Proof.
  intros Hw.
  assert (Hnot : PostSolution.confirmedResolved input <> Some true ->
                 handlePostSolution E fuel input w = Throw not_confirmed_resolved w).
  { intros H. unfold handlePostSolution.
    destruct (PostSolution.confirmedResolved input) as [[|]|];
      [now destruct H|reflexivity|reflexivity]. }
  assert (Hnoev : PostSolution.confirmedResolved input = Some true ->
                  no_evidence (PostSolution.evidence input) = true ->
                  handlePostSolution E fuel input w = Throw evidence_required w).
  { intros Hc He. unfold handlePostSolution. now rewrite Hc, He. }
  split; [exact Hnot|]. split.
  { intros Hc [He|He]; apply Hnoev; try exact Hc; now rewrite He. }
  split.
  { intros Hcase.
    destruct (PostSolution.confirmedResolved input) as [[|]|] eqn:Hc;
      [|rewrite Hnot by discriminate; now apply reached_refl
       |rewrite Hnot by discriminate; now apply reached_refl].
    destruct (no_evidence (PostSolution.evidence input)) eqn:He;
      [rewrite Hnoev by easy; now apply reached_refl|].
    destruct Hcase as [Hcase|[Hcase|[Hcase|Hcase]]];
      [now destruct Hcase|now rewrite Hcase in He|now rewrite Hcase in He|].
    unfold handlePostSolution. rewrite Hc, He. cbn [truthy_boolean negb].
    pose proof (total_fetchQuestion E fuel fuel_enough
                  (PostSolution.questionId input) w Hw) as Hfetch.
    unfold bind at 1.
    destruct (fetchQuestion E fuel (PostSolution.questionId input) w)
      as [[question|] w1|error w1|]; [| exact Hfetch | exact Hfetch | exact Hfetch].
    rewrite (proj2 (has_answers_spec question) (Hcase question w1 eq_refl)).
    exact Hfetch. }
  split; [|split].
  - intros error w1 Hc He Hfetch. unfold handlePostSolution.
    rewrite Hc, He. cbn [truthy_boolean negb]. unfold bind. now rewrite Hfetch.
  - intros w1 Hc He Hfetch. unfold handlePostSolution.
    rewrite Hc, He. cbn [truthy_boolean negb]. unfold bind. now rewrite Hfetch.
  - intros question w1 Hc He Hfetch Hhas. unfold handlePostSolution.
    rewrite Hc, He. cbn [truthy_boolean negb]. unfold bind at 1. rewrite Hfetch.
    now rewrite (proj2 (has_answers_spec question) Hhas).
Qed.

(** The search request is the first thing [searchStackOverflow] sends. *)
Lemma searchStackOverflow_began (query : string) (tags : option (list string))
  (options : SearchOptions) (w : World) :
  timestamps_in_past w ->
  began_with (search_request E query tags (Options.limit options))
    (search_traffic (truthy_boolean (Options.includeComments options))) w
    (searchStackOverflow E fuel query tags options w).
Proof.
  intros Hw.
  set (request := search_request E query tags (Options.limit options)).
  set (allowed := search_traffic (truthy_boolean (Options.includeComments options))).
  assert (Hallowed : allowed request = true) by reflexivity.
  assert (Hrest : forall response,
             total allowed
               (if negb (ok response)
                then throw_api_error "Stack Overflow API error" response
                else
                  data <- response_json response ;;
                  questions <- iterate_items data ;;
                  composeResults E fuel (Options.minScore options)
                    (Options.includeComments options) questions [])).
  { intros response. destruct (negb (ok response)).
    - apply failing_total, failing_throw_api_error.
    - apply total_bind; [apply total_response_json|]. intros data.
      apply total_bind; [|intros questions; now apply total_composeResults].
      unfold iterate_items. destruct (items data); [apply total_ret|apply total_throw]. }
  unfold searchStackOverflow, try_catch, bind. fold request.
  destruct (rate_limited_fetch_ends E fuel (questions_api E) request w Hw fuel_enough)
    as (m & w1 & Hp1 & Hc1 & [(response & ->)|(error & ->)]).
  - specialize (Hrest response w1 Hp1). unfold bind in Hrest.
    match type of Hrest with
    | match ?c with _ => _ end => destruct c as [results w2|error w2|]
    end.
    + destruct Hrest as (Hp2 & l2 & Hl2 & Hall2). split; [exact Hp2|].
      exists (repeat request m ++ l2)%list. split.
      * unfold issued in *. rewrite Hl2, Hc1, <- List.app_assoc. reflexivity.
      * rewrite forallb_app, Hall2, (forallb_repeat allowed request m Hallowed).
        reflexivity.
    + destruct Hrest as (Hp2 & l2 & Hl2 & Hall2).
      assert (Hthrow : exists error', rethrow_or_wrap (A := list SearchResult)
                         "Failed to search Stack Overflow" error w2
                       = Throw error' w2).
      { unfold rethrow_or_wrap. destruct (instanceof_McpError error); eexists; reflexivity. }
      destruct Hthrow as (error' & ->). split; [exact Hp2|].
      exists (repeat request m ++ l2)%list. split.
      * unfold issued in *. rewrite Hl2, Hc1, <- List.app_assoc. reflexivity.
      * rewrite forallb_app, Hall2, (forallb_repeat allowed request m Hallowed).
        reflexivity.
    + destruct Hrest.
  - assert (Hthrow : exists error', rethrow_or_wrap (A := list SearchResult)
                       "Failed to search Stack Overflow" error w1
                     = Throw error' w1).
    { unfold rethrow_or_wrap. destruct (instanceof_McpError error); eexists; reflexivity. }
    destruct Hthrow as (error' & ->). split; [exact Hp1|].
    exists (repeat request m). split; [exact Hc1|].
    apply (forallb_repeat allowed request m Hallowed).
Qed.

(** X25.  The other gates of [post_question]: a call with fewer than three
    tried-approach strings is refused by the dispatcher before any network
    call.  With three or more strings and the other required arguments
    present, the first request sent is the duplicate search on the error
    signature and tags with page size 3, followed by answer fetches only (no
    comments); when that search returns any result the call is rejected with
    the duplicate reason, having issued reads only, and when the search fails
    its error is the outcome. *)
Theorem post_question_gate :
  (forall args approaches w,
      arg_triedApproaches args = Some approaches ->
      (length approaches < 3)%nat ->
      exists message,
        callTool E fuel "post_question" (Some args) w
        = Throw (McpError InvalidParams message) w)
  /\ (forall args title body errorSignature tags approaches w,
         required_string (arg_title args) = Some title ->
         required_string (arg_body args) = Some body ->
         required_string (arg_errorSignature args) = Some errorSignature ->
         arg_tags args = Some tags ->
         arg_triedApproaches args = Some approaches ->
         (3 <= length approaches)%nat ->
         timestamps_in_past w ->
         let search :=
           searchStackOverflow E fuel errorSignature (Some tags)
             duplicate_search_options in
         began_with (search_request E errorSignature (Some tags) (Some 3))
           (search_traffic false) w (search w)
         /\ (forall similar w1,
                search w = Return similar w1 -> similar <> [] ->
                callTool E fuel "post_question" (Some args) w
                = Throw similar_exist w1)
         /\ (forall error w1,
                search w = Throw error w1 ->
                callTool E fuel "post_question" (Some args) w = Throw error w1)).
Proof.
  split.
  - intros args approaches w Happroaches Hfew.
    unfold callTool. cbn [String.eqb Ascii.eqb Bool.eqb]. rewrite Happroaches.
    apply Nat.ltb_lt in Hfew. rewrite Hfew.
    destruct (required_string (arg_title args));
      destruct (required_string (arg_body args));
      destruct (required_string (arg_errorSignature args));
      destruct (arg_tags args); eexists; reflexivity.
  - intros args title body errorSignature tags approaches w
      Htitle Hbody Hsig Htags Happroaches Hmany Hw search.
    assert (Hcall : callTool E fuel "post_question" (Some args) w
                    = handlePostQuestion E fuel
                        {| PostQuestion.title := title;
                           PostQuestion.body := body;
                           PostQuestion.tags := tags;
                           PostQuestion.errorSignature := errorSignature;
                           PostQuestion.triedApproaches := approaches |} w).
    { unfold callTool. cbn [String.eqb Ascii.eqb Bool.eqb].
      rewrite Htitle, Hbody, Hsig, Htags, Happroaches.
      replace (length approaches <? 3)%nat with false
        by (symmetry; apply Nat.ltb_ge; exact Hmany).
      reflexivity. }
    split; [|split].
    + apply (searchStackOverflow_began errorSignature (Some tags)
               duplicate_search_options w Hw).
    + intros similar w1 Hsearch Hsome. rewrite Hcall.
      unfold handlePostQuestion, bind at 1. cbn [PostQuestion.errorSignature PostQuestion.tags].
      unfold search, duplicate_search_options in Hsearch. rewrite Hsearch.
      destruct similar; [now destruct Hsome|reflexivity].
    + intros error w1 Hsearch. rewrite Hcall.
      unfold handlePostQuestion, bind at 1. cbn [PostQuestion.errorSignature PostQuestion.tags].
      unfold search, duplicate_search_options in Hsearch. now rewrite Hsearch.
Qed.

End Writes.

(** ** The aggregator *)

Section Aggregator.

Variable E : Environment.
Variable fuel : nat.
Hypothesis fuel_enough : (enough_fuel <= fuel)%nat.
Hypothesis answers_healthy : healthy (answers_api E).
Hypothesis comments_healthy : healthy (comments_api E).

Lemma has_key_spec (key : Z) (object : AnswerComments) :
  has_key key object = true <-> In key (map fst object).
Proof.
  unfold has_key. rewrite existsb_exists. split.
  - intros (entry & Hin & Heq). apply Z.eqb_eq in Heq. subst key.
    now apply in_map.
  - intros Hin. apply in_map_iff in Hin. destruct Hin as (entry & <- & Hin).
    exists entry. split; [exact Hin|apply Z.eqb_refl].
Qed.

Lemma replace_value_keys (key : Z) (value : list StackOverflowComment)
  (object : AnswerComments) :
  map fst (replace_value key value object) = map fst object.
Proof.
  induction object as [|[k v] rest IH]; cbn [replace_value map fst]; [reflexivity|].
  destruct (key =? k); cbn [map fst]; [reflexivity|]. now rewrite IH.
Qed.

(** A created property takes one place in the enumeration and moves no other
    key. *)
Lemma create_property_keys (key : Z) (value : list StackOverflowComment)
  (object : AnswerComments) :
  exists before after,
    map fst object = (before ++ after)%list
    /\ map fst (create_property key value object) = (before ++ key :: after)%list.
Proof.
  induction object as [|[k v] rest (before & after & Hrest & Hnew)];
    cbn [create_property map fst].
  - now exists [], [].
  - destruct (is_array_index key && (negb (is_array_index k) || (key <? k))).
    + now exists [], (k :: map fst rest).
    + exists (k :: before), after. cbn [map fst app]. now rewrite Hrest, Hnew.
Qed.

Lemma answers_set_keys (key : Z) (value : list StackOverflowComment)
  (object : AnswerComments) (id : Z) :
  In id (map fst (answers_set key value object))
  <-> id = key \/ In id (map fst object).
Proof.
  unfold answers_set. destruct (has_key key object) eqn:Hhas.
  - rewrite replace_value_keys. apply has_key_spec in Hhas.
    split; [now right|]. now intros [->|Hin].
  - destruct (create_property_keys key value object)
      as (before & after & -> & ->).
    rewrite !in_app_iff. cbn [In]. intuition.
Qed.

Lemma answers_set_new_key (key : Z) (value : list StackOverflowComment)
  (object : AnswerComments) :
  ~ In key (map fst object) ->
  length (answers_set key value object) = S (length object).
Proof.
  intros Hnew. unfold answers_set.
  destruct (has_key key object) eqn:Hhas;
    [apply has_key_spec in Hhas; now destruct Hnew|].
  destruct (create_property_keys key value object)
    as (before & after & Hold & Hcreated).
  rewrite <- (length_map fst (create_property key value object)), Hcreated.
  rewrite <- (length_map fst object), Hold, !length_app. cbn [length]. lia.
Qed.

(** Assignment keeps an object an object: no key is listed twice. *)
Lemma answers_set_distinct (key : Z) (value : list StackOverflowComment)
  (object : AnswerComments) :
  NoDup (map fst object) -> NoDup (map fst (answers_set key value object)).
Proof.
  intros Hdistinct. unfold answers_set. destruct (has_key key object) eqn:Hhas.
  - now rewrite replace_value_keys.
  - destruct (create_property_keys key value object)
      as (before & after & Hold & ->).
    rewrite Hold in Hdistinct.
    apply (NoDup_Add (Add_app key before after)). split; [exact Hdistinct|].
    rewrite <- Hold. intros Hin. apply has_key_spec in Hin.
    rewrite Hin in Hhas. discriminate Hhas.
Qed.

Lemma fetchAnswerComments_ok (answers : list StackOverflowAnswer) :
  forall answersMap w,
    timestamps_in_past w ->
    exists answersMap' w',
      fetchAnswerComments E fuel answers answersMap w = Return answersMap' w'
      /\ timestamps_in_past w'
      /\ calls w' = (calls w ++ map (comments_request E) (answer_ids answers))%list
      /\ (forall id, In id (map fst answersMap')
                     <-> In id (map fst answersMap) \/ In id (answer_ids answers))
      /\ (NoDup (answer_ids answers) ->
          (forall id, In id (answer_ids answers) -> ~ In id (map fst answersMap)) ->
          length answersMap' = (length answersMap + length (answer_ids answers))%nat).
Proof.
  induction answers as [|answer others IH]; intros answersMap w Hw;
    cbn [fetchAnswerComments].
  - exists answersMap, w. cbn [answer_ids flat_map map In length].
    rewrite List.app_nil_r, Nat.add_0_r. repeat split; try tauto.
  - unfold answer_ids. cbn [flat_map]. fold (answer_ids others).
    destruct (Answer.answer_id answer) as [id|]; cbn [app].
    + destruct (payload_of (comments_api E (length (calls w)) (comments_request E id)))
        as [data|] eqn:Hdata; [|now destruct (comments_healthy _ _ Hdata)].
      destruct (fetchComments_ok E fuel fuel_enough id w data Hw Hdata)
        as (w1 & Hrun & Hp1 & Hc1).
      unfold bind. rewrite Hrun.
      destruct (IH (answers_set id (items_or_empty data) answersMap) w1 Hp1)
        as (answersMap' & w' & Hrun' & Hp' & Hc' & Hkeys & Hlen).
      exists answersMap', w'. split; [exact Hrun'|]. split; [exact Hp'|].
      split; [|split].
      * rewrite Hc', Hc1, <- List.app_assoc. reflexivity.
      * intros id'. rewrite Hkeys, answers_set_keys. cbn [In]. intuition.
      * intros Hnodup Hfresh. inversion Hnodup as [|? ? Hnotin Hnodup']; subst.
        rewrite Hlen.
        -- rewrite answers_set_new_key by (apply Hfresh; now left).
           cbn [length]. lia.
        -- exact Hnodup'.
        -- intros id' Hin'. rewrite answers_set_keys. intros [->|Hin''].
           ++ exact (Hnotin Hin').
           ++ apply (Hfresh id'); [now right|exact Hin''].
    + destruct (IH answersMap w Hw)
        as (answersMap' & w' & Hrun' & Hp' & Hc' & Hkeys & Hlen).
      exists answersMap', w'. repeat split; try assumption; apply Hkeys.
Qed.

Lemma composeResults_ok (minScore : option Z) (includeComments : option bool)
  (questions : list StackOverflowQuestion) :
  forall results w,
    timestamps_in_past w ->
    exists new w',
      composeResults E fuel minScore includeComments questions results w
      = Return (results ++ new)%list w'
      /\ timestamps_in_past w'
      /\ map Result.question new
         = filter (fun q => negb (below_minScore minScore q)) questions
      /\ calls w'
         = (calls w
            ++ flat_map (result_requests E (truthy_boolean includeComments)) new)%list
      /\ Forall (bundle_matches (truthy_boolean includeComments)) new
      /\ Forall (answers_from_remote E) new.
Proof.
  induction questions as [|question others IH]; intros results w Hw;
    cbn [composeResults filter].
  - exists [], w. cbn [map flat_map]. rewrite !List.app_nil_r.
    repeat split; try assumption; constructor.
  - destruct (below_minScore minScore question) eqn:Hbelow; cbn [negb].
    + exact (IH results w Hw).
    + destruct (payload_of (answers_api E (length (calls w))
                  (answers_request E (Question.question_id question))))
        as [data|] eqn:Hdata; [|now destruct (answers_healthy _ _ Hdata)].
      destruct (fetchAnswers_ok E fuel fuel_enough _ w data Hw Hdata)
        as (w1 & Hrun1 & Hp1 & Hc1).
      unfold bind at 1. rewrite Hrun1.
      set (answers := items_or_empty data).
      destruct (truthy_boolean includeComments) eqn:Hic.
      * destruct (payload_of (comments_api E (length (calls w1))
                    (comments_request E (Question.question_id question))))
          as [cdata|] eqn:Hcdata; [|now destruct (comments_healthy _ _ Hcdata)].
        destruct (fetchComments_ok E fuel fuel_enough _ w1 cdata Hp1 Hcdata)
          as (w2 & Hrun2 & Hp2 & Hc2).
        destruct (fetchAnswerComments_ok answers [] w2 Hp2)
          as (ofAnswers & w3 & Hrun3 & Hp3 & Hc3 & Hkeys & Hlen).
        unfold bind at 1. unfold bind at 1. rewrite Hrun2.
        unfold bind at 1. rewrite Hrun3. unfold ret at 1.
        set (r := {| Result.question := question;
                     Result.answers := answers;
                     Result.comments :=
                       Some {| Comments.question := items_or_empty cdata;
                               Comments.answers := ofAnswers |} |}).
        destruct (IH (results ++ [r])%list w3 Hp3)
          as (new & w' & Hrun & Hp' & Hq & Hc' & Hb & Hfrom).
        exists (r :: new), w'. split; [|split; [exact Hp'|split; [|split; [|split]]]].
        -- transitivity (Return ((results ++ [r]) ++ new)%list w'); [exact Hrun|].
           now rewrite <- List.app_assoc.
        -- cbn [map]. now rewrite Hq.
        -- rewrite Hc', Hc3, Hc2, Hc1. cbn [flat_map result_requests].
           unfold r. cbn [Result.question Result.answers].
           rewrite <- !List.app_assoc. reflexivity.
        -- constructor; [|exact Hb]. unfold bundle_matches, r.
           cbn [Result.comments Result.answers Comments.answers].
           split; [reflexivity|]. split.
           ++ intros id. rewrite Hkeys. cbn [map In]. tauto.
           ++ intros Hnodup. rewrite Hlen; [reflexivity|exact Hnodup|].
              intros id _ [].
        -- constructor; [|exact Hfrom].
           exists (length (calls w)),
             (answers_request E (Question.question_id question)), data.
           now split.
      * unfold bind at 1. unfold ret at 1. cbv beta iota.
        set (r := {| Result.question := question;
                     Result.answers := answers;
                     Result.comments := None |}).
        destruct (IH (results ++ [r])%list w1 Hp1)
          as (new & w' & Hrun & Hp' & Hq & Hc' & Hb & Hfrom).
        exists (r :: new), w'. split; [|split; [exact Hp'|split; [|split; [|split]]]].
        -- transitivity (Return ((results ++ [r]) ++ new)%list w'); [exact Hrun|].
           now rewrite <- List.app_assoc.
        -- cbn [map]. now rewrite Hq.
        -- rewrite Hc', Hc1. cbn [flat_map result_requests].
           unfold r. cbn [Result.question].
           rewrite <- !List.app_assoc. reflexivity.
        -- constructor; [|exact Hb]. reflexivity.
        -- constructor; [|exact Hfrom].
           exists (length (calls w)),
             (answers_request E (Question.question_id question)), data.
           now split.
Qed.

Lemma searchStackOverflow_ok (query : string) (tags : option (list string))
  (options : SearchOptions) (w : World) (data : Payload StackOverflowQuestion)
  (questions : list StackOverflowQuestion) :
  timestamps_in_past w ->
  payload_of (questions_api E (length (calls w))
                (search_request E query tags (Options.limit options))) = Some data ->
  items data = Some questions ->
  exists results w',
    searchStackOverflow E fuel query tags options w = Return results w'
    /\ timestamps_in_past w'
    /\ map Result.question results
       = filter (fun q => negb (below_minScore (Options.minScore options) q)) questions
    /\ calls w'
       = (calls w
          ++ search_request E query tags (Options.limit options)
             :: flat_map (result_requests E
                            (truthy_boolean (Options.includeComments options)))
                  results)%list
    /\ Forall (bundle_matches (truthy_boolean (Options.includeComments options)))
         results
    /\ Forall (answers_from_remote E) results.
Proof.
  intros Hw Hdata Hitems.
  destruct (payload_of_resolved _ data Hdata) as (response & Hapi & Hok & Hjson).
  destruct (rate_limited_fetch_resolved E fuel (questions_api E) _ w response Hw
              fuel_enough Hapi) as (w1 & Hrun1 & Hp1 & Hc1).
  destruct (composeResults_ok (Options.minScore options)
              (Options.includeComments options) questions [] w1 Hp1)
    as (results & w' & Hrun & Hp' & Hq & Hc' & Hb & Hfrom).
  exists results, w'. split; [|split; [exact Hp'|split; [exact Hq|split; [|now split]]]].
  - unfold searchStackOverflow, try_catch, bind. rewrite Hrun1, Hok. cbn [negb].
    unfold response_json. rewrite Hjson. unfold ret at 1.
    unfold iterate_items. rewrite Hitems. unfold ret at 1. now rewrite Hrun.
  - rewrite Hc', Hc1, <- List.app_assoc. reflexivity.
Qed.

Lemma filter_all {A : Type} (f : A -> bool) (l : list A) :
  Forall (fun x => f x = true) l -> filter f l = l.
Proof.
  induction 1 as [|x l Hx _ IH]; simpl; [reflexivity|]. now rewrite Hx, IH.
Qed.

Lemma answer_ids_all_defined (answers : list StackOverflowAnswer) :
  Forall (fun a => Answer.answer_id a <> None) answers ->
  length (answer_ids answers) = length answers.
Proof.
  unfold answer_ids. induction 1 as [|a l Ha _ IH]; cbn [flat_map length];
    [reflexivity|].
  destruct (Answer.answer_id a); [|now destruct Ha].
  cbn [app length]. now rewrite IH.
Qed.

Lemma count_requests_app (p : Request -> bool) (l1 l2 : list Request) :
  count_requests p (l1 ++ l2) = (count_requests p l1 + count_requests p l2)%nat.
Proof. unfold count_requests. now rewrite filter_app, length_app. Qed.

Lemma count_comments_requests (ids : list Z) :
  count_requests is_comments_fetch (map (comments_request E) ids) = length ids
  /\ count_requests is_answers_fetch (map (comments_request E) ids) = 0%nat
  /\ count_requests is_search (map (comments_request E) ids) = 0%nat.
Proof.
  unfold count_requests. induction ids as [|id ids (IH1 & IH2 & IH3)];
    [now repeat split|].
  cbn [map filter is_comments_fetch is_answers_fetch is_search comments_request
       endpoint length].
  now rewrite IH1, IH2, IH3.
Qed.

Lemma count_one_result_requests (r : SearchResult) :
  let requests := result_requests E true r in
  length requests = S (S (length (answer_ids (Result.answers r))))
  /\ count_requests is_search requests = 0%nat
  /\ count_requests is_answers_fetch requests = 1%nat
  /\ count_requests is_comments_fetch requests
     = S (length (answer_ids (Result.answers r))).
Proof.
  destruct (count_comments_requests (answer_ids (Result.answers r)))
    as (Hc1 & Hc2 & Hc3).
  unfold count_requests in *. unfold result_requests.
  cbn [filter is_search is_answers_fetch is_comments_fetch answers_request
       comments_request endpoint length].
  now rewrite length_map, Hc1, Hc2, Hc3.
Qed.

(** Counting the requests of the results when comments are included and every
    answer has an id. *)
Lemma count_result_requests (results : list SearchResult) :
  Forall (fun r => length (answer_ids (Result.answers r))
                   = length (Result.answers r)) results ->
  let requests := flat_map (result_requests E true) results in
  length requests = (length results + length results + total_answers results)%nat
  /\ count_requests is_search requests = 0%nat
  /\ count_requests is_answers_fetch requests = length results
  /\ count_requests is_comments_fetch requests
     = (length results + total_answers results)%nat.
Proof.
  unfold total_answers.
  induction 1 as [|r results Hr _ (IH1 & IH2 & IH3 & IH4)];
    [now repeat split|].
  destruct (count_one_result_requests r) as (H1 & H2 & H3 & H4).
  cbn [flat_map map length]. unfold list_sum in *. cbn [fold_right].
  rewrite !count_requests_app, !length_app, IH1, IH2, IH3, IH4, H1, H2, H3, H4, Hr.
  repeat split; lia.
Qed.


End Aggregator.

(** ** The response formatter: JSON round trip *)

Section JsonRoundTrip.

Local Open Scope nat_scope.
Local Open Scope string_scope.

Lemma append_assoc (a b c : string) : (a ++ b) ++ c = a ++ (b ++ c).
Proof. induction a as [|x a IH]; simpl; [reflexivity|]. now rewrite IH. Qed.

Lemma append_nil_r (a : string) : a ++ "" = a.
Proof. induction a as [|x a IH]; simpl; [reflexivity|]. now rewrite IH. Qed.

Lemma length_append (a b : string) :
  String.length (a ++ b) = (String.length a + String.length b)%nat.
Proof. induction a as [|x a IH]; simpl; [reflexivity|]. now rewrite IH. Qed.

(** *** Numbers *)

Lemma read_digits_string_of_uint (d : Decimal.uint) (rest : string) :
  ends_number rest ->
  read_digits (NilEmpty.string_of_uint d ++ rest) = (d, rest).
Proof.
  intros Hrest. induction d; cbn [NilEmpty.string_of_uint append read_digits];
    try (rewrite IHd; reflexivity).
  destruct rest as [|c rest]; [reflexivity|].
  cbn [read_digits]. cbn [ends_number] in Hrest. now rewrite Hrest.
Qed.

Lemma to_uint_normal (p : positive) : Decimal.unorm (Pos.to_uint p) = Pos.to_uint p.
Proof.
  rewrite <- (DecimalPos.Unsigned.to_of (Pos.to_uint p)).
  now rewrite DecimalPos.Unsigned.of_to.
Qed.

Lemma uint_beq_refl (d : Decimal.uint) : Decimal.uint_beq d d = true.
Proof. induction d; simpl; auto. Qed.

Lemma read_natural_positive (p : positive) (rest : string) :
  ends_number rest ->
  read_natural (NilEmpty.string_of_uint (Pos.to_uint p) ++ rest)
  = Some (Zpos p, rest).
Proof.
  intros Hrest. unfold read_natural. rewrite (read_digits_string_of_uint _ _ Hrest).
  rewrite to_uint_normal, uint_beq_refl.
  assert (Hval : Z.of_uint (Pos.to_uint p) = Zpos p).
  { unfold Z.of_uint. now rewrite DecimalPos.Unsigned.of_to. }
  rewrite Hval.
  pose proof (DecimalPos.Unsigned.to_uint_nonnil p) as Hnil.
  destruct (Pos.to_uint p); [now destruct Hnil|reflexivity..].
Qed.

Lemma string_of_uint_head (d : Decimal.uint) :
  d <> Decimal.Nil ->
  exists c s, NilEmpty.string_of_uint d = String c s /\ digit_of c <> None.
Proof.
  destruct d; [intros H; now destruct H|..]; intros _;
    cbn [NilEmpty.string_of_uint]; eexists; eexists; (split; [reflexivity|discriminate]).
Qed.

Lemma Number_toString_head (n : Z) :
  exists c s, Number_toString n = String c s /\ starts_number c.
Proof.
  unfold Number_toString, starts_number. destruct n as [|p|p]; cbn [Z.to_int].
  - exists "0"%char, "". split; [reflexivity|right; discriminate].
  - destruct (string_of_uint_head (Pos.to_uint p)
                (DecimalPos.Unsigned.to_uint_nonnil p)) as (c & s & -> & Hc).
    exists c, s. split; [reflexivity|now right].
  - eexists. eexists. split; [reflexivity|now left].
Qed.

Lemma digit_is_not_minus (c : ascii) :
  digit_of c <> None -> (c =? "-")%char = false.
Proof.
  destruct (Ascii.eqb_spec c "-"%char) as [->|]; [|reflexivity].
  intros H. now destruct H.
Qed.

Lemma parse_number_Number_toString (n : Z) (rest : string) :
  ends_number rest ->
  parse_number (Number_toString n ++ rest) = Some (JNum n, rest).
Proof.
  intros Hrest. unfold Number_toString. destruct n as [|p|p]; cbn [Z.to_int].
  - cbn [NilEmpty.string_of_uint append]. unfold parse_number.
    change (String "0" rest)
      with (NilEmpty.string_of_uint (Decimal.D0 Decimal.Nil) ++ rest).
    unfold read_natural. rewrite (read_digits_string_of_uint _ _ Hrest).
    reflexivity.
  - destruct (string_of_uint_head (Pos.to_uint p)
                (DecimalPos.Unsigned.to_uint_nonnil p)) as (c & s & Heq & Hc).
    pose proof (read_natural_positive p rest Hrest) as Hread.
    rewrite Heq in *. cbn [append] in *. unfold parse_number.
    now rewrite (digit_is_not_minus c Hc), Hread.
  - cbn [append]. unfold parse_number. cbn [Ascii.eqb Bool.eqb].
    now rewrite (read_natural_positive p rest Hrest).
Qed.

(** *** Strings *)

Lemma parse_quoted_char (c : ascii) (tail : string) :
  parse_string_body (quote_char c ++ tail) = prepend c (parse_string_body tail).
Proof.
  destruct c as [[|] [|] [|] [|] [|] [|] [|] [|]]; reflexivity.
Qed.

Lemma parse_quoted_chars (s rest : string) :
  parse_string_body (quote_chars s ++ String dquote rest) = Some (s, rest).
Proof.
  induction s as [|c s IH]; cbn [quote_chars].
  - reflexivity.
  - rewrite append_assoc, parse_quoted_char, IH. reflexivity.
Qed.

(** *** The first character of a printed value *)

Lemma SerializeJSON_head (indent : string) (v : JSValue) :
  exists c s, SerializeJSON indent v = String c s /\ starts_value c = true.
Proof.
  destruct v as [|[|]|n|s|[|first others]|[|[key first] others]];
    try (eexists; eexists; split; [reflexivity|reflexivity]).
  cbn [SerializeJSON].
  destruct (Number_toString_head n) as (c & s & -> & [->|Hc]).
  - exists "-"%char, s. now split.
  - exists c, s. split; [reflexivity|]. unfold starts_value.
    destruct (digit_of c); [|now destruct Hc]. now rewrite !orb_true_r.
Qed.

Lemma starts_value_not_whitespace (c : ascii) :
  starts_value c = true -> is_whitespace c = false.
Proof.
  destruct c as [[|] [|] [|] [|] [|] [|] [|] [|]]; intros H;
    try discriminate H; reflexivity.
Qed.

(** *** White space *)

Lemma blank_empty : blank "".
Proof. intros s. reflexivity. Qed.

Lemma blank_nl : blank nl.
Proof. intros s. reflexivity. Qed.

Lemma blank_gap : blank gap.
Proof. intros s. reflexivity. Qed.

Lemma blank_space : blank " ".
Proof. intros s. reflexivity. Qed.

Lemma blank_append (a b : string) : blank a -> blank b -> blank (a ++ b).
Proof. intros Ha Hb s. now rewrite append_assoc, Ha, Hb. Qed.

Lemma skip_whitespace_head (c : ascii) (s : string) :
  is_whitespace c = false -> skip_whitespace (String c s) = String c s.
Proof. intros H. cbn [skip_whitespace]. now rewrite H. Qed.

Lemma parse_value_skip (fuel : nat) (pre s : string) :
  blank pre -> parse_value fuel (pre ++ s) = parse_value fuel s.
Proof. intros Hpre. destruct fuel; [reflexivity|]. cbn [parse_value]. now rewrite Hpre. Qed.

Lemma parse_elements_skip (fuel : nat) (pre s : string) :
  blank pre -> parse_elements fuel (pre ++ s) = parse_elements fuel s.
Proof.
  intros Hpre. destruct fuel; [reflexivity|]. cbn [parse_elements].
  now rewrite (parse_value_skip fuel pre s Hpre).
Qed.

Lemma parse_members_skip (fuel : nat) (pre s : string) :
  blank pre -> parse_members fuel (pre ++ s) = parse_members fuel s.
Proof. intros Hpre. destruct fuel; [reflexivity|]. cbn [parse_members]. now rewrite Hpre. Qed.

(** *** Dispatch on the first character *)

Lemma number_dispatch (c : ascii) (s : string) (fuel : nat) :
  starts_number c ->
  parse_value (S fuel) (String c s) = parse_number (String c s).
Proof.
  intros Hc. cbn [parse_value].
  assert (Hfacts : is_whitespace c = false
                   /\ (c =? "n")%char = false /\ (c =? "t")%char = false
                   /\ (c =? "f")%char = false /\ (c =? dquote)%char = false
                   /\ (c =? "[")%char = false /\ (c =? "{")%char = false).
  { destruct Hc as [->|Hc]; [now repeat split|].
    destruct c as [[|] [|] [|] [|] [|] [|] [|] [|]];
      try (now destruct Hc); now repeat split. }
  destruct Hfacts as (Hw & H1 & H2 & H3 & H4 & H5 & H6).
  rewrite (skip_whitespace_head c s Hw), H1, H2, H3, H4, H5, H6. reflexivity.
Qed.

Lemma starts_value_not_closing (c : ascii) :
  starts_value c = true ->
  (c =? "]")%char = false /\ (c =? "}")%char = false.
Proof.
  destruct c as [[|] [|] [|] [|] [|] [|] [|] [|]]; intros H;
    try discriminate H; now split.
Qed.

(** *** Unfolding the printer *)

Lemma more_elements_eq (deeper : string) (l : list JSValue) :
  (fix more (l : list JSValue) : string :=
     match l with
     | [] => ""
     | element :: l' =>
         "," ++ nl ++ deeper ++ SerializeJSON deeper element ++ more l'
     end) l
  = serialize_more_elements deeper l.
Proof. induction l as [|e l IH]; [reflexivity|]. cbn [serialize_more_elements]. now rewrite <- IH. Qed.

Lemma more_members_eq (deeper : string) (l : list (string * JSValue)) :
  (fix more (l : list (string * JSValue)) : string :=
     match l with
     | [] => ""
     | (k, v) :: l' =>
         "," ++ nl ++ deeper ++ QuoteJSONString k ++ ": "
         ++ SerializeJSON deeper v ++ more l'
     end) l
  = serialize_more_members deeper l.
Proof.
  induction l as [|[k v] l IH]; [reflexivity|].
  cbn [serialize_more_members]. now rewrite <- IH.
Qed.

Lemma SerializeJSON_array (indent : string) (first : JSValue) (others : list JSValue) :
  SerializeJSON indent (JArr (first :: others))
  = "[" ++ nl ++ (indent ++ gap) ++ SerializeJSON (indent ++ gap) first
    ++ serialize_more_elements (indent ++ gap) others ++ nl ++ indent ++ "]".
Proof. cbn [SerializeJSON]. now rewrite more_elements_eq. Qed.

Lemma SerializeJSON_object (indent key : string) (first : JSValue)
  (others : list (string * JSValue)) :
  SerializeJSON indent (JObj ((key, first) :: others))
  = "{" ++ nl ++ (indent ++ gap) ++ QuoteJSONString key ++ ": "
    ++ SerializeJSON (indent ++ gap) first
    ++ serialize_more_members (indent ++ gap) others ++ nl ++ indent ++ "}".
Proof. cbn [SerializeJSON]. now rewrite more_members_eq. Qed.

(** *** Objects without repeated keys are built as written *)

Lemma object_set_new (key : string) (value : JSValue)
  (members : list (string * JSValue)) :
  ~ In key (map fst members) ->
  object_set key value members = (members ++ [(key, value)])%list.
Proof.
  induction members as [|[k v] rest IH]; cbn [object_set map fst In app];
    intros Hnew; [reflexivity|].
  destruct (String.eqb_spec k key) as [->|Hneq].
  - exfalso. apply Hnew. now left.
  - rewrite IH; [reflexivity|]. intros Hin. apply Hnew. now right.
Qed.

Lemma build_members (members : list (string * JSValue)) :
  forall built,
    NoDup (map fst built ++ map fst members)%list ->
    fold_left (fun object m => object_set (fst m) (snd m) object) members built
    = (built ++ members)%list.
Proof.
  induction members as [|[k v] rest IH]; intros built Hnodup; cbn [fold_left fst snd].
  - now rewrite List.app_nil_r.
  - cbn [map fst] in Hnodup.
    rewrite object_set_new.
    + rewrite IH.
      * now rewrite <- List.app_assoc.
      * rewrite map_app. cbn [map fst]. now rewrite <- List.app_assoc.
    + apply NoDup_remove_2 in Hnodup. intros Hin. apply Hnodup.
      apply in_or_app. now left.
Qed.

Lemma build_object_distinct (members : list (string * JSValue)) :
  NoDup (map fst members) -> build_object members = JObj members.
Proof. intros H. unfold build_object. now rewrite (build_members members [] H). Qed.

Lemma JSValue_induction (P : JSValue -> Prop) :
  P JNull -> (forall b, P (JBool b)) -> (forall n, P (JNum n)) ->
  (forall s, P (JStr s)) ->
  (forall elements, Forall P elements -> P (JArr elements)) ->
  (forall members, Forall (fun m => P (snd m)) members -> P (JObj members)) ->
  forall value, P value.
Proof.
  intros Hnull Hbool Hnum Hstr Harr Hobj.
  fix IH 1. intros [|b|n|s|elements|members].
  - exact Hnull.
  - apply Hbool.
  - apply Hnum.
  - apply Hstr.
  - apply Harr.
    exact ((fix all (l : list JSValue) : Forall P l :=
              match l with
              | [] => Forall_nil P
              | e :: l' => Forall_cons e (IH e) (all l')
              end) elements).
  - apply Hobj.
    exact ((fix all (l : list (string * JSValue)) : Forall (fun m => P (snd m)) l :=
              match l with
              | [] => Forall_nil _
              | m :: l' => Forall_cons m (IH (snd m)) (all l')
              end) members).
Qed.

Lemma keys_distinct_array (elements : list JSValue) :
  keys_distinct (JArr elements) <-> Forall keys_distinct elements.
Proof.
  cbn [keys_distinct]. induction elements as [|e l IH].
  - split; [constructor|trivial].
  - rewrite IH. split.
    + intros [He Hl]. now constructor.
    + intros H. inversion H; subst. now split.
Qed.

Lemma keys_distinct_object (members : list (string * JSValue)) :
  keys_distinct (JObj members)
  <-> NoDup (map fst members) /\ Forall (fun m => keys_distinct (snd m)) members.
Proof.
  cbn [keys_distinct].
  assert (Hall : (fix all (l : list (string * JSValue)) : Prop :=
                    match l with
                    | [] => True
                    | (_, v) :: l' => keys_distinct v /\ all l'
                    end) members
                 <-> Forall (fun m => keys_distinct (snd m)) members).
  { induction members as [|[k v] l IH].
    - split; [constructor|trivial].
    - rewrite IH. split.
      + intros [He Hl]. now constructor.
      + intros H. inversion H; subst. now split. }
  now rewrite Hall.
Qed.

Lemma nodes_array (elements : list JSValue) :
  nodes (JArr elements) = S (elements_nodes elements).
Proof.
  cbn [nodes]. f_equal. unfold elements_nodes.
  induction elements as [|e l IH]; [reflexivity|].
  cbn [map list_sum fold_right]. unfold list_sum in IH. now rewrite IH.
Qed.

Lemma nodes_object (members : list (string * JSValue)) :
  nodes (JObj members) = S (members_nodes members).
Proof.
  cbn [nodes]. f_equal. unfold members_nodes.
  induction members as [|[k v] l IH]; [reflexivity|].
  cbn [map list_sum fold_right snd]. unfold list_sum in IH. now rewrite IH.
Qed.

Lemma array_dispatch (fuel : nat) (text : string) :
  parse_value (S fuel) (String "[" text)
  = match skip_whitespace text with
    | String c rest =>
        if (c =? "]")%char then Some (JArr [], rest)
        else option_map (fun er => (JArr (fst er), snd er))
               (parse_elements fuel text)
    | EmptyString => None
    end.
Proof. reflexivity. Qed.

Lemma object_dispatch (fuel : nat) (text : string) :
  parse_value (S fuel) (String "{" text)
  = match skip_whitespace text with
    | String c rest =>
        if (c =? "}")%char then Some (JObj [], rest)
        else option_map (fun mr => (build_object (fst mr), snd mr))
               (parse_members fuel text)
    | EmptyString => None
    end.
Proof. reflexivity. Qed.

Lemma string_dispatch (fuel : nat) (text : string) :
  parse_value (S fuel) (String dquote text)
  = option_map (fun sr => (JStr (fst sr), snd sr)) (parse_string_body text).
Proof. reflexivity. Qed.

Lemma parse_elements_unfold (fuel : nat) (text : string) :
  parse_elements (S fuel) text
  = match parse_value fuel text with
    | None => None
    | Some (value, rest) =>
        match skip_whitespace rest with
        | String c rest' =>
            if (c =? ",")%char then
              option_map (fun er => (value :: fst er, snd er))
                (parse_elements fuel rest')
            else if (c =? "]")%char then Some ([value], rest')
            else None
        | EmptyString => None
        end
    end.
Proof. reflexivity. Qed.

Lemma parse_members_unfold (fuel : nat) (text : string) :
  parse_members (S fuel) text
  = match skip_whitespace text with
    | String c rest =>
        match (if (c =? dquote)%char then parse_string_body rest else None) with
        | None => None
        | Some (key, rest1) =>
            match skip_whitespace rest1 with
            | String c1 rest2 =>
                match (if (c1 =? ":")%char then parse_value fuel rest2 else None) with
                | None => None
                | Some (value, rest3) =>
                    match skip_whitespace rest3 with
                    | String c3 rest4 =>
                        if (c3 =? ",")%char then
                          option_map (fun mr => ((key, value) :: fst mr, snd mr))
                            (parse_members fuel rest4)
                        else if (c3 =? "}")%char then Some ([(key, value)], rest4)
                        else None
                    | EmptyString => None
                    end
                end
            | EmptyString => None
            end
        end
    | EmptyString => None
    end.
Proof. reflexivity. Qed.

Lemma parse_elements_serialized (deeper closing rest : string) :
  blank deeper ->
  ends_number closing ->
  skip_whitespace closing = String "]" rest ->
  forall others first fuel,
    Forall parses_back (first :: others) ->
    Forall keys_distinct (first :: others) ->
    (elements_nodes (first :: others) <= fuel)%nat ->
    parse_elements fuel
      (nl ++ deeper ++ SerializeJSON deeper first
       ++ serialize_more_elements deeper others ++ closing)
    = Some (first :: others, rest).
Proof.
  intros Hdeeper Hclosing Hskip.
  induction others as [|second others IH]; intros first fuel Hback Hkeys Hfuel;
    apply Forall_cons_iff in Hback; destruct Hback as [Hfirst Hback'];
    apply Forall_cons_iff in Hkeys; destruct Hkeys as [Hkfirst Hkeys'];
    unfold elements_nodes in Hfuel; cbn [map list_sum fold_right] in Hfuel;
    (destruct fuel as [|fuel]; [lia|]);
    rewrite parse_elements_unfold;
    rewrite (parse_value_skip fuel nl _ blank_nl),
      (parse_value_skip fuel deeper _ Hdeeper).
  - cbn [serialize_more_elements append].
    rewrite (Hfirst Hkfirst deeper closing fuel Hdeeper Hclosing) by lia.
    rewrite Hskip. reflexivity.
  - cbn [serialize_more_elements].
    rewrite (Hfirst Hkfirst deeper _ fuel Hdeeper); [|reflexivity|lia].
    rewrite !append_assoc.
    cbn [append skip_whitespace is_whitespace Ascii.eqb Bool.eqb orb andb].
    change (String newline ?x) with (nl ++ x).
    rewrite (IH second fuel Hback' Hkeys').
    + reflexivity.
    + unfold elements_nodes. cbn [map list_sum fold_right]. lia.
Qed.

Lemma parse_members_serialized (deeper closing rest : string) :
  blank deeper ->
  ends_number closing ->
  skip_whitespace closing = String "}" rest ->
  forall others key first fuel,
    Forall (fun m => parses_back (snd m)) ((key, first) :: others) ->
    Forall (fun m => keys_distinct (snd m)) ((key, first) :: others) ->
    (members_nodes ((key, first) :: others) <= fuel)%nat ->
    parse_members fuel
      (nl ++ deeper ++ QuoteJSONString key ++ ": " ++ SerializeJSON deeper first
       ++ serialize_more_members deeper others ++ closing)
    = Some ((key, first) :: others, rest).
Proof.
  intros Hdeeper Hclosing Hskip.
  induction others as [|[key2 second] others IH]; intros key first fuel Hback Hkeys Hfuel;
    apply Forall_cons_iff in Hback; destruct Hback as [Hfirst Hback'];
    apply Forall_cons_iff in Hkeys; destruct Hkeys as [Hkfirst Hkeys'];
    cbn [snd] in Hfirst, Hkfirst;
    unfold members_nodes in Hfuel; cbn [map list_sum fold_right snd] in Hfuel;
    (destruct fuel as [|fuel]; [lia|]);
    rewrite (parse_members_skip (S fuel) nl _ blank_nl),
      (parse_members_skip (S fuel) deeper _ Hdeeper);
    rewrite parse_members_unfold; unfold QuoteJSONString;
    cbn [append skip_whitespace is_whitespace Ascii.eqb Bool.eqb orb andb dquote];
    fold dquote; rewrite append_assoc; cbn [append];
    rewrite parse_quoted_chars;
    cbn [append skip_whitespace is_whitespace Ascii.eqb Bool.eqb orb andb];
    change (String " " ?x) with (" " ++ x);
    rewrite (parse_value_skip fuel " " _ blank_space).
  - cbn [serialize_more_members append].
    rewrite (Hfirst Hkfirst deeper closing fuel Hdeeper Hclosing) by lia.
    rewrite Hskip. reflexivity.
  - cbn [serialize_more_members].
    rewrite (Hfirst Hkfirst deeper _ fuel Hdeeper); [|reflexivity|lia].
    rewrite !append_assoc.
    cbn [append skip_whitespace is_whitespace Ascii.eqb Bool.eqb orb andb].
    change (String newline ?x) with (nl ++ x).
    assert (Hrest : (members_nodes ((key2, second) :: others) <= fuel)%nat)
      by (unfold members_nodes; cbn [map list_sum fold_right snd]; lia).
    specialize (IH key2 second fuel Hback' Hkeys' Hrest).
    etransitivity; [apply (f_equal (option_map _)); exact IH|reflexivity].
Qed.

Lemma skip_to_printed (indent rest : string) (value : JSValue) :
  exists c s,
    skip_whitespace (SerializeJSON indent value ++ rest) = String c s
    /\ starts_value c = true.
Proof.
  destruct (SerializeJSON_head indent value) as (c & s & Heq & Hc).
  exists c, (s ++ rest). rewrite Heq. cbn [append].
  split; [|exact Hc].
  apply skip_whitespace_head. now apply starts_value_not_whitespace.
Qed.

(** Parsing what [SerializeJSON] printed gives the value back. *)
Lemma parse_serialized (value : JSValue) : parses_back value.
Proof.
  induction value as [|b|n|s|elements IH|members IH] using JSValue_induction;
    intros Hkeys indent rest fuel Hindent Hrest Hfuel.
  - destruct fuel as [|fuel]; [cbn in Hfuel; lia|]. reflexivity.
  - destruct fuel as [|fuel]; [cbn in Hfuel; lia|]. destruct b; reflexivity.
  - destruct fuel as [|fuel]; [cbn in Hfuel; lia|]. cbn [SerializeJSON].
    pose proof (parse_number_Number_toString n rest Hrest) as Hparse.
    destruct (Number_toString_head n) as (c & text & Heq & Hc).
    rewrite Heq in *. cbn [append] in *.
    now rewrite (number_dispatch c _ fuel Hc).
  - destruct fuel as [|fuel]; [cbn in Hfuel; lia|]. cbn [SerializeJSON].
    unfold QuoteJSONString. cbn [append]. rewrite string_dispatch.
    rewrite append_assoc. cbn [append]. rewrite parse_quoted_chars. reflexivity.
  - rewrite nodes_array in Hfuel. apply keys_distinct_array in Hkeys.
    destruct fuel as [|fuel]; [lia|].
    destruct elements as [|first others]; [reflexivity|].
    rewrite SerializeJSON_array.
    pose proof (blank_append _ _ Hindent blank_gap) as Hdeeper.
    set (deeper := indent ++ gap) in *. clearbody deeper.
    rewrite !append_assoc.
    change ("[" ++ ?x) with (String "[" x).
    rewrite array_dispatch.
    rewrite (blank_nl _), (Hdeeper _).
    destruct (skip_to_printed deeper
                (serialize_more_elements deeper others
                 ++ nl ++ indent ++ "]" ++ rest) first) as (c & text & -> & Hc).
    destruct (starts_value_not_closing c Hc) as (-> & _).
    rewrite (parse_elements_serialized deeper (nl ++ indent ++ "]" ++ rest)
               rest Hdeeper); try assumption.
    + reflexivity.
    + reflexivity.
    + now rewrite (blank_nl _), (Hindent _).
    + lia.
  - rewrite nodes_object in Hfuel. apply keys_distinct_object in Hkeys.
    destruct Hkeys as (Hnodup & Hkeys).
    destruct fuel as [|fuel]; [lia|].
    destruct members as [|[key first] others]; [reflexivity|].
    rewrite SerializeJSON_object.
    pose proof (blank_append _ _ Hindent blank_gap) as Hdeeper.
    set (deeper := indent ++ gap) in *. clearbody deeper.
    assert (Hmembers :
              parse_members fuel
                (nl ++ deeper ++ QuoteJSONString key ++ ": "
                 ++ SerializeJSON deeper first
                 ++ serialize_more_members deeper others
                 ++ nl ++ indent ++ "}" ++ rest)
              = Some ((key, first) :: others, rest)).
    { apply (parse_members_serialized deeper
               (nl ++ indent ++ "}" ++ rest) rest Hdeeper); try assumption.
      - reflexivity.
      - now rewrite (blank_nl _), (Hindent _).
      - lia. }
    rewrite !append_assoc.
    change ("{" ++ ?x) with (String "{" x).
    rewrite object_dispatch.
    rewrite (blank_nl _), (Hdeeper _).
    change (QuoteJSONString key ++ ?x)
      with (String dquote ((quote_chars key ++ String dquote "") ++ x)) at 1.
    cbn [skip_whitespace is_whitespace Ascii.eqb Bool.eqb orb andb dquote].
    etransitivity; [apply (f_equal (option_map _)); exact Hmembers|].
    cbn [option_map fst snd]. now rewrite build_object_distinct.
Qed.

(** *** The recursion depth is bounded by the length of the text *)

Lemma more_elements_length (deeper : string) (l : list JSValue) :
  Forall (fun e => forall indent,
              (nodes e <= String.length (SerializeJSON indent e))%nat) l ->
  (elements_nodes l <= String.length (serialize_more_elements deeper l))%nat.
Proof.
  unfold elements_nodes. induction 1 as [|e l He _ IH];
    cbn [map list_sum fold_right serialize_more_elements]; [lia|].
  rewrite !length_append. specialize (He deeper). unfold list_sum in IH.
  cbn [String.length]. lia.
Qed.

Lemma more_members_length (deeper : string) (l : list (string * JSValue)) :
  Forall (fun m => forall indent,
              (nodes (snd m) <= String.length (SerializeJSON indent (snd m)))%nat) l ->
  (members_nodes l <= String.length (serialize_more_members deeper l))%nat.
Proof.
  unfold members_nodes. induction 1 as [|[k v] l He _ IH];
    cbn [map list_sum fold_right serialize_more_members snd]; [lia|].
  rewrite !length_append. specialize (He deeper). cbn [snd] in He.
  unfold list_sum in IH. cbn [String.length]. lia.
Qed.

Lemma nodes_le_length (value : JSValue) :
  forall indent, (nodes value <= String.length (SerializeJSON indent value))%nat.
Proof.
  induction value as [|b|n|s|elements IH|members IH] using JSValue_induction;
    intros indent.
  - cbn. lia.
  - destruct b; cbn; lia.
  - cbn [SerializeJSON nodes].
    destruct (Number_toString_head n) as (c & text & -> & _). cbn. lia.
  - cbn. lia.
  - rewrite nodes_array. destruct elements as [|first others]; [cbn; lia|].
    rewrite SerializeJSON_array, !length_append.
    apply Forall_cons_iff in IH. destruct IH as [Hfirst Hothers].
    pose proof (more_elements_length (indent ++ gap) others Hothers).
    specialize (Hfirst (indent ++ gap)).
    unfold elements_nodes in *. cbn [map list_sum fold_right String.length]. 
    unfold list_sum in *. cbn [String.length nl]. lia.
  - rewrite nodes_object. destruct members as [|[key first] others]; [cbn; lia|].
    rewrite SerializeJSON_object, !length_append.
    apply Forall_cons_iff in IH. destruct IH as [Hfirst Hothers].
    pose proof (more_members_length (indent ++ gap) others Hothers).
    specialize (Hfirst (indent ++ gap)). cbn [snd] in Hfirst.
    unfold members_nodes in *. cbn [map list_sum fold_right String.length snd].
    unfold list_sum in *. cbn [String.length nl]. lia.
Qed.

(** [JSON.parse(JSON.stringify(value, null, 2))] is [value]. *)
Lemma JSON_parse_stringify (value : JSValue) :
  keys_distinct value -> JSON_parse (JSON_stringify value) = Some value.
Proof.
  intros Hkeys. unfold JSON_parse, JSON_stringify.
  pose proof (parse_serialized value Hkeys "" ""
                (S (String.length (SerializeJSON "" value)))
                blank_empty I) as Hparse.
  rewrite append_nil_r in Hparse. rewrite Hparse; [reflexivity|].
  pose proof (nodes_le_length value ""). lia.
Qed.

(** *** The values the formatter prints have no repeated keys *)

Lemma Number_toString_injective (a b : Z) :
  Number_toString a = Number_toString b -> a = b.
Proof.
  intros Heq.
  pose proof (parse_number_Number_toString a "" I) as Ha.
  pose proof (parse_number_Number_toString b "" I) as Hb.
  rewrite Heq, Hb in Ha. now injection Ha as ->.
Qed.

Lemma literal_keys_distinct (keys : list string) :
  nodup string_dec keys = keys -> NoDup keys.
Proof. intros <-. apply NoDup_nodup. Qed.

Lemma keys_distinct_strings (l : list string) : keys_distinct (JArr (map JStr l)).
Proof. apply keys_distinct_array. induction l; constructor; [exact I|assumption]. Qed.

Lemma comment_toJS_distinct (c : StackOverflowComment) : keys_distinct (comment_toJS c).
Proof.
  apply keys_distinct_object. split.
  - apply literal_keys_distinct. reflexivity.
  - repeat constructor.
Qed.

Lemma comments_toJS_distinct (l : list StackOverflowComment) :
  keys_distinct (JArr (map comment_toJS l)).
Proof.
  apply keys_distinct_array. induction l; constructor;
    [apply comment_toJS_distinct|assumption].
Qed.

Lemma answer_toJS_distinct (a : StackOverflowAnswer) : keys_distinct (answer_toJS a).
Proof.
  apply keys_distinct_object. unfold answer_toJS, property.
  destruct (Answer.answer_id a); (split;
    [apply literal_keys_distinct; reflexivity|repeat constructor]).
Qed.

Lemma question_toJS_distinct (q : StackOverflowQuestion) :
  keys_distinct (question_toJS q).
Proof.
  apply keys_distinct_object. unfold question_toJS, property.
  destruct (Question.accepted_answer_id q); (split;
    [apply literal_keys_distinct; reflexivity
    |repeat constructor; apply keys_distinct_strings]).
Qed.

Lemma answer_comments_toJS_distinct (object : AnswerComments) :
  NoDup (map fst object) -> keys_distinct (answer_comments_toJS object).
Proof.
  intros Hnodup. apply keys_distinct_object. unfold answer_comments_toJS. split.
  - rewrite map_map. cbn [fst].
    induction object as [|[k v] rest IH]; cbn [map fst]; [constructor|].
    cbn [map fst] in Hnodup. inversion Hnodup as [|? ? Hnew Hrest]; subst.
    constructor; [|now apply IH].
    intros Hin. apply in_map_iff in Hin. destruct Hin as ([k' v'] & Heq & Hin).
    cbn [fst] in Heq. apply Number_toString_injective in Heq. subst k'.
    apply Hnew. apply in_map_iff. now exists (k, v').
  - rewrite Forall_map. cbn [snd]. apply Forall_forall. intros entry _.
    apply comments_toJS_distinct.
Qed.

Lemma result_toJS_distinct (r : SearchResult) :
  match Result.comments r with
  | Some c => NoDup (map fst (Comments.answers c))
  | None => True
  end ->
  keys_distinct (result_toJS r).
Proof.
  intros Hmapping. apply keys_distinct_object. unfold result_toJS, property.
  assert (Hanswers : keys_distinct (JArr (map answer_toJS (Result.answers r)))).
  { apply keys_distinct_array. induction (Result.answers r); constructor;
      [apply answer_toJS_distinct|assumption]. }
  destruct (Result.comments r) as [c|]; (split;
    [apply literal_keys_distinct; reflexivity|]).
  - apply Forall_cons; [apply question_toJS_distinct|].
    apply Forall_cons; [exact Hanswers|].
    apply Forall_cons; [|apply Forall_nil].
    apply keys_distinct_object. split; [apply literal_keys_distinct; reflexivity|].
    apply Forall_cons; [apply comments_toJS_distinct|].
    apply Forall_cons; [now apply answer_comments_toJS_distinct|apply Forall_nil].
  - apply Forall_cons; [apply question_toJS_distinct|].
    apply Forall_cons; [exact Hanswers|apply Forall_nil].
Qed.

Lemma results_toJS_distinct (results : list SearchResult) :
  mappings_are_objects results -> keys_distinct (results_toJS results).
Proof.
  intros Hvalid. apply keys_distinct_array. unfold results_toJS.
  induction Hvalid as [|r l Hr _ IH]; constructor;
    [now apply result_toJS_distinct|assumption].
Qed.

(** *** The aggregator builds its comments mappings as objects *)

Lemma ascending_distinct (l : list Z) : StronglySorted Z.lt l -> NoDup l.
Proof.
  induction 1 as [|x l _ IH Hall]; constructor; [|exact IH].
  intros Hin. rewrite Forall_forall in Hall. specialize (Hall x Hin).
  apply (Z.lt_irrefl x Hall).
Qed.

Lemma fetchAnswerComments_distinct (E : Environment) (fuel : nat)
  (answers : list StackOverflowAnswer) :
  forall answersMap w answersMap' w',
    fetchAnswerComments E fuel answers answersMap w = Return answersMap' w' ->
    NoDup (map fst answersMap) -> NoDup (map fst answersMap').
Proof.
  induction answers as [|answer others IH]; intros answersMap w answersMap' w';
    cbn [fetchAnswerComments].
  - unfold ret. now intros [= <- _].
  - destruct (Answer.answer_id answer) as [id|]; [|apply IH].
    unfold bind at 1. destruct (fetchComments E fuel id w) as [fetched w1|error w1|];
      [|discriminate|discriminate].
    intros Hrun Hdistinct. apply (IH _ _ _ _ Hrun). now apply answers_set_distinct.
Qed.

Lemma composeResults_objects (E : Environment) (fuel : nat) (minScore : option Z)
  (includeComments : option bool) (questions : list StackOverflowQuestion) :
  forall results w results' w',
    composeResults E fuel minScore includeComments questions results w
    = Return results' w' ->
    mappings_are_objects results -> mappings_are_objects results'.
Proof.
  induction questions as [|question others IH]; intros results w results' w';
    cbn [composeResults].
  - unfold ret. now intros [= <- _].
  - destruct (below_minScore minScore question); [apply IH|].
    unfold bind at 1.
    destruct (fetchAnswers E fuel (Question.question_id question) w)
      as [answers w1|error w1|]; [|discriminate|discriminate].
    unfold bind at 1.
    destruct (truthy_boolean includeComments).
    + unfold bind at 1.
      destruct (fetchComments E fuel (Question.question_id question) w1)
        as [ofQuestion w2|error w2|]; [|discriminate|discriminate].
      unfold bind at 1.
      destruct (fetchAnswerComments E fuel answers [] w2)
        as [ofAnswers w3|error w3|] eqn:Hmap; [|discriminate|discriminate].
      unfold ret at 1. intros Hrun Hvalid. apply (IH _ _ _ _ Hrun).
      apply Forall_app. split; [exact Hvalid|]. constructor; [|constructor].
      cbn [Result.comments Comments.answers].
      apply (fetchAnswerComments_distinct E fuel answers [] w2 ofAnswers w3 Hmap).
      constructor.
    + unfold ret at 1. intros Hrun Hvalid. apply (IH _ _ _ _ Hrun).
      apply Forall_app. split; [exact Hvalid|]. constructor; [exact I|constructor].
Qed.

Lemma searchStackOverflow_objects (E : Environment) (fuel : nat) (query : string)
  (tags : option (list string)) (options : SearchOptions) (w w' : World)
  (results : list SearchResult) :
  searchStackOverflow E fuel query tags options w = Return results w' ->
  mappings_are_objects results.
Proof.
  unfold searchStackOverflow, try_catch, bind.
  destruct (rate_limited_fetch E fuel (questions_api E) _ w) as [response w1|error w1|].
  - destruct (negb (ok response)).
    + unfold throw_api_error, bind.
      destruct (response_json response w1) as [data w2|error w2|].
      * unfold throw, rethrow_or_wrap.
        cbn [instanceof_McpError]. discriminate.
      * unfold rethrow_or_wrap. destruct (instanceof_McpError error); discriminate.
      * discriminate.
    + destruct (response_json response w1) as [data w2|error w2|].
      * destruct (iterate_items data w2) as [questions w3|error w3|].
        -- destruct (composeResults E fuel (Options.minScore options)
                       (Options.includeComments options) questions [] w3)
             as [composed w4|error w4|] eqn:Hrun.
           ++ intros [= <- _].
              apply (composeResults_objects E fuel _ _ questions [] w3 composed w4 Hrun).
              constructor.
           ++ unfold rethrow_or_wrap. destruct (instanceof_McpError error); discriminate.
           ++ discriminate.
        -- unfold rethrow_or_wrap. destruct (instanceof_McpError error); discriminate.
        -- discriminate.
      * unfold rethrow_or_wrap. destruct (instanceof_McpError error); discriminate.
      * discriminate.
  - unfold rethrow_or_wrap. destruct (instanceof_McpError error); discriminate.
  - discriminate.
Qed.

(** C7.  For every list of results whose comments mappings are objects (no
    answer id is a key twice, as in every list [searchStackOverflow] returns),
    parsing the text that [formatResponse] produces in json mode yields the
    JavaScript value of the list itself, and json is the default mode.  The
    empty list is printed as the empty array in json mode and as the empty
    string in markdown mode. *)
Theorem formatResponse_round_trip :
  (forall results,
      mappings_are_objects results ->
      JSON_parse (formatResponse results (Some Json)) = Some (results_toJS results))
  /\ (forall E fuel query tags options w w' results,
         searchStackOverflow E fuel query tags options w = Return results w' ->
         mappings_are_objects results)
  /\ (forall results,
         formatResponse results None = formatResponse results (Some Json))
  /\ formatResponse [] (Some Json) = "[]"
  /\ results_toJS [] = JArr []
  /\ formatResponse [] (Some Markdown) = "".
Proof.
  split; [|split; [exact searchStackOverflow_objects|now repeat split]].
  intros results Hvalid. cbn [formatResponse].
  apply JSON_parse_stringify. now apply results_toJS_distinct.
Qed.

End JsonRoundTrip.

Local Open Scope Z_scope.

(** ** Examples: the statements at concrete inputs *)

Lemma initial_world_in_past (t : Z) : timestamps_in_past (initial_world t).
Proof. constructor. Qed.

Lemma sample_answers_healthy (key token : option string)
  (found : list StackOverflowQuestion) :
  healthy (answers_api (sample_environment key token found)).
Proof.
  intros k request. cbn [sample_environment answers_api].
  destruct (endpoint request) as [| |questionId| | | | | |]; try discriminate.
  destruct (questionId =? 1); discriminate.
Qed.

Lemma sample_comments_healthy (key token : option string)
  (found : list StackOverflowQuestion) :
  healthy (comments_api (sample_environment key token found)).
Proof.
  intros k request. cbn [sample_environment comments_api].
  destruct (endpoint request); discriminate.
Qed.

Lemma sample_answers_identified (key token : option string)
  (found : list StackOverflowQuestion) :
  answers_identified (sample_environment key token found).
Proof.
  intros k request data. cbn [sample_environment answers_api].
  assert (Hnone : payload_of (@resolved StackOverflowAnswer None) = Some data ->
                  Forall (fun a => Answer.answer_id a <> None) (items_or_empty data)
                  /\ NoDup (answer_ids (items_or_empty data))).
  { intros [= <-]. split; constructor. }
  destruct (endpoint request) as [| |questionId| | | | | |]; try exact Hnone.
  destruct (questionId =? 1); [|exact Hnone].
  intros [= <-]. cbn. split.
  - repeat constructor; discriminate.
  - repeat constructor; cbn; intuition discriminate.
Qed.

(** Against C1 as stated: without credentials, [post_question] sends the
    duplicate search before it fails with the configuration error. *)
Lemma post_question_searches_before_checking_credentials :
  credentials_missing (sample_environment None None [])
  /\ handlePostQuestion (sample_environment None None []) 124 sample_post_question
       (initial_world 0)
     = Throw credentials_required
         {| now := 0; ticks := 1; requestTimestamps := [0];
            calls := [search_request (sample_environment None None [])
                        "TypeError: mock is not a function" (Some ["jest"])
                        (Some 3)] |}.
Proof. split; [left; reflexivity|vm_compute; reflexivity]. Qed.

(** C1 without credentials: [post_question] fails after reads only and
    [thumbs_up] fails in the state it was called in. *)
Lemma writes_without_credentials_witness :
  fails_issuing is_read (initial_world 0)
    (handlePostQuestion (sample_environment None None []) 124 sample_post_question
       (initial_world 0))
  /\ exists error,
       handleThumbsUp (sample_environment None None []) 124
         {| ThumbsUp.postId := 11; ThumbsUp.confirmedFixed := Some true |}
         (initial_world 0)
       = Throw error (initial_world 0)
       /\ (Some true = Some true -> error = credentials_required).
Proof.
  destruct (writes_without_credentials_never_post
              (sample_environment None None []) 124 (le_n _)
              (or_introl eq_refl)) as (Hpost & _ & _ & Hup & _).
  split.
  - exact (Hpost sample_post_question (initial_world 0) (initial_world_in_past 0)).
  - exact (Hup {| ThumbsUp.postId := 11; ThumbsUp.confirmedFixed := Some true |}
             (initial_world 0)).
Defined.

(** C3 at an operation that is rate limited twice and then succeeds. *)
Lemma withRateLimit_retries_witness :
  exists w',
    withRateLimit itemless_environment 124
      (invoke itemless_environment sample_request twice_rate_limited) 3
      (initial_world 0)
    = Return "success"%string w'
    /\ calls w' = [sample_request; sample_request; sample_request].
Proof.
  destruct (withRateLimit_retries_on_429 itemless_environment) as (Hretry & _ & _).
  exact (Hretry string sample_request twice_rate_limited 124%nat (initial_world 0)
           (JsError "HTTP 429 Too Many Requests" None)
           (JsError "HTTP 429 Too Many Requests" None) "success"%string
           (initial_world_in_past 0) (le_n _) eq_refl eq_refl eq_refl eq_refl eq_refl).
Defined.



(** C5, where the code departs from it and from its own tool description
    ("at least 3 distinct attempted fixes"): the dispatcher only counts the
    strings, so three copies of one approach (a single distinct string) pass
    it, and with credentials and no similar question the question is posted:
    the call returns after the duplicate search and the POST. *)
Lemma repeated_approach_is_posted :
  length (nodup string_dec ["restart"; "restart"; "restart"]%string) = 1%nat
  /\ exists result w',
       callTool (sample_environment (Some "key") (Some "token") []) 124
         "post_question" (Some repeated_approaches) (initial_world 0)
       = Return result w'
       /\ map method (calls w') = [GET; POST].
Proof.
  split; [reflexivity|]. eexists. eexists. split; vm_compute; reflexivity.
Qed.

(** X25 at a call with two approaches and at a call with three. *)
Lemma post_question_gate_witness :
  (exists message,
      callTool (sample_environment None None [sample_question 1 3 2 None]) 124
        "post_question" (Some two_approaches) (initial_world 0)
      = Throw (McpError InvalidParams message) (initial_world 0))
  /\ began_with
       (search_request (sample_environment None None [sample_question 1 3 2 None])
          "TypeError: mock is not a function" (Some ["jest"]) (Some 3))
       (search_traffic false) (initial_world 0)
       (searchStackOverflow (sample_environment None None [sample_question 1 3 2 None])
          124 "TypeError: mock is not a function" (Some ["jest"])
          duplicate_search_options (initial_world 0)).
Proof.
  destruct (post_question_gate
              (sample_environment None None [sample_question 1 3 2 None]) 124 (le_n _))
    as (Hfew & Hmany).
  split.
  - apply (Hfew two_approaches ["restart"; "reinstall"]%string (initial_world 0) eq_refl).
    cbn. lia.
  - apply (Hmany repeated_approaches "Mock fails"%string
             "The mock is never called."%string
             "TypeError: mock is not a function"%string ["jest"%string]
             ["restart"; "restart"; "restart"]%string (initial_world 0)
             eq_refl eq_refl eq_refl eq_refl eq_refl).
    + cbn. lia.
    + exact (initial_world_in_past 0).
Defined.

(** C6 at an unconfirmed solution and at a question with an accepted answer. *)
Lemma post_solution_gate_witness :
  handlePostSolution (sample_environment None None [sample_question 1 3 2 (Some 11)])
    124 (sample_post_solution (Some false) (Some ["test log"%string])) (initial_world 0)
  = Throw not_confirmed_resolved (initial_world 0)
  /\ fails_issuing question_lookup (initial_world 0)
       (handlePostSolution
          (sample_environment None None [sample_question 1 3 2 (Some 11)]) 124
          (sample_post_solution (Some true) (Some ["test log"%string]))
          (initial_world 0)).
Proof.
  split.
  - destruct (post_solution_gate
                (sample_environment None None [sample_question 1 3 2 (Some 11)]) 124
                (le_n _) (sample_post_solution (Some false) (Some ["test log"%string]))
                (initial_world 0) (initial_world_in_past 0)) as (Hnot & _).
    apply Hnot. cbn. discriminate.
  - destruct (post_solution_gate
                (sample_environment None None [sample_question 1 3 2 (Some 11)]) 124
                (le_n _) (sample_post_solution (Some true) (Some ["test log"%string]))
                (initial_world 0) (initial_world_in_past 0)) as (_ & _ & Hgate & _).
    apply Hgate.
    right. right. right. intros question w1 Hfetch.
    vm_compute in Hfetch. injection Hfetch as <- _.
    left. exists 11. split; [reflexivity|discriminate].
Defined.

(** C8, where the code departs from it: with [minScore] set to 0 the guard
    [options.minScore && ...] is falsy, and a question of score -1 is kept. *)
Lemma zero_minScore_keeps_negative_score :
  exists results w',
    searchStackOverflow
      (sample_environment None None [sample_question 1 (-1) 0 None]) 124
      "TypeError" None
      {| Options.minScore := Some 0; Options.limit := None;
         Options.includeComments := None |} (initial_world 0)
    = Return results w'
    /\ map (fun r => Question.score (Result.question r)) results = [-1].
Proof. eexists. eexists. split; vm_compute; reflexivity. Qed.

(** C9 at a remote whose payloads carry no [items]. *)
Lemma missing_items_witness :
  (exists w', fetchAnswers itemless_environment 124 1 (initial_world 0) = Return [] w')
  /\ (exists w', fetchComments itemless_environment 124 1 (initial_world 0) = Return [] w').
Proof.
  destruct (missing_items_give_empty_array itemless_environment 124 (le_n _))
    as (Hanswers & Hcomments).
  split.
  - exact (Hanswers 1 (initial_world 0)
             {| ok := true; status := 200;
                json := inr {| items := None; api_error := no_api_error |} |}
             {| items := None; api_error := no_api_error |}
             (initial_world_in_past 0) eq_refl eq_refl eq_refl eq_refl).
  - exact (Hcomments 1 (initial_world 0)
             {| ok := true; status := 200;
                json := inr {| items := None; api_error := no_api_error |} |}
             {| items := None; api_error := no_api_error |}
             (initial_world_in_past 0) eq_refl eq_refl eq_refl eq_refl).
Defined.

(** C10 at a call whose [postId] and [questionId] are 0. *)
Lemma zero_id_witness :
  callTool itemless_environment 124 "thumbs_up" (Some zero_ids) (initial_world 0)
  = Throw (McpError InvalidParams "postId is required") (initial_world 0)
  /\ callTool itemless_environment 124 "post_solution" (Some zero_ids) (initial_world 0)
     = Throw (McpError InvalidParams "questionId and body are required")
         (initial_world 0)
  /\ callTool itemless_environment 124 "comment_solution" (Some zero_ids)
       (initial_world 0)
     = Throw (McpError InvalidParams "questionId and body are required")
         (initial_world 0).
Proof.
  destruct (zero_id_is_refused itemless_environment 124 zero_ids (initial_world 0))
    as (Hup & Hsolution & Hcomment).
  split; [exact (Hup eq_refl)|]. split; [exact (Hsolution eq_refl)|exact (Hcomment eq_refl)].
Defined.

(** C7 at a result with two answers and their comments. *)
Lemma formatResponse_round_trip_witness :
  mappings_are_objects [sample_result]
  /\ JSON_parse (formatResponse [sample_result] (Some Json))
     = Some (results_toJS [sample_result]).
Proof.
  assert (Hvalid : mappings_are_objects [sample_result]).
  { constructor; [|constructor]. cbn [sample_result Result.comments Comments.answers map fst].
    apply ascending_distinct. repeat constructor. }
  split; [exact Hvalid|].
  exact (proj1 formatResponse_round_trip [sample_result] Hvalid).
Defined.

(** * Further properties of the code *)

(** ** The record of the rate limiter stays within its bound *)

Section RecordBound.

Variable E : Environment.

Lemma checkRateLimit_at_bounded (now : Z) (ts : list Z) :
  (length ts <= MAX_REQUESTS_PER_WINDOW)%nat ->
  (length (snd (checkRateLimit_at now ts)) <= MAX_REQUESTS_PER_WINDOW)%nat.
Proof.
  intros Hts. unfold checkRateLimit_at.
  pose proof (filter_length_le (in_window now) ts) as Hkept.
  destruct (MAX_REQUESTS_PER_WINDOW <=? length (filter (in_window now) ts))%nat eqn:Hfull;
    cbn [snd].
  - lia.
  - apply Nat.leb_gt in Hfull. rewrite length_app. cbn [length]. lia.
Qed.

Lemma checkRateLimit_at_young (now : Z) (ts : list Z) :
  Forall (fun t => now - t < RATE_LIMIT_WINDOW_MS) (snd (checkRateLimit_at now ts)).
Proof.
  assert (Hkept : Forall (fun t => now - t < RATE_LIMIT_WINDOW_MS)
                    (filter (in_window now) ts)).
  { apply Forall_forall. intros t Ht. apply filter_In in Ht.
    now apply in_window_spec. }
  unfold checkRateLimit_at.
  destruct (MAX_REQUESTS_PER_WINDOW <=? _)%nat; cbn [snd]; [exact Hkept|].
  apply Forall_app. split; [exact Hkept|].
  constructor; [unfold RATE_LIMIT_WINDOW_MS; lia|constructor].
Qed.

Lemma checkRateLimit_run_bounded (instants : list Z) :
  forall ts,
    (length ts <= MAX_REQUESTS_PER_WINDOW)%nat ->
    (length (snd (checkRateLimit_run instants ts)) <= MAX_REQUESTS_PER_WINDOW)%nat.
Proof.
  induction instants as [|now later IH]; intros ts Hts; cbn [checkRateLimit_run].
  - exact Hts.
  - pose proof (checkRateLimit_at_bounded now ts Hts) as Hstep.
    destruct (checkRateLimit_at now ts) as [answer ts1]. cbn [snd] in Hstep.
    specialize (IH ts1 Hstep).
    destruct (checkRateLimit_run later ts1) as [answers ts2]. exact IH.
Qed.

Lemma preserves_ret {A : Type} (P : World -> Prop) (a : A) : preserves P (ret a).
Proof. intros w Hw. exact Hw. Qed.

Lemma preserves_throw {A : Type} (P : World -> Prop) (error : Thrown) :
  preserves P (@throw A error).
Proof. intros w Hw. exact Hw. Qed.

Lemma preserves_bind {A B : Type} (P : World -> Prop) (m : M A) (k : A -> M B) :
  preserves P m -> (forall a, preserves P (k a)) -> preserves P (bind m k).
Proof.
  intros Hm Hk w Hw. unfold bind. specialize (Hm w Hw).
  destruct (m w) as [a w1|error w1|]; [exact (Hk a w1 Hm)|exact Hm|exact I].
Qed.

Lemma preserves_try_catch {A : Type} (P : World -> Prop) (m : M A)
  (handler : Thrown -> M A) :
  preserves P m -> (forall error, preserves P (handler error)) ->
  preserves P (try_catch m handler).
Proof.
  intros Hm Hh w Hw. unfold try_catch. specialize (Hm w Hw).
  destruct (m w) as [a w1|error w1|]; [exact Hm|exact (Hh error w1 Hm)|exact I].
Qed.

Lemma bounded_checkRateLimit : preserves record_bounded checkRateLimit.
Proof.
  intros w Hw. rewrite checkRateLimit_run_step. unfold record_bounded, checked.
  cbn [requestTimestamps]. now apply checkRateLimit_at_bounded.
Qed.

Lemma bounded_sleep (ms : Z) : preserves record_bounded (sleep E ms).
Proof. intros w Hw. exact Hw. Qed.

Lemma bounded_invoke {T : Type} (request : Request) (behaviour : nat -> Thrown + T) :
  preserves record_bounded (invoke E request behaviour).
Proof.
  intros w Hw. rewrite invoke_run_step.
  destruct (behaviour (length (calls w))); exact Hw.
Qed.

Lemma bounded_withRateLimit {T : Type} (fn : M T) (fuel : nat) :
  preserves record_bounded fn ->
  forall retries, preserves record_bounded (withRateLimit E fuel fn retries).
Proof.
  intros Hfn. induction fuel as [|fuel IH]; intros retries; cbn [withRateLimit].
  - intros w Hw. exact I.
  - apply preserves_bind; [exact bounded_checkRateLimit|]. intros permit.
    destruct (negb permit).
    + apply preserves_bind; [apply bounded_sleep|]. intros _. apply IH.
    + apply preserves_try_catch; [exact Hfn|]. intros error.
      destruct ((0 <? retries) && is_rate_limited error).
      * apply preserves_bind; [apply bounded_sleep|]. intros _. apply IH.
      * apply preserves_throw.
Qed.

Lemma bounded_rate_limited_fetch {T : Set} (fuel : nat)
  (api : nat -> Request -> Thrown + Response T) (request : Request) :
  preserves record_bounded (rate_limited_fetch E fuel api request).
Proof. apply bounded_withRateLimit, bounded_invoke. Qed.

Lemma preserves_response_json {T : Set} (P : World -> Prop) (response : Response T) :
  preserves P (response_json response).
Proof.
  unfold response_json. destruct (json response);
    [apply preserves_throw|apply preserves_ret].
Qed.

Lemma preserves_throw_api_error {T : Set} {A : Type} (P : World -> Prop)
  (what : string) (response : Response T) :
  preserves P (@throw_api_error T A what response).
Proof.
  unfold throw_api_error. apply preserves_bind; [apply preserves_response_json|].
  intros data. apply preserves_throw.
Qed.

Lemma preserves_rethrow_or_wrap {A : Type} (P : World -> Prop) (what : string)
  (error : Thrown) :
  preserves P (@rethrow_or_wrap A what error).
Proof.
  unfold rethrow_or_wrap. destruct (instanceof_McpError error); apply preserves_throw.
Qed.

Lemma preserves_iterate_items {T : Set} (P : World -> Prop) (data : Payload T) :
  preserves P (iterate_items data).
Proof.
  unfold iterate_items. destruct (items data);
    [apply preserves_ret|apply preserves_throw].
Qed.

(** The shape shared by every read of the client: a rate-limited [fetch], the
    error of a response that is not [ok], and the rest on its payload. *)
Lemma bounded_request {T : Set} {A : Type} (fuel : nat)
  (api : nat -> Request -> Thrown + Response T) (request : Request)
  (what : string) (rest : Payload T -> M A) :
  (forall data, preserves record_bounded (rest data)) ->
  preserves record_bounded
    (response <- rate_limited_fetch E fuel api request ;;
     if negb (ok response)
     then throw_api_error what response
     else data <- response_json response ;; rest data).
Proof.
  intros Hrest. apply preserves_bind; [apply bounded_rate_limited_fetch|].
  intros response. destruct (negb (ok response)).
  - apply preserves_throw_api_error.
  - apply preserves_bind; [apply preserves_response_json|exact Hrest].
Qed.

Lemma bounded_fetchAnswers (fuel : nat) (questionId : Z) :
  preserves record_bounded (fetchAnswers E fuel questionId).
Proof.
  unfold fetchAnswers. apply preserves_try_catch.
  - apply bounded_request. intros data. apply preserves_ret.
  - intros error. apply preserves_rethrow_or_wrap.
Qed.

Lemma bounded_fetchComments (fuel : nat) (postId : Z) :
  preserves record_bounded (fetchComments E fuel postId).
Proof.
  unfold fetchComments. apply preserves_try_catch.
  - apply bounded_request. intros data. apply preserves_ret.
  - intros error. apply preserves_rethrow_or_wrap.
Qed.

Lemma bounded_fetchQuestion (fuel : nat) (questionId : Z) :
  preserves record_bounded (fetchQuestion E fuel questionId).
Proof.
  unfold fetchQuestion. apply bounded_request. intros data. apply preserves_ret.
Qed.

Lemma bounded_fetchAnswerComments (fuel : nat) (answers : list StackOverflowAnswer) :
  forall answersMap,
    preserves record_bounded (fetchAnswerComments E fuel answers answersMap).
Proof.
  induction answers as [|answer others IH]; intros answersMap;
    cbn [fetchAnswerComments].
  - apply preserves_ret.
  - destruct (Answer.answer_id answer) as [id|]; [|apply IH].
    apply preserves_bind; [apply bounded_fetchComments|]. intros fetched. apply IH.
Qed.

Lemma bounded_composeResults (fuel : nat) (minScore : option Z)
  (includeComments : option bool) (questions : list StackOverflowQuestion) :
  forall results,
    preserves record_bounded
      (composeResults E fuel minScore includeComments questions results).
Proof.
  induction questions as [|question others IH]; intros results;
    cbn [composeResults].
  - apply preserves_ret.
  - destruct (below_minScore minScore question); [apply IH|].
    apply preserves_bind; [apply bounded_fetchAnswers|]. intros answers.
    apply preserves_bind; [|intros comments; apply IH].
    destruct (truthy_boolean includeComments); [|apply preserves_ret].
    apply preserves_bind; [apply bounded_fetchComments|]. intros ofQuestion.
    apply preserves_bind; [apply bounded_fetchAnswerComments|].
    intros ofAnswers. apply preserves_ret.
Qed.

Lemma bounded_searchStackOverflow (fuel : nat) (query : string)
  (tags : option (list string)) (options : SearchOptions) :
  preserves record_bounded (searchStackOverflow E fuel query tags options).
Proof.
  unfold searchStackOverflow. apply preserves_try_catch.
  - apply bounded_request. intros data.
    apply preserves_bind; [apply preserves_iterate_items|].
    intros questions. apply bounded_composeResults.
  - intros error. apply preserves_rethrow_or_wrap.
Qed.

Lemma bounded_ensureWriteAccess {A : Type} (k : unit -> M A) :
  (forall u, preserves record_bounded (k u)) ->
  preserves record_bounded (bind (ensureWriteAccess E) k).
Proof.
  intros Hk. apply preserves_bind; [|exact Hk]. unfold ensureWriteAccess.
  destruct (_ || _); [apply preserves_throw|apply preserves_ret].
Qed.

Lemma bounded_handlePostQuestion (fuel : nat) (input : PostQuestionInput) :
  preserves record_bounded (handlePostQuestion E fuel input).
Proof.
  unfold handlePostQuestion.
  apply preserves_bind; [apply bounded_searchStackOverflow|]. intros similar.
  destruct (0 <? length similar)%nat; [apply preserves_throw|].
  apply bounded_ensureWriteAccess. intros _.
  apply bounded_request. intros data. apply preserves_ret.
Qed.

Lemma bounded_handlePostSolution (fuel : nat) (input : PostSolutionInput) :
  preserves record_bounded (handlePostSolution E fuel input).
Proof.
  unfold handlePostSolution.
  destruct (negb _); [apply preserves_throw|].
  destruct (no_evidence _); [apply preserves_throw|].
  apply preserves_bind; [apply bounded_fetchQuestion|].
  intros [question|]; [|apply preserves_throw].
  destruct (has_answers question); [apply preserves_throw|].
  apply bounded_ensureWriteAccess. intros _.
  apply bounded_request. intros data. apply preserves_ret.
Qed.

Lemma bounded_handleThumbsUp (fuel : nat) (input : ThumbsUpInput) :
  preserves record_bounded (handleThumbsUp E fuel input).
Proof.
  unfold handleThumbsUp.
  destruct (negb _); [apply preserves_throw|].
  apply bounded_ensureWriteAccess. intros _.
  apply preserves_bind; [apply bounded_rate_limited_fetch|]. intros response.
  destruct (negb (ok response));
    [apply preserves_throw_api_error|apply preserves_ret].
Qed.

Lemma bounded_handleCommentSolution (fuel : nat) (input : CommentSolutionInput) :
  preserves record_bounded (handleCommentSolution E fuel input).
Proof.
  unfold handleCommentSolution.
  apply preserves_bind; [apply bounded_fetchQuestion|].
  intros [question|]; [|apply preserves_throw].
  destruct (truthy_number _); [apply preserves_throw|].
  apply bounded_ensureWriteAccess. intros _.
  apply bounded_request. intros data. apply preserves_ret.
Qed.

Lemma bounded_handleSearchByError (fuel : nat) (args : SearchByErrorInput) :
  preserves record_bounded (handleSearchByError E fuel args).
Proof.
  unfold handleSearchByError.
  apply preserves_bind; [apply bounded_searchStackOverflow|].
  intros results. apply preserves_ret.
Qed.

Lemma bounded_handleSearchByTags (fuel : nat) (args : SearchByTagsInput) :
  preserves record_bounded (handleSearchByTags E fuel args).
Proof.
  unfold handleSearchByTags. apply preserves_try_catch.
  - apply bounded_request. intros data.
    apply preserves_bind; [apply preserves_iterate_items|]. intros questions.
    apply preserves_bind; [apply bounded_composeResults|].
    intros results. apply preserves_ret.
  - intros error. apply preserves_rethrow_or_wrap.
Qed.

Lemma bounded_handleAnalyzeStackTrace (fuel : nat) (args : StackTraceInput) :
  preserves record_bounded (handleAnalyzeStackTrace E fuel args).
Proof.
  unfold handleAnalyzeStackTrace.
  apply preserves_bind; [apply bounded_searchStackOverflow|].
  intros results. apply preserves_ret.
Qed.

Lemma bounded_callTool (fuel : nat) (name : string) (arguments : option Arguments) :
  preserves record_bounded (callTool E fuel name arguments).
Proof.
  unfold callTool, invalid_params. destruct arguments as [args|];
    [|apply preserves_throw].
  repeat match goal with
         | |- preserves _ (if ?c then _ else _) => destruct c
         | |- preserves _ (match ?c with _ => _ end) => destruct c
         end;
    first [ apply preserves_throw
          | apply bounded_handleSearchByError
          | apply bounded_handleSearchByTags
          | apply bounded_handleAnalyzeStackTrace
          | apply bounded_handlePostQuestion
          | apply bounded_handlePostSolution
          | apply bounded_handleThumbsUp
          | apply bounded_handleCommentSolution ].
Qed.

End RecordBound.

(** ** Every tool call ends, and what it sends *)

Section Calls.

Variable E : Environment.
Variable fuel : nat.
Hypothesis fuel_enough : (enough_fuel <= fuel)%nat.

Lemma read_is_authorized (request : Request) :
  is_read request = true -> authorized E request = true.
Proof. unfold is_read, authorized. now destruct (method request). Qed.

Lemma search_traffic_is_read_traffic (withComments : bool) (request : Request) :
  search_traffic withComments request = true ->
  read_traffic withComments request = true.
Proof.
  unfold search_traffic, read_traffic.
  destruct (is_read request), (is_search request), (is_answers_fetch request),
    (withComments && is_comments_fetch request), (endpoint request);
    cbn; intros H; first [reflexivity|discriminate H].
Qed.

Lemma read_traffic_is_read (withComments : bool) (request : Request) :
  read_traffic withComments request = true -> is_read request = true.
Proof. unfold read_traffic. intros H. now apply andb_prop in H. Qed.

Lemma write_request_authorized (target : Endpoint) (fields : URLSearchParams) :
  credentials_present E -> authorized E (write_request E target fields) = true.
Proof.
  intros [Hkey Htoken]. unfold authorized, write_request, carries.
  cbn [method params]. rewrite Hkey, Htoken, !existsb_app.
  cbn [existsb fst snd String.eqb Ascii.eqb Bool.eqb andb orb].
  rewrite !String.eqb_refl. cbn [andb orb]. now rewrite !orb_true_r.
Qed.

Lemma ensureWriteAccess_present :
  credentials_present E -> ensureWriteAccess E = ret tt.
Proof. intros [Hkey Htoken]. unfold ensureWriteAccess. now rewrite Hkey, Htoken. Qed.

Lemma credentials_decided : credentials_missing E \/ credentials_present E.
Proof.
  unfold credentials_missing, credentials_present.
  destruct (truthy_string (apiKey E)); destruct (truthy_string (accessToken E)); auto.
Qed.

Lemma total_ensureWriteAccess {A : Type} (allowed : Request -> bool)
  (k : unit -> M A) :
  (credentials_present E -> total allowed (k tt)) ->
  total allowed (bind (ensureWriteAccess E) k).
Proof.
  intros Hk. destruct credentials_decided as [Hmissing|Hpresent].
  - apply failing_total. now apply failing_without_credentials.
  - rewrite (ensureWriteAccess_present Hpresent). intros w Hw.
    exact (Hk Hpresent w Hw).
Qed.

(** A write: the rate-limited [fetch], the error of a response that is not
    [ok], and the result built from the payload. *)
Lemma total_write {A : Type} (target : Endpoint) (fields : URLSearchParams)
  (what : string) (rest : Response Created -> M A) :
  credentials_present E ->
  (forall response, total (authorized E) (rest response)) ->
  total (authorized E)
    (response <- rate_limited_fetch E fuel (write_api E)
                   (write_request E target fields) ;;
     if negb (ok response) then throw_api_error what response else rest response).
Proof.
  intros Hpresent Hrest. apply total_bind.
  - apply total_rate_limited_fetch; [now apply write_request_authorized|exact fuel_enough].
  - intros response. destruct (negb (ok response)); [|apply Hrest].
    apply failing_total, failing_throw_api_error.
Qed.

Lemma total_parse_created {A : Type} (allowed : Request -> bool)
  (response : Response Created) (build : Payload Created -> A) :
  total allowed (data <- response_json response ;; ret (build data)).
Proof.
  apply total_bind; [apply total_response_json|]. intros data. apply total_ret.
Qed.

Lemma total_search_authorized (query : string) (tags : option (list string))
  (options : SearchOptions) :
  total (authorized E) (searchStackOverflow E fuel query tags options).
Proof.
  eapply total_weaken; [|now apply total_searchStackOverflow].
  intros r Hr. apply read_is_authorized. exact (search_traffic_is_read _ r Hr).
Qed.

Lemma total_question_authorized (questionId : Z) :
  total (authorized E) (fetchQuestion E fuel questionId).
Proof.
  eapply total_weaken; [|now apply total_fetchQuestion].
  intros r Hr. apply read_is_authorized. exact (question_lookup_is_read r Hr).
Qed.

Lemma total_handlePostQuestion (input : PostQuestionInput) :
  total (authorized E) (handlePostQuestion E fuel input).
Proof.
  unfold handlePostQuestion.
  apply total_bind; [apply total_search_authorized|]. intros similar.
  destruct (0 <? length similar)%nat; [apply total_throw|].
  apply total_ensureWriteAccess. intros Hpresent.
  apply (total_write QuestionsAdd
           [("title", PostQuestion.title input); ("body", PostQuestion.body input);
            ("tags", join ";" (PostQuestion.tags input))]
           "Failed to post question" _ Hpresent).
  intros response. apply total_parse_created.
Qed.

Lemma total_handlePostSolution (input : PostSolutionInput) :
  total (authorized E) (handlePostSolution E fuel input).
Proof.
  unfold handlePostSolution.
  destruct (negb _); [apply total_throw|].
  destruct (no_evidence _); [apply total_throw|].
  apply total_bind; [apply total_question_authorized|].
  intros [question|]; [|apply total_throw].
  destruct (has_answers question); [apply total_throw|].
  apply total_ensureWriteAccess. intros Hpresent.
  apply (total_write (AnswersAdd (PostSolution.questionId input))
           [("body", PostSolution.body input)]
           "Failed to post answer" _ Hpresent).
  intros response. apply total_parse_created.
Qed.

Lemma total_handleThumbsUp (input : ThumbsUpInput) :
  total (authorized E) (handleThumbsUp E fuel input).
Proof.
  unfold handleThumbsUp.
  destruct (negb _); [apply total_throw|].
  apply total_ensureWriteAccess. intros Hpresent.
  apply (total_write (PostUpvote (ThumbsUp.postId input)) []
           "Failed to upvote" _ Hpresent).
  intros response. apply total_ret.
Qed.

Lemma total_handleCommentSolution (input : CommentSolutionInput) :
  total (authorized E) (handleCommentSolution E fuel input).
Proof.
  unfold handleCommentSolution.
  apply total_bind; [apply total_question_authorized|].
  intros [question|]; [|apply total_throw].
  destruct (truthy_number _); [apply total_throw|].
  apply total_ensureWriteAccess. intros Hpresent.
  apply (total_write (CommentsAdd (CommentSolution.questionId input))
           [("body", CommentSolution.body input)]
           "Failed to post comment" _ Hpresent).
  intros response. apply total_parse_created.
Qed.

Lemma total_handleSearchByError (args : SearchByErrorInput) :
  total (read_traffic (truthy_boolean (SearchByError.includeComments args)))
    (handleSearchByError E fuel args).
Proof.
  unfold handleSearchByError. apply total_bind; [|intros results; apply total_ret].
  eapply total_weaken; [apply search_traffic_is_read_traffic|].
  now apply total_searchStackOverflow.
Qed.

Lemma total_handleAnalyzeStackTrace (args : StackTraceInput) :
  total (read_traffic (truthy_boolean (StackTrace.includeComments args)))
    (handleAnalyzeStackTrace E fuel args).
Proof.
  unfold handleAnalyzeStackTrace. apply total_bind; [|intros results; apply total_ret].
  eapply total_weaken; [apply search_traffic_is_read_traffic|].
  now apply total_searchStackOverflow.
Qed.

Lemma total_handleSearchByTags (args : SearchByTagsInput) :
  total (read_traffic (truthy_boolean (SearchByTags.includeComments args)))
    (handleSearchByTags E fuel args).
Proof.
  unfold handleSearchByTags. apply total_try_catch.
  - apply total_bind; [now apply total_rate_limited_fetch|].
    intros response. destruct (negb (ok response)).
    + apply failing_total, failing_throw_api_error.
    + apply total_bind; [apply total_response_json|]. intros data.
      apply total_bind.
      { unfold iterate_items. destruct (items data); [apply total_ret|apply total_throw]. }
      intros questions. apply total_bind; [|intros results; apply total_ret].
      eapply total_weaken; [apply search_traffic_is_read_traffic|].
      now apply total_composeResults.
  - intros error. apply failing_total, failing_rethrow_or_wrap.
Qed.

Lemma read_traffic_authorized {A : Type} (withComments : bool) (m : M A) :
  total (read_traffic withComments) m -> total (authorized E) m.
Proof.
  apply total_weaken. intros r Hr. apply read_is_authorized.
  exact (read_traffic_is_read _ r Hr).
Qed.

Lemma total_callTool (name : string) (arguments : option Arguments) :
  total (authorized E) (callTool E fuel name arguments).
Proof.
  unfold callTool, invalid_params. destruct arguments as [args|];
    [|apply total_throw].
  repeat match goal with
         | |- total _ (if ?c then _ else _) => destruct c
         | |- total _ (match ?c with _ => _ end) => destruct c
         end;
    first [ apply total_throw
          | eapply read_traffic_authorized; apply total_handleSearchByError
          | eapply read_traffic_authorized; apply total_handleSearchByTags
          | eapply read_traffic_authorized; apply total_handleAnalyzeStackTrace
          | apply total_handlePostQuestion
          | apply total_handlePostSolution
          | apply total_handleThumbsUp
          | apply total_handleCommentSolution ].
Qed.

(** X1.  The private field [requestTimestamps] never outgrows the limit: a
    call of [checkRateLimit] leaves only instants younger than 60 seconds in
    it, a freshly constructed server has an empty record, and every tool call
    started with at most 30 recorded instants, none of them in the future,
    ends (by returning or by throwing) with at most 30 recorded instants, none
    of them in the future. *)
Theorem requestTimestamps_stay_bounded :
  (forall now ts,
      Forall (fun t => now - t < RATE_LIMIT_WINDOW_MS)
        (snd (checkRateLimit_at now ts)))
  /\ (forall t, record_bounded (initial_world t)
                /\ timestamps_in_past (initial_world t))
  /\ (forall name arguments w,
         record_bounded w -> timestamps_in_past w ->
         match callTool E fuel name arguments w with
         | Return _ w' | Throw _ w' => record_bounded w' /\ timestamps_in_past w'
         | OutOfFuel => False
         end).
Proof.
  split; [exact checkRateLimit_at_young|]. split.
  - intros t. split; [|constructor].
    unfold record_bounded, initial_world, MAX_REQUESTS_PER_WINDOW.
    cbn [requestTimestamps length]. lia.
  - intros name arguments w Hbounded Hpast.
    pose proof (bounded_callTool E fuel name arguments w Hbounded) as Hb.
    pose proof (total_callTool name arguments w Hpast) as Ht.
    destruct (callTool E fuel name arguments w) as [result w'|error w'|];
      [split; [exact Hb|exact (proj1 Ht)]|split; [exact Hb|exact (proj1 Ht)]|exact Ht].
Qed.

(** X2.  Every tool call ends, whatever the remote does: from a state whose
    recorded instants are not in the future, with recursion depth 124 allowed
    to [withRateLimit], the dispatcher returns or throws.  Every request it
    has sent by then is a read, or a write sent with both credentials set and
    carried in its form body as [key] and [access_token]. *)
Theorem tool_calls_end_authorized (name : string) (arguments : option Arguments)
  (w : World) :
  timestamps_in_past w ->
  match callTool E fuel name arguments w with
  | Return _ w' | Throw _ w' => reached_issuing (authorized E) w w'
  | OutOfFuel => False
  end.
Proof. exact (total_callTool name arguments w). Qed.

(** X3.  The three read tools never write: whatever the arguments and the
    remote, a call of [search_by_error], [search_by_tags] or
    [analyze_stack_trace] ends having sent GET requests only, to the search or
    listing endpoint and the answers endpoint, and to the comments endpoint
    only when [includeComments] is true. *)
Theorem read_tools_only_read (name : string) (args : Arguments) (w : World) :
  In name ["search_by_error"; "search_by_tags"; "analyze_stack_trace"] ->
  timestamps_in_past w ->
  match callTool E fuel name (Some args) w with
  | Return _ w' | Throw _ w' =>
      reached_issuing (read_traffic (truthy_boolean (arg_includeComments args))) w w'
  | OutOfFuel => False
  end.
Proof.
  intros Hname.
  assert (Htotal : total (read_traffic (truthy_boolean (arg_includeComments args)))
                     (callTool E fuel name (Some args))).
  { unfold callTool, invalid_params.
    destruct Hname as [<-|[<-|[<-|[]]]]; cbn [String.eqb Ascii.eqb Bool.eqb].
    - destruct (required_string (arg_errorMessage args)); [|apply total_throw].
      apply (total_handleSearchByError
               {| SearchByError.errorMessage := s;
                  SearchByError.language := arg_language args;
                  SearchByError.technologies := arg_technologies args;
                  SearchByError.minScore := arg_minScore args;
                  SearchByError.includeComments := arg_includeComments args;
                  SearchByError.responseFormat := arg_responseFormat args;
                  SearchByError.limit := arg_limit args |}).
    - destruct (arg_tags args) as [tags|]; [|apply total_throw].
      apply (total_handleSearchByTags
               {| SearchByTags.tags := tags;
                  SearchByTags.minScore := arg_minScore args;
                  SearchByTags.includeComments := arg_includeComments args;
                  SearchByTags.responseFormat := arg_responseFormat args;
                  SearchByTags.limit := arg_limit args |}).
    - destruct (required_string (arg_stackTrace args)) as [stackTrace|];
        [|apply total_throw].
      destruct (required_string (arg_language args)) as [language|];
        [|apply total_throw].
      apply (total_handleAnalyzeStackTrace
               {| StackTrace.stackTrace := stackTrace;
                  StackTrace.language := language;
                  StackTrace.includeComments := arg_includeComments args;
                  StackTrace.responseFormat := arg_responseFormat args;
                  StackTrace.limit := arg_limit args |}). }
  exact (Htotal w).
Qed.

End Calls.

(** ** How long [withRateLimit] waits and how often it tries *)

Section Retries.

Variable E : Environment.

Lemma room_permits (now : Z) (ts : list Z) :
  (length ts < MAX_REQUESTS_PER_WINDOW)%nat ->
  fst (checkRateLimit_at now ts) = true.
Proof.
  intros Hroom. rewrite checkRateLimit_at_permitted; [reflexivity|].
  pose proof (filter_length_le (in_window now) ts). lia.
Qed.

(** The waiting loop with the clock and the suspension points counted: [j]
    waits take at least [j] times two seconds, and there is none when the
    record has room. *)
Lemma waits_end_clock {T : Type} (fn : M T) (retries : Z) (k : nat) :
  forall fuel w,
    aged k w -> (k < fuel)%nat ->
    exists j w1,
      (j <= k)%nat
      /\ withRateLimit E fuel fn retries w
         = attempt E (fuel - S j) fn retries w1
      /\ calls w1 = calls w
      /\ ticks w1 = (ticks w + j)%nat
      /\ now w + RETRY_AFTER_MS * Z.of_nat j <= now w1
      /\ (timestamps_in_past w -> timestamps_in_past w1)
      /\ ((length (requestTimestamps w) < MAX_REQUESTS_PER_WINDOW)%nat -> j = 0%nat).
Proof.
  induction k as [|k IH]; intros fuel w Haged Hfuel;
    (destruct fuel as [|fuel]; [lia|]); rewrite withRateLimit_unfold.
  - rewrite (aged_0_permitted w Haged).
    exists 0%nat, (checked w).
    replace (S fuel - 1)%nat with fuel by lia.
    repeat split; try (cbn [checked ticks now]; lia). apply checked_in_past.
  - destruct (fst (checkRateLimit_at (now w) (requestTimestamps w))) eqn:Hp.
    + exists 0%nat, (checked w).
      replace (S fuel - 1)%nat with fuel by lia.
      repeat split; try (cbn [checked ticks now]; lia). apply checked_in_past.
    + destruct (IH fuel _ (refused_aged E k w Hp Haged))
        as (j & w1 & Hj & Heq & Hc & Ht & Hn & Hpast & _); [lia|].
      exists (S j), w1. repeat split; [lia|exact Heq|exact Hc| | | |].
      * rewrite Ht. cbn [slept checked ticks]. lia.
      * cbn [slept checked now] in Hn. unfold RETRY_AFTER_MS in *. lia.
      * intros Hw. apply Hpast. apply slept_in_past; [unfold RETRY_AFTER_MS; lia|].
        now apply checked_in_past.
      * intros Hroom. rewrite (room_permits (now w) _ Hroom) in Hp. discriminate Hp.
Qed.

Lemma attempt_clock {T : Type} (fn : M T) (retries : Z) (fuel : nat) (w : World) :
  timestamps_in_past w -> (MAX_REQUESTS_PER_WINDOW < fuel)%nat ->
  exists j fuel' w1,
    (j <= MAX_REQUESTS_PER_WINDOW)%nat
    /\ (fuel - S MAX_REQUESTS_PER_WINDOW <= fuel')%nat
    /\ withRateLimit E fuel fn retries w = attempt E fuel' fn retries w1
    /\ calls w1 = calls w
    /\ ticks w1 = (ticks w + j)%nat
    /\ now w + RETRY_AFTER_MS * Z.of_nat j <= now w1
    /\ timestamps_in_past w1
    /\ ((length (requestTimestamps w) < MAX_REQUESTS_PER_WINDOW)%nat -> j = 0%nat).
Proof.
  intros Hpast Hfuel.
  destruct (waits_end_clock fn retries MAX_REQUESTS_PER_WINDOW fuel w
              (in_past_aged w Hpast) Hfuel)
    as (j & w1 & Hj & Heq & Hc & Ht & Hn & Hp & Hroom).
  exists j, (fuel - S j)%nat, w1.
  repeat split; try assumption; [lia|now apply Hp].
Qed.

(** An operation that is rate limited on every attempt uses up the budget. *)
Lemma withRateLimit_exhausts {T : Type} (request : Request)
  (behaviour : nat -> Thrown + T) (n : nat) :
  forall fuel w,
    timestamps_in_past w ->
    (S MAX_REQUESTS_PER_WINDOW * S n <= fuel)%nat ->
    (forall k, (length (calls w) <= k)%nat ->
               exists error, behaviour k = inl error /\ is_rate_limited error = true) ->
    exists error w',
      withRateLimit E fuel (invoke E request behaviour) (Z.of_nat n) w
      = Throw error w'
      /\ behaviour (length (calls w) + n)%nat = inl error
      /\ calls w' = (calls w ++ repeat request (S n))%list
      /\ now w + RETRY_AFTER_MS * Z.of_nat n <= now w'
      /\ timestamps_in_past w'.
Proof.
  induction n as [|n IH]; intros fuel w Hpast Hfuel Hlimited.
  - destruct (attempt_clock (invoke E request behaviour) 0 fuel w Hpast)
      as (j & fuel' & w1 & _ & _ & Heq & Hc & _ & Hn & Hp & _); [lia|].
    destruct (Hlimited (length (calls w)) (le_n _)) as (error & Hb & _).
    exists error, (invoked E request w1).
    change (Z.of_nat 0) with 0. rewrite Heq, attempt_invoke, Hc, Hb.
    cbn [Z.ltb Z.compare andb]. rewrite Nat.add_0_r.
    split; [reflexivity|]. split; [exact Hb|].
    split; [cbn [invoked calls repeat]; now rewrite Hc|].
    split; [|now apply invoked_in_past].
    cbn [invoked now]. unfold RETRY_AFTER_MS in *. lia.
  - destruct (attempt_clock (invoke E request behaviour) (Z.of_nat (S n)) fuel w Hpast)
      as (j & fuel' & w1 & _ & Hf & Heq & Hc & _ & Hn & Hp & _); [lia|].
    destruct (Hlimited (length (calls w)) (le_n _)) as (first & Hb & Hl).
    rewrite Heq, attempt_invoke, Hc, Hb, Hl.
    replace (0 <? Z.of_nat (S n)) with true by (symmetry; apply Z.ltb_lt; lia).
    cbn [andb]. replace (Z.of_nat (S n) - 1) with (Z.of_nat n) by lia.
    set (w2 := slept E RETRY_AFTER_MS (invoked E request w1)).
    assert (Hp2 : timestamps_in_past w2).
    { apply slept_in_past; [unfold RETRY_AFTER_MS; lia|]. now apply invoked_in_past. }
    assert (Hc2 : calls w2 = (calls w ++ [request])%list)
      by (unfold w2; cbn [slept invoked calls]; now rewrite Hc).
    destruct (IH fuel' w2 Hp2) as (error & w' & Hrun & Hlast & Hc' & Hn' & Hp'); [lia| |].
    { intros k Hk. apply Hlimited. rewrite Hc2, length_app in Hk. lia. }
    exists error, w'. split; [exact Hrun|]. split; [|split; [|split; [|exact Hp']]].
    + rewrite <- Hlast, Hc2, length_app. cbn [length]. f_equal. lia.
    + rewrite Hc', Hc2, <- List.app_assoc. reflexivity.
    + assert (Hn2 : now w1 + RETRY_AFTER_MS <= now w2).
      { unfold w2. cbn [slept invoked now]. lia. }
      unfold RETRY_AFTER_MS in *. lia.
Qed.

(** X4.  The retry budget is a bound: an operation that fails with a
    rate-limited (429) error on every attempt, run under [withRateLimit] with
    budget [n], is attempted exactly [n + 1] times, with a wait of at least two
    seconds before each retry, and then the error of the last attempt is
    thrown; a [fetch] of the client, whose budget is the default 3, is sent
    exactly four times. *)
Theorem withRateLimit_gives_up_after_budget :
  (forall (T : Type) (request : Request) (behaviour : nat -> Thrown + T)
          (n fuel : nat) (w : World),
      timestamps_in_past w ->
      (31 * S n <= fuel)%nat ->
      (forall k, (length (calls w) <= k)%nat ->
                 exists error, behaviour k = inl error /\ is_rate_limited error = true) ->
      exists error w',
        withRateLimit E fuel (invoke E request behaviour) (Z.of_nat n) w
        = Throw error w'
        /\ behaviour (length (calls w) + n)%nat = inl error
        /\ calls w' = (calls w ++ repeat request (S n))%list
        /\ now w + 2000 * Z.of_nat n <= now w')
  /\ (forall (T : Set) (api : nat -> Request -> Thrown + Response T)
             (request : Request) (fuel : nat) (w : World),
         timestamps_in_past w ->
         (enough_fuel <= fuel)%nat ->
         (forall k, exists error,
                      api k request = inl error /\ is_rate_limited error = true) ->
         exists error w',
           rate_limited_fetch E fuel api request w = Throw error w'
           /\ is_rate_limited error = true
           /\ calls w' = (calls w ++ [request; request; request; request])%list
           /\ now w + 6000 <= now w').
Proof.
  split.
  - intros T request behaviour n fuel w Hpast Hfuel Hlimited.
    destruct (withRateLimit_exhausts request behaviour n fuel w Hpast Hfuel Hlimited)
      as (error & w' & Hrun & Hlast & Hc & Hn & _).
    exists error, w'. now repeat split.
  - intros T api request fuel w Hpast Hfuel Hlimited.
    destruct (withRateLimit_exhausts request (fun k => api k request) 3 fuel w Hpast)
      as (error & w' & Hrun & Hlast & Hc & Hn & _).
    { unfold enough_fuel, MAX_REQUESTS_PER_WINDOW in *. lia. }
    { intros k _. apply Hlimited. }
    exists error, w'. split; [exact Hrun|]. split; [|split; [exact Hc|]].
    + destruct (Hlimited (length (calls w) + 3)%nat) as (error' & Hb & Hl).
      cbv beta in Hlast. rewrite Hb in Hlast. now injection Hlast as <-.
    + unfold RETRY_AFTER_MS in Hn. lia.
Qed.

(** X5.  A [fetch] that the remote resolves is sent exactly once, after at
    most 30 waits of the local limiter, each of at least two seconds, and
    without any wait when fewer than 30 instants are recorded. *)
Theorem resolved_fetch_waits_at_most_30_times (T : Set) (fuel : nat)
  (api : nat -> Request -> Thrown + Response T) (request : Request) (w : World)
  (response : Response T) :
  timestamps_in_past w -> (enough_fuel <= fuel)%nat ->
  api (length (calls w)) request = inr response ->
  exists waits w',
    rate_limited_fetch E fuel api request w = Return response w'
    /\ (waits <= 30)%nat
    /\ ticks w' = S (ticks w + waits)
    /\ now w + 2000 * Z.of_nat waits <= now w'
    /\ calls w' = (calls w ++ [request])%list
    /\ ((length (requestTimestamps w) < 30)%nat -> waits = 0%nat).
Proof.
  intros Hpast Hfuel Hapi. unfold rate_limited_fetch.
  destruct (attempt_clock (invoke E request (fun k => api k request))
              default_retries fuel w Hpast)
    as (j & fuel' & w1 & Hj & _ & Heq & Hc & Ht & Hn & Hp & Hroom);
    [unfold enough_fuel, MAX_REQUESTS_PER_WINDOW in *; lia|].
  exists j, (invoked E request w1).
  rewrite Heq, attempt_invoke, Hc, Hapi.
  split; [reflexivity|]. split; [exact Hj|].
  split; [cbn [invoked ticks]; now rewrite Ht|].
  split; [cbn [invoked now]; unfold RETRY_AFTER_MS in Hn; lia|].
  split; [cbn [invoked calls]; now rewrite Hc|exact Hroom].
Qed.

End Retries.

(** ** Which errors count as rate limited *)

Section RateLimitedErrors.

Local Open Scope string_scope.

Lemma prefix_append (needle rest : string) :
  String.prefix needle (needle ++ rest) = true.
Proof.
  induction needle as [|c needle IH]; [now destruct rest|].
  cbn [append String.prefix]. destruct (ascii_dec c c) as [_|Hne];
    [exact IH|now destruct Hne].
Qed.

Lemma prefix_elim (needle haystack : string) :
  String.prefix needle haystack = true ->
  exists rest, haystack = needle ++ rest.
Proof.
  revert haystack. induction needle as [|c needle IH]; intros haystack.
  - intros _. now exists haystack.
  - destruct haystack as [|d haystack]; [discriminate|].
    cbn [String.prefix]. destruct (ascii_dec c d) as [<-|_]; [|discriminate].
    intros Hp. destruct (IH haystack Hp) as (rest & ->). now exists rest.
Qed.

Lemma includes_unfold (needle haystack : string) :
  includes needle haystack
  = String.prefix needle haystack
    || match haystack with
       | EmptyString => false
       | String _ rest => includes needle rest
       end.
Proof. now destruct haystack. Qed.

Lemma includes_spec (needle haystack : string) :
  includes needle haystack = true
  <-> exists before after, haystack = before ++ needle ++ after.
Proof.
  split.
  - induction haystack as [|c haystack IH]; rewrite includes_unfold; intros H;
      apply orb_true_iff in H; destruct H as [H|H].
    + apply prefix_elim in H. destruct H as (rest & ->). now exists "", rest.
    + discriminate H.
    + apply prefix_elim in H. destruct H as (rest & ->). now exists "", rest.
    + destruct (IH H) as (before & after & ->). now exists (String c before), after.
  - intros (before & after & ->). induction before as [|c before IH];
      rewrite includes_unfold.
    + cbn [append]. now rewrite prefix_append.
    + cbn [append]. rewrite IH. apply orb_true_r.
Qed.

(** X6.  The test of the [catch] block of [withRateLimit]: an [Error] is
    rate limited exactly when its message contains the characters 429
    anywhere or its [status] property is 429, a plain object exactly when its
    [status] is 429, and a thrown primitive never; so an error whose message
    merely mentions a number containing 429 is retried as well. *)
Theorem is_rate_limited_spec :
  (forall message status,
      is_rate_limited (JsError message status) = true
      <-> (exists before after, message = before ++ "429" ++ after)
          \/ status = Some 429%Z)
  /\ (forall code message,
         is_rate_limited (McpError code message) = true
         <-> exists before after, message = before ++ "429" ++ after)
  /\ (forall status, is_rate_limited (JsObject status) = true <-> status = Some 429%Z)
  /\ (forall text, is_rate_limited (JsPrimitive text) = false).
Proof.
  assert (Hstatus : forall status, status_is_429 status = true <-> status = Some 429%Z).
  { intros [s|]; cbn [status_is_429]; [|split; discriminate].
    rewrite Z.eqb_eq. split; [now intros ->|now intros [= ->]]. }
  split; [|split; [|split]].
  - intros message status. cbn [is_rate_limited].
    now rewrite orb_true_iff, includes_spec, Hstatus.
  - intros code message. cbn [is_rate_limited]. apply includes_spec.
  - intros status. cbn [is_rate_limited]. apply Hstatus.
  - reflexivity.
Qed.

End RateLimitedErrors.

(** ** What the client does with a failure *)

Section ClientErrors.

Variable E : Environment.
Variable fuel : nat.
Hypothesis fuel_enough : (enough_fuel <= fuel)%nat.

(** A [fetch] that rejects with an error that is not rate limited is not
    tried again. *)
Lemma rate_limited_fetch_rejected {T : Set}
  (api : nat -> Request -> Thrown + Response T) (request : Request) (w : World)
  (error : Thrown) :
  timestamps_in_past w ->
  api (length (calls w)) request = inl error ->
  is_rate_limited error = false ->
  exists w',
    rate_limited_fetch E fuel api request w = Throw error w'
    /\ timestamps_in_past w'
    /\ calls w' = (calls w ++ [request])%list.
Proof.
  intros Hw Hapi Hnot. unfold rate_limited_fetch.
  destruct (withRateLimit_attempt E (invoke E request (fun k => api k request))
              default_retries fuel w Hw) as (fuel' & w1 & _ & Heq & Hc & Hp);
    [unfold enough_fuel, MAX_REQUESTS_PER_WINDOW in *; lia|].
  rewrite Heq, attempt_invoke, Hc, Hapi, Hnot, andb_false_r.
  exists (invoked E request w1). split; [reflexivity|].
  split; [now apply invoked_in_past|]. cbn [invoked calls]. now rewrite Hc.
Qed.

(** The common body of the reads, on a response that is not [ok]. *)
Lemma request_refused {T : Set} {A : Type}
  (api : nat -> Request -> Thrown + Response T) (request : Request)
  (what : string) (rest : Payload T -> M A) (w : World)
  (response : Response T) (data : Payload T) :
  timestamps_in_past w ->
  api (length (calls w)) request = inr response ->
  ok response = false -> json response = inr data ->
  exists w',
    (response <- rate_limited_fetch E fuel api request ;;
     if negb (ok response)
     then throw_api_error what response
     else data <- response_json response ;; rest data) w
    = Throw (McpError InvalidRequest (api_error_message what data)) w'
    /\ timestamps_in_past w'
    /\ calls w' = (calls w ++ [request])%list.
Proof.
  intros Hw Hapi Hok Hjson.
  destruct (rate_limited_fetch_resolved E fuel api request w response Hw
              fuel_enough Hapi) as (w' & Hrun & Hp & Hc).
  exists w'. split; [|now split].
  unfold bind at 1. rewrite Hrun, Hok. cbn [negb].
  unfold throw_api_error, response_json, bind. now rewrite Hjson.
Qed.

Lemma request_rejected {T : Set} {A : Type}
  (api : nat -> Request -> Thrown + Response T) (request : Request)
  (k : Response T -> M A) (w : World) (error : Thrown) :
  timestamps_in_past w ->
  api (length (calls w)) request = inl error ->
  is_rate_limited error = false ->
  exists w',
    (response <- rate_limited_fetch E fuel api request ;; k response) w
    = Throw error w'
    /\ timestamps_in_past w'
    /\ calls w' = (calls w ++ [request])%list.
Proof.
  intros Hw Hapi Hnot.
  destruct (rate_limited_fetch_rejected api request w error Hw Hapi Hnot)
    as (w' & Hrun & Hp & Hc).
  exists w'. split; [|now split]. unfold bind. now rewrite Hrun.
Qed.

Lemma caught_McpError {A : Type} (m : M A) (what : string) (w w' : World)
  (code : ErrorCode) (message : string) :
  m w = Throw (McpError code message) w' ->
  try_catch m (rethrow_or_wrap what) w = Throw (McpError code message) w'.
Proof. intros Hm. unfold try_catch. now rewrite Hm. Qed.

Lemma caught_other {A : Type} (m : M A) (what : string) (w w' : World)
  (error : Thrown) :
  m w = Throw error w' -> instanceof_McpError error = false ->
  try_catch m (rethrow_or_wrap what) w
  = Throw (McpError InternalError (what ++ ": " ++ error_text error)) w'.
Proof.
  intros Hm Hnot. unfold try_catch, rethrow_or_wrap. now rewrite Hm, Hnot.
Qed.

Lemma caught_is_McpError {A : Type} (m : M A) (what : string) (w w' : World)
  (error : Thrown) :
  try_catch m (rethrow_or_wrap what) w = Throw error w' ->
  instanceof_McpError error = true.
Proof.
  unfold try_catch, rethrow_or_wrap.
  destruct (m w) as [a w1|thrown w1|]; [discriminate| |discriminate].
  destruct (instanceof_McpError thrown) eqn:Hinst; intros [= <- _];
    [exact Hinst|reflexivity].
Qed.

(** X7.  A response that is not [ok] is reported, not retried, also when its
    status is 429: [searchStackOverflow], [fetchAnswers], [fetchComments] and
    [fetchQuestion] each send the request once and throw an [InvalidRequest]
    error whose message is the prefix [Stack Overflow API error], the
    [error_message] of the payload and, in parentheses, its [error_id]. *)
Theorem failed_response_is_reported_once :
  (forall query tags options w response data,
      timestamps_in_past w ->
      questions_api E (length (calls w))
        (search_request E query tags (Options.limit options)) = inr response ->
      ok response = false -> json response = inr data ->
      exists w',
        searchStackOverflow E fuel query tags options w
        = Throw (McpError InvalidRequest
                   (api_error_message "Stack Overflow API error" data)) w'
        /\ calls w'
           = (calls w ++ [search_request E query tags (Options.limit options)])%list)
  /\ (forall questionId w response data,
         timestamps_in_past w ->
         answers_api E (length (calls w)) (answers_request E questionId)
         = inr response ->
         ok response = false -> json response = inr data ->
         exists w',
           fetchAnswers E fuel questionId w
           = Throw (McpError InvalidRequest
                      (api_error_message "Stack Overflow API error" data)) w'
           /\ calls w' = (calls w ++ [answers_request E questionId])%list)
  /\ (forall postId w response data,
         timestamps_in_past w ->
         comments_api E (length (calls w)) (comments_request E postId)
         = inr response ->
         ok response = false -> json response = inr data ->
         exists w',
           fetchComments E fuel postId w
           = Throw (McpError InvalidRequest
                      (api_error_message "Stack Overflow API error" data)) w'
           /\ calls w' = (calls w ++ [comments_request E postId])%list)
  /\ (forall questionId w response data,
         timestamps_in_past w ->
         questions_api E (length (calls w)) (question_request E questionId)
         = inr response ->
         ok response = false -> json response = inr data ->
         exists w',
           fetchQuestion E fuel questionId w
           = Throw (McpError InvalidRequest
                      (api_error_message "Stack Overflow API error" data)) w'
           /\ calls w' = (calls w ++ [question_request E questionId])%list).
Proof.
  split; [|split; [|split]].
  - intros query tags options w response data Hw Hapi Hok Hjson.
    destruct (request_refused (A := list SearchResult) (questions_api E) _
                "Stack Overflow API error"
                (fun data =>
                   questions <- iterate_items data ;;
                   composeResults E fuel (Options.minScore options)
                     (Options.includeComments options) questions [])
                w response data Hw Hapi Hok Hjson) as (w' & Hrun & _ & Hc).
    exists w'. split; [|exact Hc]. unfold searchStackOverflow.
    now apply caught_McpError.
  - intros questionId w response data Hw Hapi Hok Hjson.
    destruct (request_refused (A := list StackOverflowAnswer) (answers_api E) _
                "Stack Overflow API error"
                (fun data => ret (match items data with Some l => l | None => [] end))
                w response data Hw Hapi Hok Hjson) as (w' & Hrun & _ & Hc).
    exists w'. split; [|exact Hc]. unfold fetchAnswers. now apply caught_McpError.
  - intros postId w response data Hw Hapi Hok Hjson.
    destruct (request_refused (A := list StackOverflowComment) (comments_api E) _
                "Stack Overflow API error"
                (fun data => ret (match items data with Some l => l | None => [] end))
                w response data Hw Hapi Hok Hjson) as (w' & Hrun & _ & Hc).
    exists w'. split; [|exact Hc]. unfold fetchComments. now apply caught_McpError.
  - intros questionId w response data Hw Hapi Hok Hjson.
    destruct (request_refused (A := option StackOverflowQuestion) (questions_api E) _
                "Stack Overflow API error"
                (fun data => ret (match items data with
                                  | Some (first :: _) => Some first
                                  | _ => None
                                  end))
                w response data Hw Hapi Hok Hjson) as (w' & Hrun & _ & Hc).
    exists w'. split; [exact Hrun|exact Hc].
Qed.

(** X8.  A [fetch] that rejects with an error that is neither rate limited
    nor an [McpError] (no network, say) is sent once.  [fetchAnswers],
    [fetchComments] and [searchStackOverflow] wrap it in an [InternalError]
    whose message names the operation and ends with the text of the error;
    [fetchQuestion] has no [catch] and throws the error as it is, and so do the
    tools that look a question up: [post_solution] hands the caller the raw
    error of the runtime. *)
Theorem transport_failure_is_wrapped_by_reads_only :
  (forall questionId w error,
      timestamps_in_past w ->
      answers_api E (length (calls w)) (answers_request E questionId) = inl error ->
      is_rate_limited error = false -> instanceof_McpError error = false ->
      exists w',
        fetchAnswers E fuel questionId w
        = Throw (McpError InternalError
                   ("Failed to fetch answers: " ++ error_text error)) w'
        /\ calls w' = (calls w ++ [answers_request E questionId])%list)
  /\ (forall postId w error,
         timestamps_in_past w ->
         comments_api E (length (calls w)) (comments_request E postId) = inl error ->
         is_rate_limited error = false -> instanceof_McpError error = false ->
         exists w',
           fetchComments E fuel postId w
           = Throw (McpError InternalError
                      ("Failed to fetch comments: " ++ error_text error)) w'
           /\ calls w' = (calls w ++ [comments_request E postId])%list)
  /\ (forall query tags options w error,
         timestamps_in_past w ->
         questions_api E (length (calls w))
           (search_request E query tags (Options.limit options)) = inl error ->
         is_rate_limited error = false -> instanceof_McpError error = false ->
         exists w',
           searchStackOverflow E fuel query tags options w
           = Throw (McpError InternalError
                      ("Failed to search Stack Overflow: " ++ error_text error)) w'
           /\ calls w'
              = (calls w ++ [search_request E query tags (Options.limit options)])%list)
  /\ (forall questionId w error,
         timestamps_in_past w ->
         questions_api E (length (calls w)) (question_request E questionId)
         = inl error ->
         is_rate_limited error = false ->
         exists w',
           fetchQuestion E fuel questionId w = Throw error w'
           /\ calls w' = (calls w ++ [question_request E questionId])%list)
  /\ (forall input w error,
         timestamps_in_past w ->
         PostSolution.confirmedResolved input = Some true ->
         no_evidence (PostSolution.evidence input) = false ->
         questions_api E (length (calls w))
           (question_request E (PostSolution.questionId input)) = inl error ->
         is_rate_limited error = false ->
         exists w', handlePostSolution E fuel input w = Throw error w').
Proof.
  assert (Hquestion : forall questionId w error,
             timestamps_in_past w ->
             questions_api E (length (calls w)) (question_request E questionId)
             = inl error ->
             is_rate_limited error = false ->
             exists w',
               fetchQuestion E fuel questionId w = Throw error w'
               /\ calls w' = (calls w ++ [question_request E questionId])%list).
  { intros questionId w error Hw Hapi Hnot.
    destruct (request_rejected (questions_api E) (question_request E questionId)
                (fun response =>
                   if negb (ok response)
                   then throw_api_error "Stack Overflow API error" response
                   else
                     data <- response_json response ;;
                     ret (match items data with
                          | Some (first :: _) => Some first
                          | _ => None
                          end))
                w error Hw Hapi Hnot) as (w' & Hrun & _ & Hc).
    exists w'. split; [exact Hrun|exact Hc]. }
  split; [|split; [|split; [|split; [exact Hquestion|]]]].
  - intros questionId w error Hw Hapi Hnot Hother.
    destruct (request_rejected (answers_api E) (answers_request E questionId)
                (fun response =>
                   if negb (ok response)
                   then throw_api_error "Stack Overflow API error" response
                   else
                     data <- response_json response ;;
                     ret (match items data with Some l => l | None => [] end))
                w error Hw Hapi Hnot) as (w' & Hrun & _ & Hc).
    exists w'. split; [|exact Hc]. unfold fetchAnswers.
    exact (caught_other _ "Failed to fetch answers" _ _ _ Hrun Hother).
  - intros postId w error Hw Hapi Hnot Hother.
    destruct (request_rejected (comments_api E) (comments_request E postId)
                (fun response =>
                   if negb (ok response)
                   then throw_api_error "Stack Overflow API error" response
                   else
                     data <- response_json response ;;
                     ret (match items data with Some l => l | None => [] end))
                w error Hw Hapi Hnot) as (w' & Hrun & _ & Hc).
    exists w'. split; [|exact Hc]. unfold fetchComments.
    exact (caught_other _ "Failed to fetch comments" _ _ _ Hrun Hother).
  - intros query tags options w error Hw Hapi Hnot Hother.
    destruct (request_rejected (questions_api E)
                (search_request E query tags (Options.limit options))
                (fun response =>
                   if negb (ok response)
                   then throw_api_error "Stack Overflow API error" response
                   else
                     data <- response_json response ;;
                     questions <- iterate_items data ;;
                     composeResults E fuel (Options.minScore options)
                       (Options.includeComments options) questions [])
                w error Hw Hapi Hnot) as (w' & Hrun & _ & Hc).
    exists w'. split; [|exact Hc]. unfold searchStackOverflow.
    exact (caught_other _ "Failed to search Stack Overflow" _ _ _ Hrun Hother).
  - intros input w error Hw Hconfirmed Hevidence Hapi Hnot.
    destruct (Hquestion (PostSolution.questionId input) w error Hw Hapi Hnot)
      as (w' & Hrun & _).
    exists w'. unfold handlePostSolution. rewrite Hconfirmed, Hevidence.
    cbn [truthy_boolean negb]. unfold bind. now rewrite Hrun.
Qed.

(** X9.  Where [fetchAnswers] and [fetchComments] read [data.items || []],
    the search loops iterate [data.items] itself: an [ok] response whose
    payload has no [items] makes [searchStackOverflow] and [search_by_tags]
    fail with an [InternalError] (the wrapped [TypeError] of the loop), after
    the one request, instead of returning no results. *)
Theorem search_without_items_fails :
  (forall query tags options w response data,
      timestamps_in_past w ->
      questions_api E (length (calls w))
        (search_request E query tags (Options.limit options)) = inr response ->
      ok response = true -> json response = inr data -> items data = None ->
      exists reason w',
        searchStackOverflow E fuel query tags options w
        = Throw (McpError InternalError
                   ("Failed to search Stack Overflow: " ++ reason)) w'
        /\ calls w'
           = (calls w ++ [search_request E query tags (Options.limit options)])%list)
  /\ (forall args w response data,
         timestamps_in_past w ->
         questions_api E (length (calls w))
           (tags_request E (SearchByTags.tags args) (SearchByTags.limit args))
         = inr response ->
         ok response = true -> json response = inr data -> items data = None ->
         exists reason w',
           handleSearchByTags E fuel args w
           = Throw (McpError InternalError
                      ("Failed to search Stack Overflow: " ++ reason)) w'
           /\ calls w'
              = (calls w
                 ++ [tags_request E (SearchByTags.tags args)
                       (SearchByTags.limit args)])%list).
Proof.
  split.
  - intros query tags options w response data Hw Hapi Hok Hjson Hitems.
    destruct (rate_limited_fetch_resolved E fuel (questions_api E) _ w response Hw
                fuel_enough Hapi) as (w' & Hrun & _ & Hc).
    exists "data.items is not iterable", w'. split; [|exact Hc].
    unfold searchStackOverflow, try_catch, bind. rewrite Hrun, Hok. cbn [negb].
    unfold response_json. rewrite Hjson. unfold ret at 1.
    unfold iterate_items. now rewrite Hitems.
  - intros args w response data Hw Hapi Hok Hjson Hitems.
    destruct (rate_limited_fetch_resolved E fuel (questions_api E) _ w response Hw
                fuel_enough Hapi) as (w' & Hrun & _ & Hc).
    exists "data.items is not iterable", w'. split; [|exact Hc].
    unfold handleSearchByTags, try_catch, bind.
    change {| method := GET; endpoint := QuestionsList;
              params := append_credentials E _ |}
      with (tags_request E (SearchByTags.tags args) (SearchByTags.limit args)).
    rewrite Hrun, Hok. cbn [negb].
    unfold response_json. rewrite Hjson. unfold ret at 1.
    unfold iterate_items. now rewrite Hitems.
Qed.

Lemma bind_ret_throws {A B : Type} (m : M A) (f : A -> B) (w w' : World)
  (error : Thrown) :
  (x <- m ;; ret (f x)) w = Throw error w' -> m w = Throw error w'.
Proof.
  unfold bind. destruct (m w) as [a w1|thrown w1|]; [discriminate| |discriminate].
  now intros [= <- <-].
Qed.


End ClientErrors.

(** ** The enumeration order of a comments mapping *)

Section Enumeration.

Lemma first_occurrences_In (l : list Z) (x : Z) :
  In x (first_occurrences l) <-> In x l.
Proof.
  induction l as [|y l IH]; cbn [first_occurrences In]; [tauto|].
  rewrite filter_In, IH, negb_true_iff, Z.eqb_neq.
  destruct (Z.eq_dec y x) as [->|Hne]; [tauto|].
  split; [tauto|]. intros [Heq|Hin]; [now left|]. right. split; [exact Hin|].
  intros Heq. apply Hne. now symmetry.
Qed.

Lemma first_occurrences_snoc (l : list Z) (x : Z) :
  first_occurrences (l ++ [x])
  = (first_occurrences l ++ (if existsb (Z.eqb x) l then [] else [x]))%list.
Proof.
  induction l as [|y l IH]; cbn [first_occurrences app existsb filter];
    [reflexivity|].
  rewrite IH, filter_app. f_equal. f_equal.
  destruct (existsb (Z.eqb x) l); [now rewrite orb_true_r|].
  rewrite orb_false_r. cbn [filter]. now destruct (x =? y).
Qed.

Lemma not_listed (l : list Z) (x : Z) : ~ In x l -> existsb (Z.eqb x) l = false.
Proof.
  intros Hnot. destruct (existsb (Z.eqb x) l) eqn:Hex; [|reflexivity].
  apply existsb_exists in Hex. destruct Hex as (y & Hin & Heq).
  apply Z.eqb_eq in Heq. subst y. now destruct Hnot.
Qed.

Lemma listed (l : list Z) (x : Z) : In x l -> existsb (Z.eqb x) l = true.
Proof.
  intros Hin. apply existsb_exists. exists x. split; [exact Hin|apply Z.eqb_refl].
Qed.

(** A key that is no array index is created last. *)
Lemma create_property_last (key : Z) (value : list StackOverflowComment)
  (object : AnswerComments) :
  is_array_index key = false ->
  create_property key value object = (object ++ [(key, value)])%list.
Proof.
  intros Hkey. induction object as [|[k v] rest IH]; cbn [create_property app];
    [reflexivity|].
  rewrite Hkey. cbn [andb]. now rewrite IH.
Qed.

(** An array index is created at its place among the array indices. *)
Lemma create_property_index (key : Z) (value : list StackOverflowComment)
  (others : list Z) :
  is_array_index key = true ->
  Forall (fun k => is_array_index k = false) others ->
  forall indices object,
    map fst object = (indices ++ others)%list ->
    StronglySorted Z.lt indices ->
    Forall (fun k => is_array_index k = true) indices ->
    ~ In key indices ->
    exists indices',
      map fst (create_property key value object) = (indices' ++ others)%list
      /\ StronglySorted Z.lt indices'
      /\ (forall id, In id indices' <-> id = key \/ In id indices).
Proof.
  intros Hkey Hothers.
  induction indices as [|i indices IH]; intros object Hkeys Hsorted Hall Hnew.
  - exists [key].
    split; [|split; [constructor; constructor
                    |intros id; cbn [In]; split; intros [->|[]]; now left]].
    destruct object as [|[k v] rest]; cbn [create_property map fst app];
      [cbn [map app] in Hkeys; now rewrite <- Hkeys|].
    cbn [map fst app] in Hkeys. rewrite <- Hkeys in Hothers.
    apply Forall_cons_iff in Hothers. destruct Hothers as [Hk _].
    rewrite Hkey, Hk. cbn [andb negb orb map fst]. now rewrite Hkeys.
  - destruct object as [|[k v] rest]; [discriminate Hkeys|].
    cbn [map fst app] in Hkeys. injection Hkeys as -> Hrest.
    apply StronglySorted_inv in Hsorted. destruct Hsorted as [Hsorted Hless].
    apply Forall_cons_iff in Hall. destruct Hall as [Hi Hall].
    cbn [create_property]. rewrite Hkey, Hi. cbn [andb negb orb].
    destruct (key <? i) eqn:Hlt.
    + apply Z.ltb_lt in Hlt. exists (key :: i :: indices).
      split; [cbn [map fst app]; now rewrite Hrest|].
      split; [|intros id; cbn [In]; intuition (subst; auto)].
      constructor; [now constructor|]. constructor; [exact Hlt|].
      eapply Forall_impl; [|exact Hless]. cbv beta. intros x Hx. lia.
    + apply Z.ltb_ge in Hlt.
      assert (Hne : key <> i) by (intros ->; apply Hnew; now left).
      destruct (IH rest Hrest Hsorted Hall) as (indices' & Hcreated & Hsorted' & Hmem).
      { intros Hin. apply Hnew. now right. }
      exists (i :: indices'). split; [cbn [map fst app]; now rewrite Hcreated|].
      split.
      * constructor; [exact Hsorted'|]. apply Forall_forall. intros x Hx.
        apply Hmem in Hx. destruct Hx as [->|Hx]; [lia|].
        rewrite Forall_forall in Hless. now apply Hless.
      * intros id. cbn [In]. rewrite Hmem. tauto.
Qed.

(** One assignment: the keys stay in enumeration order. *)
Lemma answers_set_enumerates (key : Z) (value : list StackOverflowComment)
  (object : AnswerComments) (ids : list Z) :
  enumerates ids (map fst object) ->
  enumerates (ids ++ [key]) (map fst (answers_set key value object)).
Proof.
  intros (indices & Hkeys & Hsorted & Hmem).
  set (others := filter (fun id => negb (is_array_index id)) ids) in *.
  assert (Hothers : forall id, In id others <-> In id ids /\ is_array_index id = false).
  { intros id. unfold others. now rewrite filter_In, negb_true_iff. }
  assert (Hlisted : forall id, In id (map fst object) <-> In id ids).
  { intros id. rewrite Hkeys, in_app_iff, first_occurrences_In, Hmem, Hothers.
    destruct (is_array_index id); intuition discriminate. }
  assert (Hfilter : filter (fun id => negb (is_array_index id)) (ids ++ [key])
                    = (others ++ (if is_array_index key then [] else [key]))%list).
  { rewrite filter_app. cbn [filter]. now destruct (is_array_index key). }
  unfold answers_set, enumerates. rewrite Hfilter.
  destruct (has_key key object) eqn:Hhas.
  - apply has_key_spec, Hlisted in Hhas. rewrite replace_value_keys.
    exists indices. split; [|split; [exact Hsorted|]].
    + destruct (is_array_index key) eqn:Hkey; [now rewrite List.app_nil_r|].
      rewrite first_occurrences_snoc, (listed others key), List.app_nil_r;
        [exact Hkeys|]. now apply Hothers.
    + intros id. rewrite Hmem, in_app_iff. cbn [In].
      split; [tauto|]. intros [[Hin|[<-|[]]] Hid]; tauto.
  - assert (Hnew : ~ In key ids).
    { intros Hin. apply Hlisted, has_key_spec in Hin.
      rewrite Hin in Hhas. discriminate Hhas. }
    destruct (is_array_index key) eqn:Hkey.
    + destruct (create_property_index key value (first_occurrences others) Hkey)
        with (indices := indices) (object := object)
        as (indices' & Hcreated & Hsorted' & Hmem').
      * apply Forall_forall. intros id Hid.
        now apply first_occurrences_In, Hothers in Hid.
      * exact Hkeys.
      * exact Hsorted.
      * apply Forall_forall. intros id Hid. now apply Hmem in Hid.
      * intros Hin. apply Hmem in Hin. tauto.
      * exists indices'. rewrite List.app_nil_r.
        split; [exact Hcreated|]. split; [exact Hsorted'|].
        intros id. rewrite Hmem', Hmem, in_app_iff. cbn [In].
        split.
        -- intros [->|[Hin Hid]]; tauto.
        -- intros [[Hin|[<-|[]]] Hid]; tauto.
    + rewrite (create_property_last key value object Hkey), map_app.
      cbn [map fst]. exists indices. split; [|split; [exact Hsorted|]].
      * rewrite first_occurrences_snoc, (not_listed others key), Hkeys;
          [now rewrite List.app_assoc|].
        intros Hin. apply Hothers in Hin. tauto.
      * intros id. rewrite Hmem, in_app_iff. cbn [In].
        split; [tauto|]. intros [[Hin|[<-|[]]] Hid]; [tauto|].
        rewrite Hkey in Hid. discriminate Hid.
Qed.

End Enumeration.

(** ** The results of a search, whatever the remote does *)

Section Bundles.

Variable E : Environment.
Variable fuel : nat.
Hypothesis fuel_enough : (enough_fuel <= fuel)%nat.

Lemma answers_get_defined (key : Z) (object : AnswerComments) :
  In key (map fst object) <-> exists l, answers_get key object = Some l.
Proof.
  induction object as [|[k v] rest IH]; cbn [answers_get map fst In].
  - split; [intros []|intros (l & Hl); discriminate Hl].
  - destruct (key =? k) eqn:Heq.
    + apply Z.eqb_eq in Heq. subst k. split; [now exists v|now left].
    + apply Z.eqb_neq in Heq. rewrite <- IH. split; [|now right].
      intros [Hk|Hin]; [now destruct Heq|exact Hin].
Qed.

Lemma fetchAnswerComments_enumerates (answers : list StackOverflowAnswer) :
  forall answersMap w answersMap' w' ids,
    fetchAnswerComments E fuel answers answersMap w = Return answersMap' w' ->
    enumerates ids (map fst answersMap) ->
    enumerates (ids ++ answer_ids answers) (map fst answersMap').
Proof.
  induction answers as [|answer others IH]; intros answersMap w answersMap' w' ids;
    cbn [fetchAnswerComments].
  - unfold ret. intros [= <- _]. cbn [answer_ids flat_map].
    now rewrite List.app_nil_r.
  - unfold answer_ids. cbn [flat_map]. fold (answer_ids others).
    destruct (Answer.answer_id answer) as [key|]; cbn [app]; [|apply IH].
    unfold bind at 1.
    destruct (fetchComments E fuel key w) as [fetched w1|error w1|];
      [|discriminate|discriminate].
    intros Hrun Hids.
    replace (ids ++ key :: answer_ids others)%list
      with ((ids ++ [key]) ++ answer_ids others)%list
      by (rewrite <- List.app_assoc; reflexivity).
    apply (IH _ _ _ _ _ Hrun). now apply answers_set_enumerates.
Qed.

Lemma fetchAnswerComments_keys (answers : list StackOverflowAnswer) :
  forall answersMap w answersMap' w',
    fetchAnswerComments E fuel answers answersMap w = Return answersMap' w' ->
    forall id, In id (map fst answersMap')
               <-> In id (map fst answersMap) \/ In id (answer_ids answers).
Proof.
  induction answers as [|answer others IH]; intros answersMap w answersMap' w';
    cbn [fetchAnswerComments].
  - unfold ret. intros [= <- _] id. cbn [answer_ids flat_map In]. tauto.
  - unfold answer_ids. cbn [flat_map]. fold (answer_ids others).
    destruct (Answer.answer_id answer) as [key|]; cbn [app].
    + unfold bind at 1.
      destruct (fetchComments E fuel key w) as [fetched w1|error w1|];
        [|discriminate|discriminate].
      intros Hrun id. rewrite (IH _ _ _ _ Hrun id), answers_set_keys.
      cbn [In]. intuition.
    + apply IH.
Qed.

Lemma same_keys_same_length (keys ids : list Z) :
  NoDup keys -> NoDup ids -> (forall id, In id keys <-> In id ids) ->
  length keys = length ids.
Proof.
  intros Hkeys Hids Hsame. apply Nat.le_antisymm; apply NoDup_incl_length;
    try assumption; intros id Hin; now apply Hsame.
Qed.

Lemma composeResults_well_formed (minScore : option Z) (includeComments : option bool)
  (questions : list StackOverflowQuestion) :
  forall results w results' w',
    composeResults E fuel minScore includeComments questions results w
    = Return results' w' ->
    Forall (result_well_formed (truthy_boolean includeComments)) results ->
    Forall (result_well_formed (truthy_boolean includeComments)) results'.
Proof.
  induction questions as [|question others IH]; intros results w results' w';
    cbn [composeResults].
  - unfold ret. now intros [= <- _].
  - destruct (below_minScore minScore question); [apply IH|].
    unfold bind at 1.
    destruct (fetchAnswers E fuel (Question.question_id question) w)
      as [answers w1|error w1|]; [|discriminate|discriminate].
    unfold bind at 1.
    destruct (truthy_boolean includeComments) eqn:Hic.
    + unfold bind at 1.
      destruct (fetchComments E fuel (Question.question_id question) w1)
        as [ofQuestion w2|error w2|]; [|discriminate|discriminate].
      unfold bind at 1.
      destruct (fetchAnswerComments E fuel answers [] w2)
        as [ofAnswers w3|error w3|] eqn:Hmap; [|discriminate|discriminate].
      unfold ret at 1. intros Hrun Hvalid. apply (IH _ _ _ _ Hrun).
      apply Forall_app. split; [exact Hvalid|]. constructor; [|constructor].
      assert (Hdistinct : NoDup (map fst ofAnswers)).
      { apply (fetchAnswerComments_distinct E fuel answers [] w2 ofAnswers w3 Hmap).
        constructor. }
      assert (Horder : enumerates (answer_ids answers) (map fst ofAnswers)).
      { apply (fetchAnswerComments_enumerates answers [] w2 ofAnswers w3 [] Hmap).
        exists []. split; [reflexivity|]. split; [constructor|].
        intros id. cbn [In]. tauto. }
      assert (Hkeys : forall id, In id (map fst ofAnswers) <-> In id (answer_ids answers)).
      { intros id.
        rewrite (fetchAnswerComments_keys answers [] w2 ofAnswers w3 Hmap id).
        cbn [map In]. tauto. }
      split; [|exact Horder]. unfold bundle_matches.
      cbn [Result.comments Result.answers Comments.answers].
      split; [reflexivity|]. split; [exact Hkeys|].
      intros Hnodup. rewrite <- (length_map fst ofAnswers).
      apply same_keys_same_length; [exact Hdistinct|exact Hnodup|exact Hkeys].
    + unfold ret at 1. intros Hrun Hvalid. apply (IH _ _ _ _ Hrun).
      apply Forall_app. split; [exact Hvalid|]. constructor; [|constructor].
      split; [reflexivity|exact I].
Qed.

Lemma caught_returns {A : Type} (m : M A) (handler : Thrown -> M A) (w w' : World)
  (a : A) :
  (forall error w1, exists thrown, handler error w1 = Throw thrown w1) ->
  try_catch m handler w = Return a w' -> m w = Return a w'.
Proof.
  intros Hthrows. unfold try_catch.
  destruct (m w) as [x w1|error w1|]; [easy| |discriminate].
  destruct (Hthrows error w1) as (thrown & ->). discriminate.
Qed.

Lemma rethrow_or_wrap_throws {A : Type} (what : string) (error : Thrown) (w : World) :
  exists thrown, @rethrow_or_wrap A what error w = Throw thrown w.
Proof.
  unfold rethrow_or_wrap. destruct (instanceof_McpError error); eexists; reflexivity.
Qed.

(** A search that returns has gone through the loop on the items of an [ok]
    response. *)
Lemma searchStackOverflow_returns (query : string) (tags : option (list string))
  (options : SearchOptions) (w w' : World) (results : list SearchResult) :
  searchStackOverflow E fuel query tags options w = Return results w' ->
  exists questions w1,
    composeResults E fuel (Options.minScore options)
      (Options.includeComments options) questions [] w1
    = Return results w'.
Proof.
  intros Hrun. unfold searchStackOverflow in Hrun.
  apply caught_returns in Hrun; [|intros error w1; apply rethrow_or_wrap_throws].
  unfold bind at 1 in Hrun.
  destruct (rate_limited_fetch E fuel (questions_api E) _ w) as [response w1|error w1|];
    [|discriminate|discriminate].
  destruct (negb (ok response)).
  - unfold throw_api_error, bind, throw in Hrun.
    destruct (response_json response w1); discriminate.
  - unfold bind at 1 in Hrun.
    destruct (response_json response w1) as [data w2|error w2|];
      [|discriminate|discriminate].
    unfold bind at 1 in Hrun.
    destruct (iterate_items data w2) as [questions w3|error w3|];
      [|discriminate|discriminate].
    now exists questions, w3.
Qed.

Lemma searchStackOverflow_well_formed (query : string) (tags : option (list string))
  (options : SearchOptions) (w w' : World) (results : list SearchResult) :
  searchStackOverflow E fuel query tags options w = Return results w' ->
  Forall (result_well_formed (truthy_boolean (Options.includeComments options))) results.
Proof.
  intros Hrun. destruct (searchStackOverflow_returns _ _ _ _ _ _ Hrun)
    as (questions & w1 & Hloop).
  apply (composeResults_well_formed _ _ questions [] w1 results w' Hloop).
  constructor.
Qed.

Lemma composeResults_kept (minScore : option Z) (includeComments : option bool)
  (questions : list StackOverflowQuestion) :
  forall results w results' w',
    composeResults E fuel minScore includeComments questions results w
    = Return results' w' ->
    exists new,
      results' = (results ++ new)%list
      /\ map Result.question new
         = filter (fun q => negb (below_minScore minScore q)) questions.
Proof.
  induction questions as [|question others IH]; intros results w results' w';
    cbn [composeResults filter].
  - unfold ret. intros [= <- _]. exists []. now rewrite List.app_nil_r.
  - destruct (below_minScore minScore question); cbn [negb]; [apply IH|].
    unfold bind at 1.
    destruct (fetchAnswers E fuel (Question.question_id question) w)
      as [answers w1|error w1|]; [|discriminate|discriminate].
    unfold bind at 1.
    match goal with
    | |- match ?c with _ => _ end = _ -> _ =>
        destruct c as [comments w2|error w2|]; [|discriminate|discriminate]
    end.
    intros Hrun. destruct (IH _ _ _ _ Hrun) as (new & -> & Hnew).
    exists ({| Result.question := question; Result.answers := answers;
               Result.comments := comments |} :: new).
    split; [now rewrite <- List.app_assoc|]. cbn [map Result.question].
    now rewrite Hnew.
Qed.

(** X11.  Whenever [searchStackOverflow] returns, every result is well
    formed: it has a comments bundle exactly when [includeComments] is true,
    and the keys of the bundle's answers mapping are exactly the ids of the
    result's answers (an entry for every answer, none for anything else, and
    as many entries as answers when the ids are distinct), each key once, in
    the enumeration order of the object: first the ids that are array indices
    (0 to 2^32 - 2) in ascending order, then the other ids (negative or from
    2^32 - 1 on) in the order in which their answers first came.  This holds
    against any remote, also one that fails or sends answers without ids. *)
Theorem search_results_are_well_formed (query : string)
  (tags : option (list string)) (options : SearchOptions) (w w' : World)
  (results : list SearchResult) :
  searchStackOverflow E fuel query tags options w = Return results w' ->
  Forall (fun r =>
            bundle_matches (truthy_boolean (Options.includeComments options)) r
            /\ match Result.comments r with
               | Some c =>
                   NoDup (map fst (Comments.answers c))
                   /\ exists indices,
                        map fst (Comments.answers c)
                        = (indices
                           ++ first_occurrences
                                (filter (fun id => negb (is_array_index id))
                                   (answer_ids (Result.answers r))))%list
                        /\ StronglySorted Z.lt indices
                        /\ (forall id,
                               In id indices
                               <-> In id (answer_ids (Result.answers r))
                                   /\ 0 <= id <= 4294967294)
               | None => True
               end) results.
Proof.
  intros Hrun.
  pose proof (searchStackOverflow_well_formed query tags options w w' results Hrun)
    as Hwell.
  pose proof (searchStackOverflow_objects E fuel query tags options w w' results Hrun)
    as Hobjects.
  unfold mappings_are_objects in Hobjects.
  rewrite Forall_forall in Hwell, Hobjects |- *.
  intros r Hr. destruct (Hwell r Hr) as (Hbundle & Horder).
  specialize (Hobjects r Hr). split; [exact Hbundle|].
  destruct (Result.comments r) as [c|]; [|exact I].
  split; [exact Hobjects|].
  destruct Horder as (indices & Hkeys & Hsorted & Hmem).
  exists indices. split; [exact Hkeys|]. split; [exact Hsorted|].
  intros id. rewrite Hmem. unfold is_array_index.
  rewrite andb_true_iff, !Z.leb_le. tauto.
Qed.

(** X12.  The score filter for a threshold other than 0: when the remote
    answers the search request with the questions [questions] and
    [searchStackOverflow] returns, the questions of its results are, in the
    order the remote listed them, exactly the listed questions whose score is
    at least [minScore]; with no [minScore] they are all the listed
    questions. *)
Theorem minScore_keeps_scores_at_least (query : string)
  (tags : option (list string)) (options : SearchOptions) (w w' : World)
  (data : Payload StackOverflowQuestion) (questions : list StackOverflowQuestion)
  (results : list SearchResult) :
  timestamps_in_past w ->
  payload_of (questions_api E (length (calls w))
                (search_request E query tags (Options.limit options))) = Some data ->
  items data = Some questions ->
  searchStackOverflow E fuel query tags options w = Return results w' ->
  (forall threshold,
      Options.minScore options = Some threshold -> threshold <> 0 ->
      map Result.question results
      = filter (fun q => threshold <=? Question.score q) questions)
  /\ (Options.minScore options = None ->
      map Result.question results = questions).
Proof.
  intros Hw Hdata Hitems Hrun.
  destruct (payload_of_resolved _ data Hdata) as (response & Hapi & Hok & Hjson).
  destruct (rate_limited_fetch_resolved E fuel (questions_api E) _ w response Hw
              fuel_enough Hapi) as (w1 & Hfetch & _ & _).
  unfold searchStackOverflow in Hrun.
  apply caught_returns in Hrun; [|intros error w2; apply rethrow_or_wrap_throws].
  unfold bind at 1 in Hrun. rewrite Hfetch, Hok in Hrun. cbn [negb] in Hrun.
  unfold bind at 1, response_json in Hrun. rewrite Hjson in Hrun.
  unfold ret at 1 in Hrun. unfold bind at 1, iterate_items in Hrun.
  rewrite Hitems in Hrun. unfold ret at 1 in Hrun.
  destruct (composeResults_kept _ _ questions [] w1 results w' Hrun)
    as (new & -> & Hnew).
  cbn [app]. rewrite Hnew. split.
  - intros threshold -> Hnonzero. apply filter_ext. intros q.
    unfold below_minScore, truthy_number.
    apply Z.eqb_neq in Hnonzero. rewrite Hnonzero. cbn [negb andb].
    symmetry. apply Z.leb_antisym.
  - intros ->. apply filter_all. apply Forall_forall. now intros q _.
Qed.

(** X13.  The formatter finds what the aggregator stored: in every result
    that [searchStackOverflow] returns with [includeComments] true, the lookup
    [result.comments?.answers[answer.answer_id]] of the markdown formatter
    yields a comments array for every answer of the result that has an id;
    without [includeComments] it yields nothing for any answer. *)
Theorem formatter_finds_answer_comments (query : string)
  (tags : option (list string)) (options : SearchOptions) (w w' : World)
  (results : list SearchResult) (r : SearchResult) (a : StackOverflowAnswer) :
  searchStackOverflow E fuel query tags options w = Return results w' ->
  In r results -> In a (Result.answers r) ->
  (truthy_boolean (Options.includeComments options) = true ->
   Answer.answer_id a <> None ->
   exists l, comments_of_answer r a = Some l)
  /\ (truthy_boolean (Options.includeComments options) = false ->
      comments_of_answer r a = None).
Proof.
  intros Hrun Hr Ha.
  pose proof (searchStackOverflow_well_formed _ _ _ _ _ _ Hrun) as Hall.
  rewrite Forall_forall in Hall. destruct (Hall r Hr) as (Hbundle & _).
  unfold bundle_matches in Hbundle. unfold comments_of_answer.
  destruct (Result.comments r) as [c|].
  - destruct Hbundle as (Hic & Hkeys & _). split.
    + intros _ Hid. destruct (Answer.answer_id a) as [id|] eqn:Hsome;
        [|now destruct Hid].
      apply answers_get_defined, Hkeys. unfold answer_ids.
      apply in_flat_map. exists a. split; [exact Ha|]. rewrite Hsome. now left.
    + intros Hno. rewrite Hno in Hic. discriminate Hic.
  - split; [|reflexivity]. intros Hic. rewrite Hic in Hbundle. discriminate Hbundle.
Qed.

End Bundles.

(** ** The write handlers past their gates *)

Section WriteOutcomes.

Variable E : Environment.
Variable fuel : nat.
Hypothesis fuel_enough : (enough_fuel <= fuel)%nat.

(** A write whose response is [ok]: it is sent once and the rest runs on the
    response. *)
Lemma write_accepted {A : Type} (target : Endpoint) (fields : URLSearchParams)
  (what : string) (rest : Response Created -> M A) (w : World)
  (response : Response Created) :
  timestamps_in_past w ->
  write_api E (length (calls w)) (write_request E target fields) = inr response ->
  ok response = true ->
  exists w',
    (response <- rate_limited_fetch E fuel (write_api E)
                   (write_request E target fields) ;;
     if negb (ok response) then throw_api_error what response else rest response) w
    = rest response w'
    /\ timestamps_in_past w'
    /\ calls w' = (calls w ++ [write_request E target fields])%list.
Proof.
  intros Hw Hapi Hok.
  destruct (rate_limited_fetch_resolved E fuel (write_api E) _ w response Hw
              fuel_enough Hapi) as (w' & Hrun & Hp & Hc).
  exists w'. split; [|now split]. unfold bind at 1. now rewrite Hrun, Hok.
Qed.

Lemma posted_question_distinct (created : option Created) (approaches : list string) :
  keys_distinct (posted_question created approaches).
Proof.
  apply keys_distinct_object. unfold posted_question, property.
  destruct (optional_chain created created_question_id);
    destruct (optional_chain created created_link);
    (split; [apply literal_keys_distinct; reflexivity
            |repeat (apply Forall_cons; [first [exact I|apply keys_distinct_strings]|]);
             apply Forall_nil]).
Qed.

Lemma posted_answer_distinct (created : option Created)
  (evidence : option (list string)) :
  keys_distinct (posted_answer created evidence).
Proof.
  apply keys_distinct_object. unfold posted_answer, property.
  destruct (optional_chain created created_answer_id);
    destruct (optional_chain created created_link);
    destruct evidence;
    (split; [apply literal_keys_distinct; reflexivity
            |repeat (apply Forall_cons; [first [exact I|apply keys_distinct_strings]|]);
             apply Forall_nil]).
Qed.

Lemma posted_comment_distinct (created : option Created) :
  keys_distinct (posted_comment created).
Proof.
  apply keys_distinct_object. unfold posted_comment, property.
  destruct (optional_chain created created_comment_id);
    (split; [apply literal_keys_distinct; reflexivity
            |repeat (apply Forall_cons; [exact I|]); apply Forall_nil]).
Qed.

(** X14.  [thumbs_up]: unless [confirmedFixed] is true the call is refused in
    the state it was made in, whatever the credentials.  With it true and both
    credentials set, exactly one request is sent, a POST to the upvote
    endpoint of the post carrying [site], [key] and [access_token]; an [ok]
    response gives the fixed success text without its body being read, and a
    response that is not [ok] gives an [InvalidRequest] error with the
    remote's message. *)
Theorem thumbs_up_outcomes (input : ThumbsUpInput) (w : World) :
  (ThumbsUp.confirmedFixed input <> Some true ->
   handleThumbsUp E fuel input w = Throw not_confirmed_fixed w)
  /\ (forall response,
         ThumbsUp.confirmedFixed input = Some true ->
         credentials_present E -> timestamps_in_past w ->
         write_api E (length (calls w))
           (write_request E (PostUpvote (ThumbsUp.postId input)) [])
         = inr response ->
         exists w',
           calls w'
           = (calls w ++ [write_request E (PostUpvote (ThumbsUp.postId input)) []])%list
           /\ (ok response = true ->
               handleThumbsUp E fuel input w
               = Return {| content_text := "Upvote submitted successfully" |} w')
           /\ (forall data,
                  ok response = false -> json response = inr data ->
                  handleThumbsUp E fuel input w
                  = Throw (McpError InvalidRequest
                             (api_error_message "Failed to upvote" data)) w')).
Proof.
  split.
  - intros Hnot. unfold handleThumbsUp.
    destruct (ThumbsUp.confirmedFixed input) as [[|]|];
      [now destruct Hnot|reflexivity|reflexivity].
  - intros response Hconfirmed Hpresent Hw Hapi.
    destruct (rate_limited_fetch_resolved E fuel (write_api E) _ w response Hw
                fuel_enough Hapi) as (w' & Hrun & _ & Hc).
    exists w'. split; [exact Hc|].
    assert (Hcall : handleThumbsUp E fuel input w
                    = (if negb (ok response)
                       then throw_api_error "Failed to upvote" response
                       else ret {| content_text := "Upvote submitted successfully" |})
                        w').
    { unfold handleThumbsUp. rewrite Hconfirmed. cbn [truthy_boolean negb].
      rewrite (ensureWriteAccess_present E Hpresent).
      unfold bind at 1. unfold ret at 1. unfold bind at 1.
      change {| method := POST; endpoint := PostUpvote (ThumbsUp.postId input);
                params := _ |}
        with (write_request E (PostUpvote (ThumbsUp.postId input)) []).
      now rewrite Hrun. }
    rewrite Hcall. split.
    + now intros ->.
    + intros data -> Hjson. cbn [negb].
      unfold throw_api_error, response_json, bind. now rewrite Hjson.
Qed.

(** X15.  [comment_solution]: the question is fetched first.  When the fetch
    fails, finds nothing, or finds a question with an accepted answer, the
    call fails after that one lookup, so nothing is posted.  A question that
    has answers but no accepted one does not block the comment: with both
    credentials set the comment is sent in one POST to the comments endpoint
    of the question, carrying [site], [body], [key] and [access_token], and
    the text returned parses back to the success message with the id of the
    created comment. *)
Theorem comment_solution_outcomes (input : CommentSolutionInput) (w : World) :
  timestamps_in_past w ->
  (forall error w1,
      fetchQuestion E fuel (CommentSolution.questionId input) w = Throw error w1 ->
      handleCommentSolution E fuel input w = Throw error w1)
  /\ (forall w1,
         fetchQuestion E fuel (CommentSolution.questionId input) w = Return None w1 ->
         handleCommentSolution E fuel input w = Throw question_not_found w1)
  /\ (forall question w1,
         fetchQuestion E fuel (CommentSolution.questionId input) w
         = Return (Some question) w1 ->
         truthy_number (Question.accepted_answer_id question) = true ->
         handleCommentSolution E fuel input w = Throw already_accepted w1)
  /\ ((forall question w1,
          fetchQuestion E fuel (CommentSolution.questionId input) w
          = Return (Some question) w1 ->
          truthy_number (Question.accepted_answer_id question) = true) ->
      fails_issuing question_lookup w (handleCommentSolution E fuel input w))
  /\ (forall question w1 response data,
         fetchQuestion E fuel (CommentSolution.questionId input) w
         = Return (Some question) w1 ->
         truthy_number (Question.accepted_answer_id question) = false ->
         credentials_present E ->
         write_api E (length (calls w1))
           (write_request E (CommentsAdd (CommentSolution.questionId input))
              [("body", CommentSolution.body input)])
         = inr response ->
         ok response = true -> json response = inr data ->
         exists result w',
           handleCommentSolution E fuel input w = Return result w'
           /\ calls w'
              = (calls w1
                 ++ [write_request E (CommentsAdd (CommentSolution.questionId input))
                       [("body", CommentSolution.body input)]])%list
           /\ JSON_parse (content_text result)
              = Some (posted_comment (first_item data))).
Proof.
  intros Hw.
  pose proof (total_fetchQuestion E fuel fuel_enough
                (CommentSolution.questionId input) w Hw) as Hfetch.
  split; [|split; [|split; [|split]]].
  - intros error w1 Hrun. unfold handleCommentSolution, bind. now rewrite Hrun.
  - intros w1 Hrun. unfold handleCommentSolution, bind. now rewrite Hrun.
  - intros question w1 Hrun Haccepted. unfold handleCommentSolution, bind at 1.
    now rewrite Hrun, Haccepted.
  - intros Hall. unfold handleCommentSolution, bind at 1.
    destruct (fetchQuestion E fuel (CommentSolution.questionId input) w)
      as [[question|] w1|error w1|]; [| exact Hfetch | exact Hfetch | exact Hfetch].
    rewrite (Hall question w1 eq_refl). exact Hfetch.
  - intros question w1 response data Hrun Hnone Hpresent Hapi Hok Hjson.
    rewrite Hrun in Hfetch. destruct Hfetch as (Hw1 & _).
    destruct (write_accepted (CommentsAdd (CommentSolution.questionId input))
                [("body", CommentSolution.body input)] "Failed to post comment"
                (fun response =>
                   data <- response_json response ;;
                   ret {| content_text :=
                            JSON_stringify (posted_comment (first_item data)) |})
                w1 response Hw1 Hapi Hok) as (w' & Hwrite & _ & Hc).
    exists {| content_text := JSON_stringify (posted_comment (first_item data)) |}, w'.
    split; [|split; [exact Hc|]].
    + unfold handleCommentSolution, bind at 1. rewrite Hrun, Hnone.
      rewrite (ensureWriteAccess_present E Hpresent).
      unfold bind at 1. unfold ret at 1.
      transitivity
        ((data <- response_json response ;;
          ret {| content_text :=
                   JSON_stringify (posted_comment (first_item data)) |}) w');
        [exact Hwrite|].
      unfold bind, response_json. now rewrite Hjson.
    + cbn [content_text]. apply JSON_parse_stringify, posted_comment_distinct.
Qed.

(** X16.  [post_question] past its gates: when the duplicate search returns
    no result and both credentials are set, exactly one more request is sent,
    a POST to the questions endpoint carrying [site], [title], [body], the
    tags joined by semicolons, [key] and [access_token].  On an [ok] response
    the text returned is JSON that parses back to the success message, the id
    and link of the created question (left out when the response has no
    item) and the tried approaches as given; on a response that is not [ok]
    the call fails with an [InvalidRequest] error carrying the remote's
    message. *)
Theorem post_question_outcomes (input : PostQuestionInput) (w w1 : World)
  (response : Response Created) (data : Payload Created) :
  searchStackOverflow E fuel (PostQuestion.errorSignature input)
    (Some (PostQuestion.tags input)) duplicate_search_options w = Return [] w1 ->
  timestamps_in_past w1 ->
  credentials_present E ->
  let request :=
    write_request E QuestionsAdd
      [("title", PostQuestion.title input); ("body", PostQuestion.body input);
       ("tags", join ";" (PostQuestion.tags input))] in
  write_api E (length (calls w1)) request = inr response ->
  json response = inr data ->
  exists w',
    calls w' = (calls w1 ++ [request])%list
    /\ (ok response = true ->
        exists result,
          handlePostQuestion E fuel input w = Return result w'
          /\ JSON_parse (content_text result)
             = Some (posted_question (first_item data)
                       (PostQuestion.triedApproaches input)))
    /\ (ok response = false ->
        handlePostQuestion E fuel input w
        = Throw (McpError InvalidRequest
                   (api_error_message "Failed to post question" data)) w').
Proof.
  intros Hsearch Hw1 Hpresent request Hapi Hjson.
  destruct (rate_limited_fetch_resolved E fuel (write_api E) _ w1 response Hw1
              fuel_enough Hapi) as (w' & Hrun & _ & Hc).
  exists w'. split; [exact Hc|].
  assert (Hcall : handlePostQuestion E fuel input w
                  = (if negb (ok response)
                     then throw_api_error "Failed to post question" response
                     else
                       data <- response_json response ;;
                       ret {| content_text :=
                                JSON_stringify
                                  (posted_question (first_item data)
                                     (PostQuestion.triedApproaches input)) |}) w').
  { unfold handlePostQuestion, bind at 1. unfold duplicate_search_options in Hsearch.
    rewrite Hsearch. cbn [length Nat.ltb Nat.leb].
    rewrite (ensureWriteAccess_present E Hpresent).
    unfold bind at 1. unfold ret at 1. unfold bind at 1.
    change {| method := POST; endpoint := QuestionsAdd; params := _ |} with request.
    now rewrite Hrun. }
  rewrite Hcall. split.
  - intros ->. cbn [negb]. unfold bind, response_json. rewrite Hjson.
    eexists. split; [reflexivity|]. cbn [content_text].
    apply JSON_parse_stringify, posted_question_distinct.
  - intros ->. cbn [negb]. unfold throw_api_error, response_json, bind.
    now rewrite Hjson.
Qed.

(** X17.  [post_solution] past its gates: with [confirmedResolved] true,
    evidence given, the fetched question free of answers and both credentials
    set, exactly one more request is sent, a POST to the answers endpoint of
    the question carrying [site], [body], [key] and [access_token] (the
    evidence is not sent).  On an [ok] response the text returned is JSON that
    parses back to the success message, the id and link of the created answer
    and the evidence as given; on a response that is not [ok] the call fails
    with an [InvalidRequest] error carrying the remote's message. *)
Theorem post_solution_outcomes (input : PostSolutionInput) (w w1 : World)
  (question : StackOverflowQuestion) (response : Response Created)
  (data : Payload Created) :
  PostSolution.confirmedResolved input = Some true ->
  no_evidence (PostSolution.evidence input) = false ->
  fetchQuestion E fuel (PostSolution.questionId input) w
  = Return (Some question) w1 ->
  has_answers question = false ->
  timestamps_in_past w1 ->
  credentials_present E ->
  let request :=
    write_request E (AnswersAdd (PostSolution.questionId input))
      [("body", PostSolution.body input)] in
  write_api E (length (calls w1)) request = inr response ->
  json response = inr data ->
  exists w',
    calls w' = (calls w1 ++ [request])%list
    /\ (ok response = true ->
        exists result,
          handlePostSolution E fuel input w = Return result w'
          /\ JSON_parse (content_text result)
             = Some (posted_answer (first_item data) (PostSolution.evidence input)))
    /\ (ok response = false ->
        handlePostSolution E fuel input w
        = Throw (McpError InvalidRequest
                   (api_error_message "Failed to post answer" data)) w').
Proof.
  intros Hconfirmed Hevidence Hfetch Hnone Hw1 Hpresent request Hapi Hjson.
  destruct (rate_limited_fetch_resolved E fuel (write_api E) _ w1 response Hw1
              fuel_enough Hapi) as (w' & Hrun & _ & Hc).
  exists w'. split; [exact Hc|].
  assert (Hcall : handlePostSolution E fuel input w
                  = (if negb (ok response)
                     then throw_api_error "Failed to post answer" response
                     else
                       data <- response_json response ;;
                       ret {| content_text :=
                                JSON_stringify
                                  (posted_answer (first_item data)
                                     (PostSolution.evidence input)) |}) w').
  { unfold handlePostSolution. rewrite Hconfirmed, Hevidence.
    cbn [truthy_boolean negb]. unfold bind at 1. rewrite Hfetch, Hnone.
    rewrite (ensureWriteAccess_present E Hpresent).
    unfold bind at 1. unfold ret at 1. unfold bind at 1.
    change {| method := POST; endpoint := AnswersAdd (PostSolution.questionId input);
              params := _ |} with request.
    now rewrite Hrun. }
  rewrite Hcall. split.
  - intros ->. cbn [negb]. unfold bind, response_json. rewrite Hjson.
    eexists. split; [reflexivity|]. cbn [content_text].
    apply JSON_parse_stringify, posted_answer_distinct.
  - intros ->. cbn [negb]. unfold throw_api_error, response_json, bind.
    now rewrite Hjson.
Qed.

End WriteOutcomes.

(** ** The markdown of [formatResponse] *)

Section Markdown.

Local Open Scope string_scope.

Lemma includes_here (needle after : string) :
  includes needle (needle ++ after) = true.
Proof. apply includes_spec. now exists "", after. Qed.

Lemma includes_start (needle haystack after : string) :
  haystack = needle ++ after -> includes needle haystack = true.
Proof. intros ->. apply includes_here. Qed.

Lemma includes_append_l (needle before haystack : string) :
  includes needle haystack = true -> includes needle (before ++ haystack) = true.
Proof.
  rewrite !includes_spec. intros (b & a & ->).
  exists (before ++ b), a. now rewrite append_assoc.
Qed.

Lemma includes_append_r (needle haystack after : string) :
  includes needle haystack = true -> includes needle (haystack ++ after) = true.
Proof.
  rewrite !includes_spec. intros (b & a & ->).
  exists b, (a ++ after). now rewrite !append_assoc.
Qed.

Lemma includes_join (needle separator : string) (l : list string) (x : string) :
  In x l -> includes needle x = true -> includes needle (join separator l) = true.
Proof.
  intros Hin Hx. unfold join. induction l as [|y l IH]; [destruct Hin|].
  cbn [String.concat]. destruct l as [|z l].
  - destruct Hin as [->|[]]. exact Hx.
  - destruct Hin as [->|Hin].
    + now apply includes_append_r.
    + apply includes_append_l, includes_append_l. now apply IH.
Qed.

Lemma fold_left_append {A : Type} (f : A -> string) (l : list A) :
  forall init,
    fold_left (fun markdown x => markdown ++ f x) l init
    = init ++ fold_left (fun markdown x => markdown ++ f x) l "".
Proof.
  induction l as [|x l IH]; intros init; cbn [fold_left].
  - now rewrite append_nil_r.
  - rewrite (IH (init ++ f x)), (IH ("" ++ f x)). cbn [append].
    now rewrite append_assoc.
Qed.

Lemma includes_fold_left {A : Type} (f : A -> string) (needle : string)
  (l : list A) (x : A) :
  In x l -> includes needle (f x) = true ->
  includes needle (fold_left (fun markdown x => markdown ++ f x) l "") = true.
Proof.
  intros Hin Hx. induction l as [|y l IH]; [destruct Hin|].
  cbn [fold_left]. rewrite fold_left_append. cbn [append].
  destruct Hin as [->|Hin].
  - now apply includes_append_r.
  - apply includes_append_l. now apply IH.
Qed.

Lemma includes_answers (needle : string) (r : SearchResult) :
  includes needle
    (fold_left (fun markdown a => markdown ++ answer_markdown r a)
       (Result.answers r) "") = true ->
  includes needle (result_markdown r) = true.
Proof.
  intros H. unfold result_markdown. cbv zeta.
  repeat match goal with
         | |- includes _ (fold_left _ _ _ ++ _) = true => apply includes_append_r
         | |- includes _ (fold_left _ _ _) = true => exact H
         | |- includes _ (_ ++ _) = true => apply includes_append_l
         end.
Qed.

(** The mark of an accepted answer is the literal of [index.ts], byte for
    byte. *)
Lemma accepted_mark_literal : accepted_mark = "âœ“ ".
Proof. reflexivity. Qed.

(** X18.  The markdown of a list of results shows every one of them: for
    each result the text contains the level-one heading with the question's
    title followed by a blank line, the link line with the question's link,
    and, for each of its answers, the level-three heading with the answer's
    score (preceded, when the answer is accepted, by the mark the source
    prints: the bytes c3 a2 c5 93 e2 80 9c and a space) followed by a blank
    line, the answer's body and a blank line. *)
Theorem markdown_shows_every_result (results : list SearchResult)
  (r : SearchResult) :
  In r results ->
  let text := formatResponse results (Some Markdown) in
  includes ("# " ++ Question.title (Result.question r) ++ nl ++ nl) text = true
  /\ includes ("[View on Stack Overflow](" ++ Question.link (Result.question r) ++ ")")
       text = true
  /\ (forall a, In a (Result.answers r) ->
        includes (answer_heading a ++ nl ++ nl ++ Answer.body a ++ nl ++ nl) text
        = true).
Proof.
  intros Hin text. unfold text. cbn [formatResponse].
  assert (Hr : forall needle,
             includes needle (result_markdown r) = true ->
             includes needle (join (nl ++ nl) (map result_markdown results)) = true).
  { intros needle. apply includes_join. now apply in_map. }
  split; [|split].
  - apply Hr. unfold result_markdown. cbv zeta.
    eapply includes_start. rewrite !append_assoc. reflexivity.
  - apply Hr. unfold result_markdown. cbv zeta.
    repeat match goal with
           | |- includes _ ("[View on Stack Overflow](" ++ _) = true => idtac
           | |- includes _ (_ ++ _) = true => apply includes_append_l
           end.
    eapply includes_start. rewrite !append_assoc. reflexivity.
  - intros a Ha. apply Hr, includes_answers.
    apply (includes_fold_left (answer_markdown r) _ (Result.answers r) a Ha).
    unfold answer_markdown, answer_heading.
    eapply includes_start. rewrite !append_assoc. reflexivity.
Qed.

End Markdown.

(** ** What the read tools ask the remote *)

Section ReadTools.

Variable E : Environment.
Variable fuel : nat.
Hypothesis fuel_enough : (enough_fuel <= fuel)%nat.

(** A read that starts with a rate-limited [fetch] inside [try]/[catch]: the
    request of the [fetch] is the first one sent. *)
Lemma fetch_began {T : Set} {A : Type} (allowed : Request -> bool)
  (api : nat -> Request -> Thrown + Response T) (request : Request)
  (rest : Response T -> M A) (what : string) (w : World) :
  allowed request = true ->
  (forall response, total allowed (rest response)) ->
  timestamps_in_past w ->
  began_with request allowed w
    (try_catch (response <- rate_limited_fetch E fuel api request ;; rest response)
       (rethrow_or_wrap what) w).
Proof.
  intros Hallowed Hrest Hw. unfold try_catch, bind.
  destruct (rate_limited_fetch_ends E fuel api request w Hw fuel_enough)
    as (m & w1 & Hp1 & Hc1 & [(response & ->)|(error & ->)]).
  - specialize (Hrest response w1 Hp1).
    destruct (rest response w1) as [results w2|error w2|].
    + destruct Hrest as (Hp2 & l2 & Hl2 & Hall2). split; [exact Hp2|].
      exists (repeat request m ++ l2)%list. split.
      * unfold issued in *. rewrite Hl2, Hc1, <- List.app_assoc. reflexivity.
      * rewrite forallb_app, Hall2, (forallb_repeat allowed request m Hallowed).
        reflexivity.
    + destruct Hrest as (Hp2 & l2 & Hl2 & Hall2).
      destruct (rethrow_or_wrap_throws (A := A) what error w2) as (error' & ->).
      split; [exact Hp2|].
      exists (repeat request m ++ l2)%list. split.
      * unfold issued in *. rewrite Hl2, Hc1, <- List.app_assoc. reflexivity.
      * rewrite forallb_app, Hall2, (forallb_repeat allowed request m Hallowed).
        reflexivity.
    + destruct Hrest.
  - destruct (rethrow_or_wrap_throws (A := A) what error w1) as (error' & ->).
    split; [exact Hp1|].
    exists (repeat request m). split; [exact Hc1|].
    apply (forallb_repeat allowed request m Hallowed).
Qed.

Lemma began_bind_ret {A B : Type} (request : Request) (allowed : Request -> bool)
  (m : M A) (f : A -> B) (w : World) :
  began_with request allowed w (m w) ->
  began_with request allowed w ((x <- m ;; ret (f x)) w).
Proof. unfold bind. now destruct (m w). Qed.

Lemma first_line_prefix (s : string) :
  exists rest,
    s = first_line s ++ rest
    /\ (rest = "" \/ exists later, rest = String newline later).
Proof.
  induction s as [|c s (rest & Hs & Hrest)]; cbn [first_line].
  - exists "". split; [reflexivity|now left].
  - destruct (c =? newline)%char eqn:Hc.
    + apply Ascii.eqb_eq in Hc. subst c. exists (String newline s).
      split; [reflexivity|right; now exists s].
    + exists rest. split; [cbn [append]; now rewrite <- Hs|exact Hrest].
Qed.

Lemma first_line_single (s : string) : includes nl (first_line s) = false.
Proof.
  induction s as [|c s IH]; cbn [first_line]; [reflexivity|].
  destruct (c =? newline)%char eqn:Hc; [reflexivity|].
  rewrite includes_unfold, IH, orb_false_r. unfold nl. cbn [String.prefix].
  destruct (ascii_dec newline c) as [<-|_]; [|reflexivity].
  rewrite Ascii.eqb_refl in Hc. discriminate Hc.
Qed.

(** X19.  [analyze_stack_trace] searches for the first line of the stack
    trace: the first request it sends is the search whose query is the text of
    [stackTrace] up to its first line break (the whole text when it has none)
    and whose only tag is [language] in lower case, with [pagesize] set from
    [limit]; every later request is an answers request or, when comments are
    asked for, a comments request. *)
Theorem analyze_stack_trace_searches_first_line (args : StackTraceInput)
  (w : World) :
  timestamps_in_past w ->
  began_with
    (search_request E (first_line (StackTrace.stackTrace args))
       (Some [toLowerCase (StackTrace.language args)]) (StackTrace.limit args))
    (search_traffic (truthy_boolean (StackTrace.includeComments args))) w
    (handleAnalyzeStackTrace E fuel args w)
  /\ (exists rest,
         StackTrace.stackTrace args = first_line (StackTrace.stackTrace args) ++ rest
         /\ (rest = "" \/ exists later, rest = String newline later))
  /\ includes nl (first_line (StackTrace.stackTrace args)) = false.
Proof.
  intros Hw. split; [|split; [apply first_line_prefix|apply first_line_single]].
  unfold handleAnalyzeStackTrace. apply began_bind_ret.
  apply (searchStackOverflow_began E fuel fuel_enough
           (first_line (StackTrace.stackTrace args))
           (Some [toLowerCase (StackTrace.language args)])
           {| Options.minScore := Some 0;
              Options.limit := StackTrace.limit args;
              Options.includeComments := StackTrace.includeComments args |} w Hw).
Qed.

(** X20.  [search_by_error] builds its tags from [language] and
    [technologies]: a non-empty language goes first, in lower case, followed by
    the technologies as they were given; when no language is given (or an empty
    one) and no technology, the search request carries no [tagged] parameter at
    all.  In both cases the search for [errorMessage] is the first request
    sent. *)
Theorem search_by_error_tags (args : SearchByErrorInput) (w : World) :
  timestamps_in_past w ->
  (forall language technologies,
      SearchByError.language args = Some language -> language <> "" ->
      SearchByError.technologies args = Some technologies ->
      began_with
        (search_request E (SearchByError.errorMessage args)
           (Some (toLowerCase language :: technologies)) (SearchByError.limit args))
        (search_traffic (truthy_boolean (SearchByError.includeComments args))) w
        (handleSearchByError E fuel args w))
  /\ (truthy_string (SearchByError.language args) = false ->
      SearchByError.technologies args = None
      \/ SearchByError.technologies args = Some [] ->
      began_with
        (search_request E (SearchByError.errorMessage args) None
           (SearchByError.limit args))
        (search_traffic (truthy_boolean (SearchByError.includeComments args))) w
        (handleSearchByError E fuel args w)
      /\ forall value,
           ~ In ("tagged", value)
               (params (search_request E (SearchByError.errorMessage args) None
                          (SearchByError.limit args)))).
Proof.
  intros Hw. split.
  - intros language technologies Hlanguage Hnonempty Htechnologies.
    unfold handleSearchByError. rewrite Hlanguage, Htechnologies.
    assert (Htruthy : truthy_string (Some language) = true).
    { cbn [truthy_string]. apply negb_true_iff, String.eqb_neq. exact Hnonempty. }
    rewrite Htruthy. cbn [app length Nat.ltb Nat.leb show_string].
    apply began_bind_ret.
    apply (searchStackOverflow_began E fuel fuel_enough
             (SearchByError.errorMessage args)
             (Some (toLowerCase language :: technologies))
             {| Options.minScore := SearchByError.minScore args;
                Options.limit := SearchByError.limit args;
                Options.includeComments := SearchByError.includeComments args |}
             w Hw).
  - intros Hlanguage Htechnologies. split.
    + unfold handleSearchByError. rewrite Hlanguage.
      assert (Hnone : match SearchByError.technologies args with
                      | Some l => l
                      | None => []
                      end = []) by (now destruct Htechnologies as [->| ->]).
      rewrite Hnone. cbn [app length Nat.ltb Nat.leb].
      apply began_bind_ret.
      apply (searchStackOverflow_began E fuel fuel_enough
               (SearchByError.errorMessage args) None
               {| Options.minScore := SearchByError.minScore args;
                  Options.limit := SearchByError.limit args;
                  Options.includeComments := SearchByError.includeComments args |}
               w Hw).
    + intros value. unfold search_request, append_credentials. cbn [params].
      rewrite !in_app_iff.
      destruct (truthy_number (SearchByError.limit args));
        destruct (truthy_string (apiKey E));
        destruct (truthy_string (accessToken E));
        cbn [In]; intuition discriminate.
Qed.

Lemma total_composeResults_issuing (allowed : Request -> bool)
  (minScore : option Z) (includeComments : option bool)
  (questions : list StackOverflowQuestion) :
  (forall questionId, allowed (answers_request E questionId) = true) ->
  (truthy_boolean includeComments = true ->
   forall postId, allowed (comments_request E postId) = true) ->
  forall results,
    total allowed (composeResults E fuel minScore includeComments questions results).
Proof.
  intros Hanswers Hcomments.
  induction questions as [|question others IH]; intros results;
    cbn [composeResults].
  - apply total_ret.
  - destruct (below_minScore minScore question); [apply IH|].
    apply total_bind; [now apply total_fetchAnswers|]. intros answers.
    apply total_bind; [|intros comments; apply IH].
    destruct (truthy_boolean includeComments) eqn:Hc; [|apply total_ret].
    apply total_bind; [apply total_fetchComments; [exact fuel_enough|now apply Hcomments]|].
    intros ofQuestion.
    apply total_bind; [|intros ofAnswers; apply total_ret].
    apply total_fetchAnswerComments; [exact fuel_enough|now apply Hcomments].
Qed.

(** X21.  [search_by_tags] lists instead of searching: the first request of
    a call that names [tags] is a GET of the questions listing carrying the
    tags joined by semicolons as [tagged] (the empty string for an empty list
    of tags, which the dispatcher lets through), and the credentials that are
    set; every later request is that listing again (a retry), an answers
    request or, when comments are asked for, a comments request, so that no
    search request is ever sent. *)
Theorem search_by_tags_lists_questions (args : Arguments) (tags : list string)
  (w : World) :
  arg_tags args = Some tags ->
  timestamps_in_past w ->
  began_with (tags_request E tags (arg_limit args))
    (listing_traffic (truthy_boolean (arg_includeComments args))) w
    (callTool E fuel "search_by_tags" (Some args) w)
  /\ In ("tagged", join ";" tags) (params (tags_request E tags (arg_limit args)))
  /\ (forall request,
         listing_traffic (truthy_boolean (arg_includeComments args)) request = true ->
         is_search request = false).
Proof.
  intros Htags Hw. split; [|split].
  - unfold callTool. cbn [String.eqb Ascii.eqb Bool.eqb]. rewrite Htags.
    unfold handleSearchByTags.
    cbn [SearchByTags.tags SearchByTags.limit SearchByTags.minScore
         SearchByTags.includeComments SearchByTags.responseFormat].
    change {| method := GET; endpoint := QuestionsList;
              params := append_credentials E _ |}
      with (tags_request E tags (arg_limit args)).
    apply fetch_began; [reflexivity| |exact Hw].
    intros response. destruct (negb (ok response)).
    + apply failing_total, failing_throw_api_error.
    + apply total_bind; [apply total_response_json|]. intros data.
      apply total_bind.
      { unfold iterate_items. destruct (items data); [apply total_ret|apply total_throw]. }
      intros questions. apply total_bind; [|intros results; apply total_ret].
      apply total_composeResults_issuing.
      * reflexivity.
      * intros Hc postId. unfold listing_traffic. now rewrite Hc.
  - unfold tags_request, append_credentials. cbn [params].
    rewrite !in_app_iff. left. left. cbn [In]. tauto.
  - intros request. unfold listing_traffic, is_search, is_answers_fetch,
      is_comments_fetch.
    destruct (endpoint request); try reflexivity.
    cbn [orb]. rewrite andb_false_r, andb_false_r. discriminate.
Qed.

End ReadTools.

(** ** The dispatcher and the question lookup *)

Section Dispatcher.

Variable E : Environment.
Variable fuel : nat.
Hypothesis fuel_enough : (enough_fuel <= fuel)%nat.

Lemma required_string_missing (v : option string) :
  truthy_string v = false -> required_string v = None.
Proof. unfold required_string. now intros ->. Qed.

(** X22.  A call without an [arguments] object is refused with
    [InvalidParams] whatever the tool name, also an unknown one, since the
    check comes before the dispatch on the name; a call with arguments to a
    name that is none of the seven tools is refused with [MethodNotFound] and a
    message that repeats the name.  Both happen in the state the call was made
    in. *)
Theorem unknown_tool_is_rejected (name : string) (w : World) :
  callTool E fuel name None w
  = Throw (McpError InvalidParams "Arguments are required") w
  /\ (forall args,
         ~ In name tool_names ->
         callTool E fuel name (Some args) w
         = Throw (McpError MethodNotFound ("Unknown tool: " ++ name)) w).
Proof.
  split; [reflexivity|]. intros args Hunknown. unfold callTool.
  repeat match goal with
         | |- (if String.eqb name ?tool then _ else _) _ = _ =>
             let Hname := fresh "Hname" in
             destruct (String.eqb name tool) eqn:Hname;
             [apply String.eqb_eq in Hname; exfalso; apply Hunknown;
              rewrite Hname; unfold tool_names; cbn [In]; tauto|]
         end.
  reflexivity.
Qed.

(** X23.  A tool call that lacks a required argument is refused by the
    dispatcher with [InvalidParams], in the state it was made in and before
    the handler runs: a missing or empty [errorMessage] for [search_by_error];
    missing [tags] for [search_by_tags]; a missing or empty [stackTrace] or
    [language] for [analyze_stack_trace]; a missing or empty [title], [body]
    or [errorSignature], or missing [tags] or [triedApproaches], for
    [post_question]; a missing or empty [body], or a missing id, for
    [post_solution] and [comment_solution]; a missing [postId] for
    [thumbs_up]. *)
Theorem missing_required_argument_is_refused (args : Arguments) (w : World) :
  (truthy_string (arg_errorMessage args) = false ->
   callTool E fuel "search_by_error" (Some args) w
   = Throw (McpError InvalidParams "errorMessage is required") w)
  /\ (arg_tags args = None ->
      callTool E fuel "search_by_tags" (Some args) w
      = Throw (McpError InvalidParams "tags are required") w)
  /\ (truthy_string (arg_stackTrace args) = false
      \/ truthy_string (arg_language args) = false ->
      callTool E fuel "analyze_stack_trace" (Some args) w
      = Throw (McpError InvalidParams "stackTrace and language are required") w)
  /\ (truthy_string (arg_title args) = false
      \/ truthy_string (arg_body args) = false
      \/ truthy_string (arg_errorSignature args) = false
      \/ arg_tags args = None
      \/ arg_triedApproaches args = None ->
      callTool E fuel "post_question" (Some args) w
      = Throw (McpError InvalidParams
                 "title, body, tags, errorSignature, triedApproaches are required") w)
  /\ (truthy_number (arg_questionId args) = false
      \/ truthy_string (arg_body args) = false ->
      callTool E fuel "post_solution" (Some args) w
      = Throw (McpError InvalidParams "questionId and body are required") w
      /\ callTool E fuel "comment_solution" (Some args) w
         = Throw (McpError InvalidParams "questionId and body are required") w)
  /\ (truthy_number (arg_postId args) = false ->
      callTool E fuel "thumbs_up" (Some args) w
      = Throw (McpError InvalidParams "postId is required") w).
Proof.
  unfold callTool, required_string, required_number.
  cbn [String.eqb Ascii.eqb Bool.eqb].
  split; [|split; [|split; [|split; [|split]]]].
  - now intros ->.
  - now intros ->.
  - intros [H|H]; rewrite H; [reflexivity|].
    destruct (truthy_string (arg_stackTrace args)); [|reflexivity].
    now destruct (arg_stackTrace args).
  - intros Hmissing.
    destruct (truthy_string (arg_title args)) eqn:Htitle;
      destruct (truthy_string (arg_body args)) eqn:Hbody;
      destruct (truthy_string (arg_errorSignature args)) eqn:Hsignature;
      destruct (arg_title args) as [title|];
      destruct (arg_body args) as [body|];
      destruct (arg_errorSignature args) as [errorSignature|];
      destruct (arg_tags args) as [tags|];
      destruct (arg_triedApproaches args) as [approaches|];
      try reflexivity; try discriminate;
      intuition discriminate.
  - intros [H|H]; rewrite H; split; try reflexivity;
      (destruct (truthy_number (arg_questionId args)); [|reflexivity]);
      now destruct (arg_questionId args).
  - now intros ->.
Qed.

(** X24.  [fetchQuestion] yields the first item of an [ok] response and
    nothing when [items] is missing or empty; so [post_solution] and
    [comment_solution] on an id the remote does not know fail with
    [Question not found] after the one lookup, before the credentials are
    looked at. *)
Theorem unknown_question_is_not_found (questionId : Z) (w : World)
  (data : Payload StackOverflowQuestion) :
  timestamps_in_past w ->
  payload_of (questions_api E (length (calls w)) (question_request E questionId))
  = Some data ->
  exists w',
    fetchQuestion E fuel questionId w = Return (first_item data) w'
    /\ calls w' = (calls w ++ [question_request E questionId])%list
    /\ (items data = None \/ items data = Some [] ->
        first_item data = None
        /\ (forall body confirmed evidence,
               truthy_boolean confirmed = true -> no_evidence evidence = false ->
               handlePostSolution E fuel
                 {| PostSolution.questionId := questionId;
                    PostSolution.body := body;
                    PostSolution.confirmedResolved := confirmed;
                    PostSolution.evidence := evidence |} w
               = Throw question_not_found w')
        /\ (forall body,
               handleCommentSolution E fuel
                 {| CommentSolution.questionId := questionId;
                    CommentSolution.body := body |} w
               = Throw question_not_found w')).
Proof.
  intros Hw Hdata.
  destruct (payload_of_resolved _ data Hdata) as (response & Hapi & Hok & Hjson).
  destruct (rate_limited_fetch_resolved E fuel (questions_api E) _ w response Hw
              fuel_enough Hapi) as (w' & Hrun & _ & Hc).
  assert (Hfetch : fetchQuestion E fuel questionId w = Return (first_item data) w').
  { unfold fetchQuestion, bind. rewrite Hrun, Hok. cbn [negb].
    unfold response_json. now rewrite Hjson. }
  exists w'. split; [exact Hfetch|]. split; [exact Hc|].
  intros Hnone.
  assert (Hfirst : first_item data = None)
    by (unfold first_item; now destruct Hnone as [->| ->]).
  split; [exact Hfirst|]. rewrite Hfirst in Hfetch. split.
  - intros body confirmed evidence Hconfirmed Hevidence.
    unfold handlePostSolution.
    cbn [PostSolution.confirmedResolved PostSolution.evidence PostSolution.questionId].
    rewrite Hconfirmed, Hevidence. cbn [negb]. unfold bind. now rewrite Hfetch.
  - intros body. unfold handleCommentSolution.
    cbn [CommentSolution.questionId]. unfold bind. now rewrite Hfetch.
Qed.

End Dispatcher.

(** ** Examples: the further properties at concrete inputs *)

Lemma busy_world_in_past (t : Z) : timestamps_in_past (busy_world t).
Proof.
  apply Forall_forall. intros x Hx. apply repeat_spec in Hx. subst x.
  cbn [busy_world now]. lia.
Qed.

Lemma busy_world_bounded (t : Z) : record_bounded (busy_world t).
Proof.
  unfold record_bounded, busy_world. cbn [requestTimestamps].
  rewrite repeat_length. apply le_n.
Qed.

Lemma after_request_in_past (request : Request) :
  timestamps_in_past (after_request request).
Proof. constructor; [apply Z.le_refl|constructor]. Qed.

(** X1 at a [search_by_error] call made with the record full. *)
Lemma requestTimestamps_stay_bounded_witness :
  record_bounded (busy_world 0)
  /\ timestamps_in_past (busy_world 0)
  /\ match callTool (sample_environment None None [sample_question 1 3 2 None]) 124
             "search_by_error" (Some read_arguments) (busy_world 0) with
     | Return _ w' | Throw _ w' => record_bounded w' /\ timestamps_in_past w'
     | OutOfFuel => False
     end.
Proof.
  split; [apply busy_world_bounded|]. split; [apply busy_world_in_past|].
  destruct (requestTimestamps_stay_bounded
              (sample_environment None None [sample_question 1 3 2 None]) 124
              (le_n _)) as (_ & _ & Hcall).
  exact (Hcall "search_by_error" (Some read_arguments) (busy_world 0)
           (busy_world_bounded 0) (busy_world_in_past 0)).
Defined.

(** X2 at a [post_question] call with both credentials set. *)
Lemma tool_calls_end_authorized_witness :
  match callTool (sample_environment (Some "key") (Some "token") []) 124
          "post_question" (Some repeated_approaches) (initial_world 0) with
  | Return _ w' | Throw _ w' =>
      reached_issuing (authorized (sample_environment (Some "key") (Some "token") []))
        (initial_world 0) w'
  | OutOfFuel => False
  end.
Proof.
  exact (tool_calls_end_authorized
           (sample_environment (Some "key") (Some "token") []) 124 (le_n _)
           "post_question" (Some repeated_approaches) (initial_world 0)
           (initial_world_in_past 0)).
Defined.

(** X3 at a [search_by_tags] call that asks for comments. *)
Lemma read_tools_only_read_witness :
  match callTool (sample_environment None None [sample_question 1 3 2 None]) 124
          "search_by_tags" (Some read_arguments) (initial_world 0) with
  | Return _ w' | Throw _ w' =>
      reached_issuing (read_traffic true) (initial_world 0) w'
  | OutOfFuel => False
  end.
Proof.
  exact (read_tools_only_read
           (sample_environment None None [sample_question 1 3 2 None]) 124 (le_n _)
           "search_by_tags" read_arguments (initial_world 0)
           (or_intror (or_introl eq_refl)) (initial_world_in_past 0)).
Defined.

(** X4 at a remote that answers every request with a 429 rejection. *)
Lemma withRateLimit_gives_up_witness :
  exists error w',
    rate_limited_fetch throttled_environment 124
      (questions_api throttled_environment) sample_request (initial_world 0)
    = Throw error w'
    /\ is_rate_limited error = true
    /\ calls w' = [sample_request; sample_request; sample_request; sample_request]
    /\ 6000 <= now w'.
Proof.
  destruct (withRateLimit_gives_up_after_budget throttled_environment) as (_ & Hfetch).
  exact (Hfetch StackOverflowQuestion (questions_api throttled_environment)
           sample_request 124%nat (initial_world 0) (initial_world_in_past 0) (le_n _)
           (fun _ => ex_intro _ (JsError "HTTP 429 Too Many Requests" None)
                       (conj eq_refl eq_refl))).
Defined.

(** X5 at a [fetch] made with the record full: it waits, and is sent once. *)
Lemma resolved_fetch_waits_witness :
  exists waits w',
    rate_limited_fetch (sample_environment None None []) 124
      (questions_api (sample_environment None None [])) sample_request (busy_world 0)
    = Return {| ok := true; status := 200;
                json := inr {| items := Some []; api_error := no_api_error |} |} w'
    /\ (waits <= 30)%nat
    /\ ticks w' = S (0 + waits)
    /\ 0 + 2000 * Z.of_nat waits <= now w'
    /\ calls w' = [sample_request]
    /\ ((30 < 30)%nat -> waits = 0%nat).
Proof.
  exact (resolved_fetch_waits_at_most_30_times (sample_environment None None [])
           StackOverflowQuestion 124
           (questions_api (sample_environment None None [])) sample_request
           (busy_world 0) _ (busy_world_in_past 0) (le_n _) eq_refl).
Defined.

(** X7 at a remote that resolves every request with status 429. *)
Lemma failed_response_witness :
  exists w',
    searchStackOverflow refusing_environment 124 "TypeError" None plain_options
      (initial_world 0)
    = Throw (McpError InvalidRequest
               "Stack Overflow API error: too many requests from this IP (502)") w'
    /\ calls w' = [search_request refusing_environment "TypeError" None None].
Proof.
  destruct (failed_response_is_reported_once refusing_environment 124 (le_n _))
    as (Hsearch & _).
  exact (Hsearch "TypeError" None plain_options (initial_world 0) refused
           {| items := None; api_error := throttle_violation |}
           (initial_world_in_past 0) eq_refl eq_refl eq_refl).
Defined.

(** X8 without network: [fetchAnswers] wraps the error of [fetch] and
    [post_solution] throws it as it is. *)
Lemma transport_failure_witness :
  (exists w',
      fetchAnswers offline_environment 124 1 (initial_world 0)
      = Throw (McpError InternalError "Failed to fetch answers: fetch failed") w'
      /\ calls w' = [answers_request offline_environment 1])
  /\ exists w',
       handlePostSolution offline_environment 124
         (sample_post_solution (Some true) (Some ["test log"])) (initial_world 0)
       = Throw fetch_failed w'.
Proof.
  destruct (transport_failure_is_wrapped_by_reads_only offline_environment 124 (le_n _))
    as (Hanswers & _ & _ & _ & Hsolution).
  split.
  - exact (Hanswers 1 (initial_world 0) fetch_failed (initial_world_in_past 0)
             eq_refl eq_refl eq_refl).
  - exact (Hsolution (sample_post_solution (Some true) (Some ["test log"]))
             (initial_world 0) fetch_failed (initial_world_in_past 0)
             eq_refl eq_refl eq_refl eq_refl).
Defined.

(** X9 at a remote whose payloads carry no [items]. *)
Lemma search_without_items_witness :
  exists reason w',
    searchStackOverflow itemless_environment 124 "TypeError" None plain_options
      (initial_world 0)
    = Throw (McpError InternalError ("Failed to search Stack Overflow: " ++ reason)) w'
    /\ calls w' = [search_request itemless_environment "TypeError" None None].
Proof.
  destruct (search_without_items_fails itemless_environment 124 (le_n _))
    as (Hsearch & _).
  exact (Hsearch "TypeError" None plain_options (initial_world 0)
           {| ok := true; status := 200;
              json := inr {| items := None; api_error := no_api_error |} |}
           {| items := None; api_error := no_api_error |}
           (initial_world_in_past 0) eq_refl eq_refl eq_refl eq_refl).
Defined.


(** X11 at a search with comments for a question with two answers, 11 and
    10: the keys of the mapping are 10 and 11. *)
Lemma search_results_well_formed_witness :
  exists results w',
    searchStackOverflow (sample_environment None None [sample_question 1 3 2 None]) 124
      "TypeError" None (with_comments None) (initial_world 0)
    = Return results w'
    /\ Forall (fun r =>
                 bundle_matches true r
                 /\ match Result.comments r with
                    | Some c =>
                        NoDup (map fst (Comments.answers c))
                        /\ exists indices,
                             map fst (Comments.answers c)
                             = (indices
                                ++ first_occurrences
                                     (filter (fun id => negb (is_array_index id))
                                        (answer_ids (Result.answers r))))%list
                             /\ StronglySorted Z.lt indices
                             /\ (forall id,
                                    In id indices
                                    <-> In id (answer_ids (Result.answers r))
                                        /\ 0 <= id <= 4294967294)
                    | None => True
                    end) results.
Proof.
  pose proof (search_results_are_well_formed
                (sample_environment None None [sample_question 1 3 2 None]) 124
                "TypeError" None (with_comments None) (initial_world 0)) as Hwell.
  destruct (searchStackOverflow (sample_environment None None [sample_question 1 3 2 None])
              124 "TypeError" None (with_comments None) (initial_world 0))
    as [results w'|error w'|] eqn:Hrun.
  - exists results, w'. split; [reflexivity|]. exact (Hwell w' results eq_refl).
  - vm_compute in Hrun. discriminate Hrun.
  - vm_compute in Hrun. discriminate Hrun.
Defined.

(** X12 at a search with [minScore] 2 over questions of score 3 and 0. *)
Lemma minScore_keeps_scores_witness :
  exists results w',
    searchStackOverflow
      (sample_environment None None
         [sample_question 1 3 2 None; sample_question 2 0 0 None]) 124
      "TypeError" None (with_comments (Some 2)) (initial_world 0)
    = Return results w'
    /\ map Result.question results = [sample_question 1 3 2 None].
Proof.
  pose proof (minScore_keeps_scores_at_least
                (sample_environment None None
                   [sample_question 1 3 2 None; sample_question 2 0 0 None])
                124 (le_n _) "TypeError" None (with_comments (Some 2))
                (initial_world 0)) as Hfilter.
  destruct (searchStackOverflow
              (sample_environment None None
                 [sample_question 1 3 2 None; sample_question 2 0 0 None]) 124
              "TypeError" None (with_comments (Some 2)) (initial_world 0))
    as [results w'|error w'|] eqn:Hrun.
  - exists results, w'. split; [reflexivity|].
    destruct (Hfilter w'
                {| items := Some [sample_question 1 3 2 None; sample_question 2 0 0 None];
                   api_error := no_api_error |}
                [sample_question 1 3 2 None; sample_question 2 0 0 None] results
                (initial_world_in_past 0) eq_refl eq_refl eq_refl) as (Hsome & _).
    apply (Hsome 2 eq_refl). discriminate.
  - vm_compute in Hrun. discriminate Hrun.
  - vm_compute in Hrun. discriminate Hrun.
Defined.

(** X13 at the same search with comments: the formatter finds the comments of
    both answers. *)
Lemma formatter_finds_answer_comments_witness :
  exists results w',
    searchStackOverflow (sample_environment None None [sample_question 1 3 2 None]) 124
      "TypeError" None (with_comments None) (initial_world 0)
    = Return results w'
    /\ forall r a, In r results -> In a (Result.answers r) ->
         Answer.answer_id a <> None ->
         exists l, comments_of_answer r a = Some l.
Proof.
  pose proof (formatter_finds_answer_comments
                (sample_environment None None [sample_question 1 3 2 None]) 124
                "TypeError" None (with_comments None) (initial_world 0)) as Hfinds.
  destruct (searchStackOverflow (sample_environment None None [sample_question 1 3 2 None])
              124 "TypeError" None (with_comments None) (initial_world 0))
    as [results w'|error w'|] eqn:Hrun.
  - exists results, w'. split; [reflexivity|]. intros r a Hr Ha Hid.
    destruct (Hfinds w' results r a eq_refl Hr Ha) as (Hyes & _).
    exact (Hyes eq_refl Hid).
  - vm_compute in Hrun. discriminate Hrun.
  - vm_compute in Hrun. discriminate Hrun.
Defined.

(** X14 at a confirmed upvote with both credentials set. *)
Lemma thumbs_up_witness :
  exists w',
    calls w'
    = [write_request (sample_environment (Some "key") (Some "token") [])
         (PostUpvote 11) []]
    /\ handleThumbsUp (sample_environment (Some "key") (Some "token") []) 124
         sample_thumbs_up (initial_world 0)
       = Return {| content_text := "Upvote submitted successfully" |} w'.
Proof.
  destruct (thumbs_up_outcomes (sample_environment (Some "key") (Some "token") []) 124
              (le_n _) sample_thumbs_up (initial_world 0)) as (_ & Hsent).
  destruct (Hsent created_response eq_refl (conj eq_refl eq_refl)
              (initial_world_in_past 0) eq_refl) as (w' & Hcalls & Hok & _).
  exists w'. split; [exact Hcalls|exact (Hok eq_refl)].
Defined.

(** X15 at a question that has two answers, none of them accepted: the
    comment is posted. *)
Lemma comment_solution_witness :
  let E := sample_environment (Some "key") (Some "token") [sample_question 1 3 2 None] in
  exists result w',
    handleCommentSolution E 124 sample_comment_solution (initial_world 0)
    = Return result w'
    /\ calls w'
       = [question_request E 1;
          write_request E (CommentsAdd 1)
            [("body", "Mocking the module fixed it for me.")]]
    /\ JSON_parse (content_text result) = Some (posted_comment (Some sample_created)).
Proof.
  intros E.
  destruct (comment_solution_outcomes E 124 (le_n _) sample_comment_solution
              (initial_world 0) (initial_world_in_past 0))
    as (_ & _ & _ & _ & Hposted).
  exact (Hposted (sample_question 1 3 2 None) (after_request (question_request E 1))
           created_response
           {| items := Some [sample_created]; api_error := no_api_error |}
           eq_refl eq_refl (conj eq_refl eq_refl) eq_refl eq_refl eq_refl).
Defined.

(** X16 at a question for which the duplicate search finds nothing. *)
Lemma post_question_witness :
  let E := sample_environment (Some "key") (Some "token") [] in
  exists w',
    calls w'
    = [search_request E "TypeError: mock is not a function" (Some ["jest"]) (Some 3);
       write_request E QuestionsAdd
         [("title", "Mock fails"); ("body", "The mock is never called.");
          ("tags", "jest")]]
    /\ exists result,
         handlePostQuestion E 124 sample_post_question (initial_world 0)
         = Return result w'
         /\ JSON_parse (content_text result)
            = Some (posted_question (Some sample_created)
                      ["restart"; "reinstall"; "downgrade"]).
Proof.
  intros E.
  destruct (post_question_outcomes E 124 (le_n _) sample_post_question
              (initial_world 0)
              (after_request
                 (search_request E "TypeError: mock is not a function"
                    (Some ["jest"]) (Some 3)))
              created_response
              {| items := Some [sample_created]; api_error := no_api_error |}
              eq_refl (after_request_in_past _)
              (conj eq_refl eq_refl) eq_refl eq_refl) as (w' & Hcalls & Hok & _).
  exists w'. split; [exact Hcalls|exact (Hok eq_refl)].
Defined.

(** X17 at a confirmed solution with evidence for a question without
    answers. *)
Lemma post_solution_witness :
  let E := sample_environment (Some "key") (Some "token") [sample_question 1 3 0 None] in
  exists w',
    calls w'
    = [question_request E 1;
       write_request E (AnswersAdd 1) [("body", "Use jest.fn().")]]
    /\ exists result,
         handlePostSolution E 124
           (sample_post_solution (Some true) (Some ["test log"])) (initial_world 0)
         = Return result w'
         /\ JSON_parse (content_text result)
            = Some (posted_answer (Some sample_created) (Some ["test log"])).
Proof.
  intros E.
  destruct (post_solution_outcomes E 124 (le_n _)
              (sample_post_solution (Some true) (Some ["test log"]))
              (initial_world 0) (after_request (question_request E 1))
              (sample_question 1 3 0 None) created_response
              {| items := Some [sample_created]; api_error := no_api_error |}
              eq_refl eq_refl eq_refl eq_refl
              (after_request_in_past _)
              (conj eq_refl eq_refl) eq_refl eq_refl) as (w' & Hcalls & Hok & _).
  exists w'. split; [exact Hcalls|exact (Hok eq_refl)].
Defined.

(** X18 at the sample result: the title heading, the link and the heading of
    its first answer, accepted with score 5, which is the line the formatting
    test of the repository looks for. *)
Lemma markdown_shows_witness :
  let text := formatResponse [sample_result] (Some Markdown) in
  includes ("# How to test?" ++ nl ++ nl) text = true
  /\ includes "[View on Stack Overflow](https://stackoverflow.com/q/1)" text = true
  /\ includes ("### âœ“ Answer (Score: 5)" ++ nl ++ nl ++ "<p>Mock it.</p>" ++ nl ++ nl)
       text = true.
Proof.
  destruct (markdown_shows_every_result [sample_result] sample_result
              (or_introl eq_refl)) as (Htitle & Hlink & Hanswers).
  split; [exact Htitle|]. split; [exact Hlink|].
  exact (Hanswers (sample_answer 11 1) (or_introl eq_refl)).
Defined.

(** X19 at a stack trace of two lines. *)
Lemma analyze_stack_trace_witness :
  let E := sample_environment None None [sample_question 1 3 2 None] in
  began_with
    (search_request E "TypeError: mock is not a function" (Some ["typescript"])
       (Some 5))
    (search_traffic false) (initial_world 0)
    (handleAnalyzeStackTrace E 124 sample_trace_input (initial_world 0)).
Proof.
  intros E.
  destruct (analyze_stack_trace_searches_first_line E 124 (le_n _) sample_trace_input
              (initial_world 0) (initial_world_in_past 0)) as (Hbegan & _).
  exact Hbegan.
Defined.

(** X20 at a search with language TypeScript and technology jest. *)
Lemma search_by_error_tags_witness :
  let E := sample_environment None None [sample_question 1 3 2 None] in
  began_with
    (search_request E "TypeError: mock is not a function"
       (Some ["typescript"; "jest"]) None)
    (search_traffic false) (initial_world 0)
    (handleSearchByError E 124 sample_error_search (initial_world 0)).
Proof.
  intros E.
  destruct (search_by_error_tags E 124 (le_n _) sample_error_search
              (initial_world 0) (initial_world_in_past 0)) as (Hbegan & _).
  apply (Hbegan "TypeScript" ["jest"] eq_refl); [discriminate|reflexivity].
Defined.

(** X21 at a call with an empty list of tags. *)
Lemma search_by_tags_witness :
  let E := sample_environment None None [sample_question 1 3 2 None] in
  began_with (tags_request E [] (Some 5)) (listing_traffic true) (initial_world 0)
    (callTool E 124 "search_by_tags" (Some read_arguments) (initial_world 0))
  /\ In ("tagged", "") (params (tags_request E [] (Some 5))).
Proof.
  intros E.
  destruct (search_by_tags_lists_questions E 124 (le_n _) read_arguments []
              (initial_world 0) eq_refl (initial_world_in_past 0))
    as (Hbegan & Htagged & _).
  split; [exact Hbegan|exact Htagged].
Defined.

(** X22 at a tool name the server does not have. *)
Lemma unknown_tool_witness :
  callTool itemless_environment 124 "delete_question" None (initial_world 0)
  = Throw (McpError InvalidParams "Arguments are required") (initial_world 0)
  /\ callTool itemless_environment 124 "delete_question" (Some no_arguments)
       (initial_world 0)
     = Throw (McpError MethodNotFound "Unknown tool: delete_question") (initial_world 0).
Proof.
  destruct (unknown_tool_is_rejected itemless_environment 124 "delete_question"
              (initial_world 0)) as (Hnone & Hunknown).
  split; [exact Hnone|]. apply Hunknown.
  unfold tool_names. cbn [In]. intuition discriminate.
Defined.

(** X23 at a call without any argument set. *)
Lemma missing_required_argument_witness :
  callTool itemless_environment 124 "search_by_error" (Some no_arguments)
    (initial_world 0)
  = Throw (McpError InvalidParams "errorMessage is required") (initial_world 0)
  /\ callTool itemless_environment 124 "thumbs_up" (Some no_arguments) (initial_world 0)
     = Throw (McpError InvalidParams "postId is required") (initial_world 0).
Proof.
  destruct (missing_required_argument_is_refused itemless_environment 124 no_arguments
              (initial_world 0)) as (Herror & _ & _ & _ & _ & Hup).
  split; [exact (Herror eq_refl)|exact (Hup eq_refl)].
Defined.

(** X24 at a remote that knows no question. *)
Lemma unknown_question_witness :
  let E := sample_environment (Some "key") (Some "token") [] in
  exists w',
    fetchQuestion E 124 7 (initial_world 0) = Return None w'
    /\ calls w' = [question_request E 7]
    /\ handleCommentSolution E 124
         {| CommentSolution.questionId := 7; CommentSolution.body := "Thanks" |}
         (initial_world 0)
       = Throw question_not_found w'.
Proof.
  intros E.
  destruct (unknown_question_is_not_found E 124 (le_n _) 7 (initial_world 0)
              {| items := Some []; api_error := no_api_error |}
              (initial_world_in_past 0) eq_refl)
    as (w' & Hfetch & Hcalls & Hnone).
  destruct (Hnone (or_intror eq_refl)) as (_ & _ & Hcomment).
  exists w'. split; [exact Hfetch|]. split; [exact Hcalls|exact (Hcomment "Thanks")].
Defined.

